(** * PocketCraft: the tile world, its generator and the per-frame loop

    A shallow embedding of the game screen of the pocket console
    ([Screen], with the declarations of [types.ts]): the world generator
    [generateWorld] and the animation-frame callback [update] (physics and
    collision, mine/place actions, rendering).

    Conventions of the embedding.
    - A JavaScript [number] that carries a coordinate or a velocity is, in
      the first parts, an exact rational ([Q]); [Math.floor] and
      [Math.ceil] are [Qfloor] and [Qceiling] and return integers ([Z]).
      The properties stated there do not depend on how sums and products
      round.  The last part gives [update] once more with the arithmetic
      as a parameter ([updateN]) and the IEEE doubles of the source as an
      instance ([binary64]): velocities and the target cell of an action
      are stated there.
    - A JavaScript array of numbers is a list of optional cells: [None] is
      [undefined] (a hole, or a read past the end).  A write past the end
      extends the array, as in JavaScript.
    - [Math.random()] is a stream [nat -> Q] read through a counter, and
      [Date.now()] is an argument of the frame.
    - A [TypeError] (indexing [undefined]) is an explicit outcome. *)

From Stdlib Require Import ZArith QArith Qround Qminmax Lqa Lia.
From Stdlib Require Floats.
From stdpp Require Import base option list strings gmap.

Local Open Scope Z_scope.

(** ** Numbers *)

Definition Qltb (a b : Q) : bool :=
  match (a ?= b)%Q with Lt => true | _ => false end.

Definition Qgtb (a b : Q) : bool := Qltb b a.

(** ** types.ts *)

Inductive BlockType :=
  | AIR | DIRT | GRASS | STONE | WOOD | LEAVES | BEDROCK | ORE.

(** The numeric value of an enum member. *)
Definition tileId (b : BlockType) : Z :=
  match b with
  | AIR => 0 | DIRT => 1 | GRASS => 2 | STONE => 3
  | WOOD => 4 | LEAVES => 5 | BEDROCK => 6 | ORE => 7
  end.

(** The reverse mapping [BlockType[n]] of a numeric enum. *)
Definition blockName (b : BlockType) : string :=
  match b with
  | AIR => "AIR" | DIRT => "DIRT" | GRASS => "GRASS" | STONE => "STONE"
  | WOOD => "WOOD" | LEAVES => "LEAVES" | BEDROCK => "BEDROCK" | ORE => "ORE"
  end.

#[global] Instance BlockType_eq_dec : EqDecision BlockType.
Proof. solve_decision. Defined.

#[global] Instance BlockType_inhabited : Inhabited BlockType := populate AIR.

Record BiomeConfig := {
  biomeName : string;
  skyColor : string;
  blockColors : gmap Z string;
  gravity : Q;
  terrainRoughness : Q;
  treeDensity : Q;
}.

Record PlayerState := {
  pl_x : Q;
  pl_y : Q;
  pl_vx : Q;
  pl_vy : Q;
  facingRight : bool;
  selectedBlock : BlockType;
}.

Record InputState := {
  in_left : bool;
  in_right : bool;
  in_up : bool;
  in_down : bool;
  actionA : bool;
  actionB : bool;
}.

Definition DEFAULT_BIOME : BiomeConfig := {|
  biomeName := "Overworld";
  skyColor := "#87CEEB";
  blockColors :=
    <[tileId DIRT := "#8B4513"]> (<[tileId GRASS := "#32CD32"]>
    (<[tileId STONE := "#808080"]> (<[tileId WOOD := "#A0522D"]>
    (<[tileId LEAVES := "#228B22"]> (<[tileId BEDROCK := "#2F2F2F"]>
    (<[tileId ORE := "#FFD700"]> ∅))))));
  gravity := 0.5;
  terrainRoughness := 0.5;
  treeDensity := 0.1;
|}.

(** ** JavaScript arrays of numbers *)

Abbreviation Row := (list (option Z)).
Abbreviation World := (list (list (option Z))).

(** [arr[i]]: [undefined] for a hole and outside [0, length). *)
Definition jsget (arr : Row) (i : Z) : option Z :=
  if i <? 0 then None else
  match arr !! Z.to_nat i with
  | Some cell => cell
  | None => None
  end.

(** [arr[i] = v] for an index [i >= 0]: in place inside the array, and
    extending it (with holes) past its end. *)
Definition jsset (arr : Row) (i : nat) (v : Z) : Row :=
  if (i <? length arr)%nat then <[i := Some v]> arr
  else arr ++ replicate (i - length arr) None ++ [Some v].

(** [world[y]]: a row, or [undefined]. *)
Definition rowAt (world : World) (y : Z) : option Row :=
  if y <? 0 then None else world !! Z.to_nat y.

(** [world[y][x]] where the row is known to exist: the read of a cell. *)
Definition cellAt (world : World) (y x : Z) : option Z :=
  match rowAt world y with
  | Some row => jsget row x
  | None => None
  end.

(** [world[y][x] = v] for [y >= 0] and [x >= 0]; [None] is the TypeError
    raised when [world[y]] is [undefined]. *)
Definition setCell (world : World) (y x : Z) (v : Z) : option World :=
  match rowAt world y with
  | Some row => Some (<[Z.to_nat y := jsset row (Z.to_nat x) v]> world)
  | None => None
  end.

(** ** Game constants *)

Definition TILE_SIZE : Q := 16.
Definition CHUNK_WIDTH : Z := 64.
Definition CHUNK_HEIGHT : Z := 48.
Definition RENDER_SCALE : Q := 2.

(** Player box, declared inside [update]. *)
Definition pW : Q := TILE_SIZE * 0.6.
Definition pH : Q := TILE_SIZE * 1.6.

(** ** Collision test *)

(** [world[y] && world[y][x] !== BlockType.AIR] *)
Definition solidAt (world : World) (y x : Z) : bool :=
  match rowAt world y with
  | None => false
  | Some row =>
      match jsget row x with
      | Some v => negb (v =? tileId AIR)
      | None => true
      end
  end.

Definition checkCollision (world : World) (checkX checkY : Q) : bool :=
  let left := Qfloor ((checkX - pW / 2) / TILE_SIZE) in
  let right := Qfloor ((checkX + pW / 2 - 0.1) / TILE_SIZE) in
  let top := Qfloor ((checkY - pH) / TILE_SIZE) in
  let bottom := Qfloor ((checkY - 0.1) / TILE_SIZE) in
  if (left <? 0) || (right >=? CHUNK_WIDTH) || (bottom >=? CHUNK_HEIGHT)
  then true
  else if top <? 0 then false
  else
    existsb (fun y =>
      existsb (fun x => solidAt world y x) (seqZ left (right - left + 1)))
      (seqZ top (bottom - top + 1)).

(** ** World generation *)

Fixpoint foldM {A S : Type} (f : A → S → option S) (l : list A) (s : S)
  : option S :=
  match l with
  | [] => Some s
  | a :: l' =>
      match f a s with
      | Some s' => foldM f l' s'
      | None => None
      end
  end.

(** [world[y][x]] as an expression: [None] is the TypeError raised when
    [world[y]] is [undefined]. *)
Definition readCell (world : World) (y x : Z) : option (option Z) :=
  match rowAt world y with
  | Some row => Some (jsget row x)
  | None => None
  end.

(** The two nested loops that fill [newWorld] with AIR; each write lands
    at the current end of its array. *)
Definition freshRow : Row :=
  foldl (fun row x => jsset row x (tileId AIR)) []
        (seq 0 (Z.to_nat CHUNK_WIDTH)).

Definition freshWorld : World :=
  foldl (fun w (_ : nat) => w ++ [freshRow]) [] (seq 0 (Z.to_nat CHUNK_HEIGHT)).

Section Generator.
Variable biome : BiomeConfig.
(** [random n] is the value of the [n]-th call of [Math.random()]. *)
Variable random : nat → Q.

(** Body of the loop "Fill blocks", with the count of draws so far. *)
Definition fillCell (height x y : Z) (st : World * nat)
  : option (World * nat) :=
  let '(w, n) := st in
  if y =? CHUNK_HEIGHT - 1 then
    w' ← setCell w y x (tileId BEDROCK); Some (w', n)
  else if y =? height then
    w' ← setCell w y x (tileId GRASS); Some (w', n)
  else if y >? height + 5 then
    w' ← setCell w y x
           (tileId (if Qgtb (random n) 0.9 then ORE else STONE));
    Some (w', S n)
  else
    w' ← setCell w y x (tileId DIRT); Some (w', n).

(** Body of the loop "Grow tree". *)
Definition growTrunk (height x i : Z) (w : World) : option World :=
  if height - i >=? 0 then setCell w (height - i) x (tileId WOOD)
  else Some w.

(** Body of the loops "Leaves". *)
Definition growLeaf (lx ly : Z) (w : World) : option World :=
  if (lx >=? 0) && (lx <? CHUNK_WIDTH) && (ly >=? 0) then
    c ← readCell w ly lx;
    if bool_decide (c = Some (tileId AIR))
    then setCell w ly lx (tileId LEAVES)
    else Some w
  else Some w.

(** Body of the loop over the columns: the state is the running
    [height], the world and the count of draws. *)
Definition genColumn (x : Z) (st : Z * World * nat)
  : option (Z * World * nat) :=
  let '(height0, w, n) := st in
  let '(height1, n1) :=
    if Qltb (random n) (terrainRoughness biome)
    then (height0 + (if Qgtb (random (S n)) 0.5 then 1 else -1), S (S n))
    else (height0, S n) in
  let height := Z.max 10 (Z.min (CHUNK_HEIGHT - 5) height1) in
  '(w1, n2) ← foldM (fillCell height x)
                (seqZ height (CHUNK_HEIGHT - height)) (w, n1);
  if (x >? 5) && (x <? CHUNK_WIDTH - 5) then
    c ← readCell w1 height x;
    if bool_decide (c = Some (tileId GRASS)) then
      if Qltb (random n2) (treeDensity biome) then
        let treeHeight := 3 + Qfloor (random (S n2) * 3) in
        w2 ← foldM (growTrunk height x) (seqZ 1 treeHeight) w1;
        w3 ← foldM (fun lx w =>
                foldM (growLeaf lx) (seqZ (height - treeHeight - 1) 2) w)
              (seqZ (x - 1) 3) w2;
        Some (height, w3, S (S n2))
      else Some (height, w1, S n2)
    else Some (height, w1, n2)
  else Some (height, w1, n2).

(** [generateWorld]: the new world and the player after "Reset player";
    [None] when a TypeError escapes (nothing is assigned then). *)
Definition generateWorld (player : PlayerState)
  : option (World * PlayerState) :=
  '(_, newWorld, _) ←
    foldM genColumn (seqZ 0 CHUNK_WIDTH)
      (Qfloor (inject_Z CHUNK_HEIGHT / 2), freshWorld, 0%nat);
  Some (newWorld,
        {| pl_x := inject_Z CHUNK_WIDTH * TILE_SIZE * 0.5;
           pl_y := 0; pl_vx := 0; pl_vy := 0;
           facingRight := facingRight player;
           selectedBlock := selectedBlock player |}).
End Generator.

(** The player object created with the component. *)
Definition initialPlayer : PlayerState :=
  {| pl_x := 100; pl_y := 0; pl_vx := 0; pl_vy := 0;
     facingRight := true; selectedBlock := DIRT |}.

(** ** The game loop *)

Record GameState := {
  world : World;            (* worldRef.current *)
  player : PlayerState;     (* playerRef.current *)
  lastActionTime : Z;       (* lastActionTime.current *)
}.

(** The canvas element; [update] reads its two dimensions. *)
Record Canvas := {
  canvasWidth : Q;
  canvasHeight : Q;
}.

(** The element rendered by [Screen]: [width={320} height={240}]. *)
Definition screenCanvas : Canvas :=
  {| canvasWidth := 320; canvasHeight := 240 |}.

(** Calls made on the 2D context, in order. *)
Inductive CanvasOp :=
  | SetFillStyle (style : string)
  | FillRect (x y w h : Q)
  | Save
  | Scale (sx sy : Q)
  | Translate (dx dy : Q)
  | SetStrokeStyle (style : string)
  | SetLineWidth (w : Q)
  | StrokeRect (x y w h : Q)
  | Restore.

(** What one call of [update] does. *)
Inductive Outcome :=
  | NoCanvas
      (* returned at the guard [if (!canvas || !ctx) return] *)
  | Threw (st : GameState)
      (* a TypeError escaped; [st] holds the mutations made before it *)
  | Frame (st : GameState) (log : list string) (ops : list CanvasOp).
      (* ran to the end and requested the next animation frame *)

(** [types] of the block cycle and [Array.prototype.indexOf]. *)
Definition types : list BlockType := [DIRT; STONE; WOOD; GRASS; LEAVES].

Fixpoint indexOfFrom (l : list BlockType) (b : BlockType) (i : Z) : Z :=
  match l with
  | [] => -1
  | a :: l' => if decide (a = b) then i else indexOfFrom l' b (i + 1)
  end.

Definition indexOf (l : list BlockType) (b : BlockType) : Z :=
  indexOfFrom l b 0.

(** [biome.blockColors[block as BlockType] || '#FF00FF'] *)
Definition tileColor (biome : BiomeConfig) (block : option Z) : string :=
  match block with
  | Some v =>
      match blockColors biome !! v with
      | Some c => if decide (c = EmptyString) then "#FF00FF" else c
      | None => "#FF00FF"
      end
  | None => "#FF00FF"
  end.

(** *** The three stages, one per marked region of [update] *)

(** Region "Physics" with "Collision Detection (AABB)" and "Handle Jump
    Input": the player after the move. *)
Definition physicsStep (biome : BiomeConfig) (inputs : InputState)
    (world : World) (p : PlayerState) : PlayerState :=
  let '(vx1, facing1) :=
    if in_left inputs then ((-2)%Q, false)
    else if in_right inputs then (2%Q, true)
    else ((pl_vx p * 0.8)%Q, facingRight p) in
  let vy1 := Qmin (pl_vy p + gravity biome) 8 in
  let newX := (pl_x p + vx1)%Q in
  let newY := (pl_y p + vy1)%Q in
  let hitY := checkCollision world (pl_x p) newY in
  let onGround := hitY && Qgtb vy1 0 in
  let newY' :=
    if hitY then
      if Qgtb vy1 0
      then (inject_Z (Qfloor (newY / TILE_SIZE)) * TILE_SIZE)%Q
      else (inject_Z (Qceiling (newY / TILE_SIZE)) * TILE_SIZE + 0.1)%Q
    else newY in
  let vy2 := if hitY then 0%Q else vy1 in
  let hitX := checkCollision world newX newY' in
  {| pl_x := if hitX then pl_x p else newX;
     pl_y := newY';
     pl_vx := if hitX then 0%Q else vx1;
     pl_vy := if in_up inputs && onGround then (-6)%Q else vy2;
     facingRight := facing1;
     selectedBlock := selectedBlock p |}.

(** The target of an action: the point in front of the player and the
    grid cell that holds it. *)
Definition targetX (p : PlayerState) : Q :=
  let reach := (TILE_SIZE * 1.5)%Q in
  (pl_x p + (if facingRight p then reach else - reach))%Q.

Definition targetY (p : PlayerState) : Q := (pl_y p - pH * 0.5)%Q.

Definition targetCell (p : PlayerState) : Z * Z :=
  (Qfloor (targetY p / TILE_SIZE), Qfloor (targetX p / TILE_SIZE)).

Definition inGrid (gy gx : Z) : bool :=
  (gx >=? 0) && (gx <? CHUNK_WIDTH) && (gy >=? 0) && (gy <? CHUNK_HEIGHT).

(** Region "Actions (Mine/Place)": the state and the messages logged;
    [None] when [world[gy]] is [undefined] and the read throws. *)
Definition interactionStep (now : Z) (inputs : InputState) (st : GameState)
  : option (GameState * list string) :=
  let p := player st in
  if (actionA inputs || actionB inputs) && (now - lastActionTime st >? 200)
  then
    let '(gy, gx) := targetCell p in
    if inGrid gy gx then
      if actionA inputs then
        c ← readCell (world st) gy gx;
        if bool_decide (c ≠ Some (tileId BEDROCK)) then
          w' ← setCell (world st) gy gx (tileId AIR);
          Some ({| world := w'; player := p; lastActionTime := now |}, [])
        else Some (st, [])
      else if actionB inputs then
        c ← readCell (world st) gy gx;
        if bool_decide (c = Some (tileId AIR)) then
          if negb (checkCollision (world st) (targetX p) (targetY p)) then
            w' ← setCell (world st) gy gx (tileId (selectedBlock p));
            Some ({| world := w'; player := p; lastActionTime := now |}, [])
          else Some (st, [])
        else
          let idx := indexOf types (selectedBlock p) in
          let next :=
            types !!! Z.to_nat (Z.rem (idx + 1) (Z.of_nat (length types))) in
          let p' :=
            {| pl_x := pl_x p; pl_y := pl_y p;
               pl_vx := pl_vx p; pl_vy := pl_vy p;
               facingRight := facingRight p; selectedBlock := next |} in
          Some ({| world := world st; player := p'; lastActionTime := now |},
                [("Equipped: " +:+ blockName next)%string])
      else Some (st, [])
    else Some (st, [])
  else Some (st, []).

(** The clamped camera origin of region "Rendering". *)
Definition camera (cv : Canvas) (p : PlayerState) : Q * Q :=
  let camX := Qfloor (pl_x p - (canvasWidth cv / RENDER_SCALE) / 2) in
  let camY := Qfloor (pl_y p - (canvasHeight cv / RENDER_SCALE) / 2) in
  let maxCamX :=
    (inject_Z CHUNK_WIDTH * TILE_SIZE - canvasWidth cv / RENDER_SCALE)%Q in
  let maxCamY :=
    (inject_Z CHUNK_HEIGHT * TILE_SIZE - canvasHeight cv / RENDER_SCALE)%Q in
  let clampedCamX := Qmax 0 (Qmin (inject_Z camX) maxCamX) in
  let clampedCamY := Qmax 0 (Qmin (inject_Z camY) maxCamY) in
  (clampedCamX, clampedCamY).

(** Body of the loops "Draw World" for one cell of an existing row. *)
Definition drawTile (biome : BiomeConfig) (row : Row) (y x : Z)
  : list CanvasOp :=
  let block := jsget row x in
  if bool_decide (block ≠ Some (tileId AIR)) then
    let tx := (inject_Z x * TILE_SIZE)%Q in
    let ty := (inject_Z y * TILE_SIZE)%Q in
    [ SetFillStyle (tileColor biome block);
      FillRect tx ty TILE_SIZE TILE_SIZE;
      SetFillStyle "rgba(0,0,0,0.1)";
      FillRect tx (ty + TILE_SIZE - 2)%Q TILE_SIZE 2;
      FillRect (tx + TILE_SIZE - 2)%Q ty 2 TILE_SIZE ]
  else [].

(** Region "Rendering": the calls made on the context. *)
Definition renderStep (cv : Canvas) (biome : BiomeConfig) (w : World)
    (p : PlayerState) : list CanvasOp :=
  let '(clampedCamX, clampedCamY) := camera cv p in
  let startCol := Qfloor (clampedCamX / TILE_SIZE) in
  let endCol :=
    startCol + Qceiling (canvasWidth cv / RENDER_SCALE / TILE_SIZE) + 1 in
  let startRow := Qfloor (clampedCamY / TILE_SIZE) in
  let endRow :=
    startRow + Qceiling (canvasHeight cv / RENDER_SCALE / TILE_SIZE) + 1 in
  let cursorX := (inject_Z (Qfloor (targetX p / TILE_SIZE)) * TILE_SIZE)%Q in
  let cursorY := (inject_Z (Qfloor (targetY p / TILE_SIZE)) * TILE_SIZE)%Q in
  [ SetFillStyle (skyColor biome);
    FillRect 0 0 (canvasWidth cv) (canvasHeight cv);
    Save;
    Scale RENDER_SCALE RENDER_SCALE;
    Translate (- clampedCamX)%Q (- clampedCamY)%Q ]
  ++ concat (map (fun y =>
       match rowAt w y with
       | None => []
       | Some row =>
           concat (map (drawTile biome row y)
                       (seqZ startCol (endCol - startCol)))
       end) (seqZ startRow (endRow - startRow)))
  ++ [ SetFillStyle "#FF0000";
       FillRect (pl_x p - pW / 2)%Q (pl_y p - pH)%Q pW pH;
       SetFillStyle "#FFCCAA";
       FillRect (pl_x p - pW / 2)%Q (pl_y p - pH)%Q pW (pH * 0.4)%Q;
       SetStrokeStyle "#FFFFFF";
       SetLineWidth 1;
       StrokeRect cursorX cursorY TILE_SIZE TILE_SIZE;
       Restore ].

(** The stages in sequence, following the system overview: physics and
    collision, then interaction, then rendering. *)
Definition pipeline (cv : Canvas) (biome : BiomeConfig) (now : Z)
    (inputs : InputState) (st : GameState) : Outcome :=
  let st1 :=
    {| world := world st;
       player := physicsStep biome inputs (world st) (player st);
       lastActionTime := lastActionTime st |} in
  match interactionStep now inputs st1 with
  | None => Threw st1
  | Some (st2, log) =>
      Frame st2 log (renderStep cv biome (world st2) (player st2))
  end.

(** *** [update], statement by statement

    Each [let] is one assignment of the source, in source order; a name
    with a prime is the same JavaScript variable after a later
    assignment. *)
Definition update (canvas : option Canvas) (biome : BiomeConfig) (now : Z)
    (inputs : InputState) (st : GameState) : Outcome :=
  match canvas with
  | None => NoCanvas
  | Some cv =>
    let p := player st in
    let w := world st in
    (* --- Physics --- horizontal *)
    let vx :=
      if in_left inputs then (-2)%Q
      else if in_right inputs then 2%Q
      else (pl_vx p * 0.8)%Q in
    let facing :=
      if in_left inputs then false
      else if in_right inputs then true
      else facingRight p in
    (* gravity, terminal velocity *)
    let vy := (pl_vy p + gravity biome)%Q in
    let vy' := Qmin vy 8 in
    (* potential new position *)
    let newX := (pl_x p + vx)%Q in
    let newY := (pl_y p + vy')%Q in
    let onGround := false in
    (* Y collision *)
    let '(onGround', newY', vy'') :=
      if checkCollision w (pl_x p) newY then
        if Qgtb vy' 0
        then (true,
              (inject_Z (Qfloor (newY / TILE_SIZE)) * TILE_SIZE)%Q, 0%Q)
        else (onGround,
              (inject_Z (Qceiling (newY / TILE_SIZE)) * TILE_SIZE + 0.1)%Q,
              0%Q)
      else (onGround, newY, vy') in
    let y := newY' in
    (* X collision *)
    let '(newX', vx') :=
      if checkCollision w newX y then (pl_x p, 0%Q) else (newX, vx) in
    let x := newX' in
    (* jump *)
    let vy''' := if in_up inputs && onGround' then (-6)%Q else vy'' in
    (* --- Actions (Mine/Place) --- *)
    let acted : option (World * BlockType * Z * list string) :=
      if (actionA inputs || actionB inputs)
         && (now - lastActionTime st >? 200)
      then
        let reach := (TILE_SIZE * 1.5)%Q in
        let tX := (x + (if facing then reach else - reach))%Q in
        let tY := (y - pH * 0.5)%Q in
        let gx := Qfloor (tX / TILE_SIZE) in
        let gy := Qfloor (tY / TILE_SIZE) in
        if (gx >=? 0) && (gx <? CHUNK_WIDTH)
           && (gy >=? 0) && (gy <? CHUNK_HEIGHT)
        then
          if actionA inputs then
            match rowAt w gy with
            | None => None
            | Some row =>
                if bool_decide (jsget row gx ≠ Some (tileId BEDROCK)) then
                  Some (<[Z.to_nat gy := jsset row (Z.to_nat gx) (tileId AIR)]> w,
                        selectedBlock p, now, [])
                else Some (w, selectedBlock p, lastActionTime st, [])
            end
          else if actionB inputs then
            match rowAt w gy with
            | None => None
            | Some row =>
                if bool_decide (jsget row gx = Some (tileId AIR)) then
                  let blockToPlace := selectedBlock p in
                  if negb (checkCollision w tX tY) then
                    Some (<[Z.to_nat gy :=
                              jsset row (Z.to_nat gx) (tileId blockToPlace)]> w,
                          selectedBlock p, now, [])
                  else Some (w, selectedBlock p, lastActionTime st, [])
                else
                  let idx := indexOf types (selectedBlock p) in
                  let sel :=
                    types !!! Z.to_nat
                      (Z.rem (idx + 1) (Z.of_nat (length types))) in
                  Some (w, sel, now,
                        [("Equipped: " +:+ blockName sel)%string])
            end
          else Some (w, selectedBlock p, lastActionTime st, [])
        else Some (w, selectedBlock p, lastActionTime st, [])
      else Some (w, selectedBlock p, lastActionTime st, []) in
    match acted with
    | None =>
        Threw {| world := w;
                 player := {| pl_x := x; pl_y := y; pl_vx := vx'; pl_vy := vy''';
                              facingRight := facing;
                              selectedBlock := selectedBlock p |};
                 lastActionTime := lastActionTime st |}
    | Some (w', sel, last, log) =>
        let p' := {| pl_x := x; pl_y := y; pl_vx := vx'; pl_vy := vy''';
                     facingRight := facing; selectedBlock := sel |} in
        (* --- Rendering --- *)
        let camX :=
          Qfloor (x - (canvasWidth cv / RENDER_SCALE) / 2) in
        let camY :=
          Qfloor (y - (canvasHeight cv / RENDER_SCALE) / 2) in
        let maxCamX :=
          (inject_Z CHUNK_WIDTH * TILE_SIZE
           - canvasWidth cv / RENDER_SCALE)%Q in
        let maxCamY :=
          (inject_Z CHUNK_HEIGHT * TILE_SIZE
           - canvasHeight cv / RENDER_SCALE)%Q in
        let clampedCamX := Qmax 0 (Qmin (inject_Z camX) maxCamX) in
        let clampedCamY := Qmax 0 (Qmin (inject_Z camY) maxCamY) in
        let startCol := Qfloor (clampedCamX / TILE_SIZE) in
        let endCol :=
          startCol
          + Qceiling (canvasWidth cv / RENDER_SCALE / TILE_SIZE) + 1 in
        let startRow := Qfloor (clampedCamY / TILE_SIZE) in
        let endRow :=
          startRow
          + Qceiling (canvasHeight cv / RENDER_SCALE / TILE_SIZE) + 1 in
        let reach := (TILE_SIZE * 1.5)%Q in
        let tX := (x + (if facing then reach else - reach))%Q in
        let tY := (y - pH * 0.5)%Q in
        let cursorX := (inject_Z (Qfloor (tX / TILE_SIZE)) * TILE_SIZE)%Q in
        let cursorY := (inject_Z (Qfloor (tY / TILE_SIZE)) * TILE_SIZE)%Q in
        Frame {| world := w'; player := p'; lastActionTime := last |} log
          ([ SetFillStyle (skyColor biome);
             FillRect 0 0 (canvasWidth cv) (canvasHeight cv);
             Save;
             Scale RENDER_SCALE RENDER_SCALE;
             Translate (- clampedCamX)%Q (- clampedCamY)%Q ]
           ++ concat (map (fun ry =>
                match rowAt w' ry with
                | None => []
                | Some row =>
                    concat (map (drawTile biome row ry)
                                (seqZ startCol (endCol - startCol)))
                end) (seqZ startRow (endRow - startRow)))
           ++ [ SetFillStyle "#FF0000";
                FillRect (x - pW / 2)%Q (y - pH)%Q pW pH;
                SetFillStyle "#FFCCAA";
                FillRect (x - pW / 2)%Q (y - pH)%Q pW (pH * 0.4)%Q;
                SetStrokeStyle "#FFFFFF";
                SetLineWidth 1;
                StrokeRect cursorX cursorY TILE_SIZE TILE_SIZE;
                Restore ])
    end
  end.

(** The world and the player that a call leaves in the refs. *)
Definition stateAfter (st : GameState) (o : Outcome) : GameState :=
  match o with
  | NoCanvas => st
  | Threw st' => st'
  | Frame st' _ _ => st'
  end.

(** The messages passed to [onLog] and the calls made on the context. *)
Definition frameLog (o : Outcome) : list string :=
  match o with
  | Frame _ log _ => log
  | _ => []
  end.

Definition frameOps (o : Outcome) : list CanvasOp :=
  match o with
  | Frame _ _ ops => ops
  | _ => []
  end.

(** * Properties *)

(** ** Comparisons and rounding *)

Lemma Qltb_lt (a b : Q) : Qltb a b = true ↔ (a < b)%Q.
Proof.
  unfold Qltb. rewrite Qlt_alt. destruct (a ?= b)%Q; split; congruence.
Qed.

Lemma Qltb_ge (a b : Q) : Qltb a b = false ↔ (b <= a)%Q.
Proof.
  rewrite <- not_true_iff_false, Qltb_lt. split.
  - apply Qnot_lt_le.
  - intros H1 H2. exact (Qlt_not_le _ _ H2 H1).
Qed.

Lemma Qgtb_gt (a b : Q) : Qgtb a b = true ↔ (b < a)%Q.
Proof. apply Qltb_lt. Qed.

Lemma Qgtb_le (a b : Q) : Qgtb a b = false ↔ (a <= b)%Q.
Proof. apply Qltb_ge. Qed.

(** ** The frame is the three stages in sequence *)

Lemma update_stages cv biome now inputs st :
  update (Some cv) biome now inputs st = pipeline cv biome now inputs st.
Proof.
  destruct st as [w p last], inputs as [l r u d a b].
  unfold update, pipeline, physicsStep, interactionStep, renderStep, camera,
    readCell, setCell, targetCell, targetX, targetY, inGrid.
  cbn [world player lastActionTime in_left in_right in_up in_down
       actionA actionB pl_x pl_y pl_vx pl_vy facingRight selectedBlock].
  set (vx1 := if l then _ else _).
  set (f1 := if l then false else _).
  assert (Hpair : (if l then ((-2)%Q, false)
                   else if r then (2%Q, true)
                   else ((pl_vx p * 0.8)%Q, facingRight p)) = (vx1, f1))
    by (subst vx1 f1; destruct l, r; reflexivity).
  rewrite Hpair; clear Hpair.
  generalize vx1 f1; clear vx1 f1; intros vx1 f1.
  set (vy1 := Qmin _ 8).
  destruct (checkCollision w (pl_x p) (pl_y p + vy1)) eqn:HY;
    [destruct (Qgtb vy1 0) eqn:Hv|];
    cbn [andb orb fst snd];
    (destruct (checkCollision w (pl_x p + vx1) _) eqn:HX;
     cbn [pl_x pl_y pl_vx pl_vy facingRight selectedBlock];
     (destruct ((a || b) && (now - last >? 200)) eqn:Hact; [|reflexivity]);
     (match goal with
      | |- context [?c1 && ?c2 && ?c3 && ?c4] =>
          destruct (c1 && c2 && c3 && c4) eqn:Hin; [|reflexivity]
      end);
     (destruct a; [|destruct b; [|reflexivity]]);
     (match goal with
      | |- context [rowAt w ?gy] =>
          destruct (rowAt w gy) eqn:Hrow; cbn; [|reflexivity]
      end);
     repeat case_bool_decide; try reflexivity; try contradiction;
     match goal with
     | |- context [checkCollision w ?a ?b] =>
         destruct (checkCollision w a b); reflexivity
     end).
Qed.

(** C10. A call of [update] on a mounted canvas is the physics/collision
    stage, then the interaction (mine/place) stage on its result, then the
    render stage on the result of that, each exactly once; when the
    interaction stage throws, the frame stops after physics.  [update]
    takes no random stream: world generation is not part of a frame. *)
Theorem update_is_stage_sequence cv biome now inputs st :
  update (Some cv) biome now inputs st =
    let afterPhysics :=
      {| world := world st;
         player := physicsStep biome inputs (world st) (player st);
         lastActionTime := lastActionTime st |} in
    match interactionStep now inputs afterPhysics with
    | Some (afterAction, log) =>
        Frame afterAction log
          (renderStep cv biome (world afterAction) (player afterAction))
    | None => Threw afterPhysics
    end.
Proof. rewrite update_stages. unfold pipeline. by repeat case_match. Qed.

(** ** Velocities *)

Lemma interactionStep_motion now inputs st st' log :
  interactionStep now inputs st = Some (st', log) →
  pl_x (player st') = pl_x (player st) ∧ pl_y (player st') = pl_y (player st)
  ∧ pl_vx (player st') = pl_vx (player st)
  ∧ pl_vy (player st') = pl_vy (player st)
  ∧ facingRight (player st') = facingRight (player st).
Proof.
  unfold interactionStep. intros H.
  repeat (case_match; simplify_option_eq); auto.
Qed.

Lemma stateAfter_update_motion cv biome now inputs st :
  let p1 := physicsStep biome inputs (world st) (player st) in
  let p' := player (stateAfter st (update (Some cv) biome now inputs st)) in
  pl_x p' = pl_x p1 ∧ pl_y p' = pl_y p1 ∧ pl_vx p' = pl_vx p1
  ∧ pl_vy p' = pl_vy p1 ∧ facingRight p' = facingRight p1.
Proof.
  cbv zeta. rewrite update_stages. unfold pipeline.
  destruct (interactionStep _ _ _) as [[st2 log]|] eqn:Hi; cbn; [|done].
  apply interactionStep_motion in Hi. exact Hi.
Qed.

(** ** Camera *)

Lemma clamp_bounds (c m : Q) :
  (0 <= m)%Q → (0 <= Qmax 0 (Qmin c m) <= m)%Q.
Proof.
  intros Hm. split; [apply Q.le_max_l|].
  apply Q.max_lub; [exact Hm | apply Q.le_min_r].
Qed.

Lemma camera_bounds (p : PlayerState) :
  (0 <= fst (camera screenCanvas p) <= 864)%Q
  ∧ (0 <= snd (camera screenCanvas p) <= 648)%Q.
Proof.
  unfold camera, screenCanvas; cbn [fst snd canvasWidth canvasHeight].
  split.
  - match goal with |- (_ <= Qmax 0 (Qmin ?c ?m) <= _)%Q =>
      destruct (clamp_bounds c m) as [H0 H1]; [by vm_compute|];
      split; [exact H0|];
      apply Qle_trans with m; [exact H1 | by vm_compute]
    end.
  - match goal with |- (_ <= Qmax 0 (Qmin ?c ?m) <= _)%Q =>
      destruct (clamp_bounds c m) as [H0 H1]; [by vm_compute|];
      split; [exact H0|];
      apply Qle_trans with m; [exact H1 | by vm_compute]
    end.
Qed.

Lemma renderStep_translate cv biome w p :
  renderStep cv biome w p !! 4%nat
  = Some (Translate (- fst (camera cv p))%Q (- snd (camera cv p))%Q).
Proof. unfold renderStep. destruct (camera cv p). reflexivity. Qed.

(** C9. In every frame drawn on the 320x240 canvas, the translation set
    before the tiles are drawn is the negated camera origin of the player
    position after the frame's move, and that origin satisfies
    0 <= camX <= 64*16 - 160 and 0 <= camY <= 48*16 - 120: the 160x120 view
    lies inside the world rectangle. *)
Theorem camera_clamped_to_world biome now inputs st :
  ∀ st' log ops,
    update (Some screenCanvas) biome now inputs st = Frame st' log ops →
    ∃ camX camY : Q,
      camera screenCanvas (player st') = (camX, camY)
      ∧ ops !! 4%nat = Some (Translate (- camX)%Q (- camY)%Q)
      ∧ (0 <= camX)%Q
      ∧ (camX <= inject_Z CHUNK_WIDTH * TILE_SIZE - 160)%Q
      ∧ (0 <= camY)%Q
      ∧ (camY <= inject_Z CHUNK_HEIGHT * TILE_SIZE - 120)%Q.
Proof.
  intros st' log ops. rewrite update_stages. unfold pipeline.
  destruct (interactionStep _ _ _) as [[st2 lg]|]; [|discriminate].
  intros [= <- <- <-].
  destruct (camera_bounds (player st2)) as [[? ?] [? ?]].
  exists (fst (camera screenCanvas (player st2))),
         (snd (camera screenCanvas (player st2))).
  split; [by destruct (camera _ _)|].
  split; [apply renderStep_translate|].
  repeat split; assumption.
Qed.

(** ** Sample worlds and inputs *)

(** Draws that never move the surface, never give ore and never grow a
    tree under [DEFAULT_BIOME]. *)
Definition calmDraws : nat → Q := fun _ => 0.5%Q.

(** The same, except that a tree of height 3 grows on column 20 (draws
    392 and 393 are the tree draws of that column). *)
Definition oneTreeDraws : nat → Q :=
  fun n => if ((n =? 392) || (n =? 393))%nat then 0%Q else 0.5%Q.

Definition meadow : World :=
  Eval vm_compute in
    default [] (fst <$> generateWorld DEFAULT_BIOME oneTreeDraws initialPlayer).

Lemma meadow_generated :
  fst <$> generateWorld DEFAULT_BIOME oneTreeDraws initialPlayer = Some meadow.
Proof. vm_compute. reflexivity. Qed.

(** Flat ground with its surface on row 24, one tree on column 20: trunk
    on rows 21..23, leaves on rows 20..21 of columns 19..21. *)
Lemma meadow_shape :
  cellAt meadow 24 21 = Some (tileId GRASS)
  ∧ cellAt meadow 23 21 = Some (tileId AIR)
  ∧ cellAt meadow 22 21 = Some (tileId AIR)
  ∧ cellAt meadow 21 21 = Some (tileId LEAVES)
  ∧ cellAt meadow 23 20 = Some (tileId WOOD)
  ∧ cellAt meadow 23 34 = Some (tileId AIR)
  ∧ cellAt meadow 24 34 = Some (tileId GRASS).
Proof. vm_compute. repeat split. Qed.

Definition noInput : InputState :=
  {| in_left := false; in_right := false; in_up := false; in_down := false;
     actionA := false; actionB := false |}.

Definition holdUp : InputState :=
  {| in_left := false; in_right := false; in_up := true; in_down := false;
     actionA := false; actionB := false |}.

Definition holdA : InputState :=
  {| in_left := false; in_right := false; in_up := false; in_down := false;
     actionA := true; actionB := false |}.

Definition holdB : InputState :=
  {| in_left := false; in_right := false; in_up := false; in_down := false;
     actionA := false; actionB := true |}.

(** Standing on the grass of column [col] of [meadow], facing right. *)
Definition standingAt (col : Z) : PlayerState :=
  {| pl_x := inject_Z col * 16 + 8; pl_y := 384; pl_vx := 0; pl_vy := 0;
     facingRight := true; selectedBlock := DIRT |}.

Definition meadowState (col : Z) : GameState :=
  {| world := meadow; player := standingAt col; lastActionTime := 0 |}.

(** ** The clock *)

Lemma interactionStep_clock now1 now2 inputs st :
  (now1 - lastActionTime st >? 200) = (now2 - lastActionTime st >? 200) →
  match interactionStep now1 inputs st, interactionStep now2 inputs st with
  | Some (s1, l1), Some (s2, l2) =>
      world s1 = world s2 ∧ player s1 = player s2 ∧ l1 = l2
  | None, None => True
  | _, _ => False
  end.
Proof.
  intros Hc. unfold interactionStep. rewrite Hc.
  destruct ((actionA inputs || actionB inputs) && _); [|done].
  destruct (targetCell (player st)) as [gy gx].
  destruct (inGrid gy gx); [|done].
  unfold readCell, setCell.
  destruct (actionA inputs); [|destruct (actionB inputs); [|done]];
    destruct (rowAt (world st) gy); cbn; try done;
    repeat case_bool_decide; try done;
    destruct (checkCollision _ _ _); cbn; done.
Qed.

(** C1 (as the claim states it, refuted).  Two runs of [update] from one
    and the same state (the player standing on column 32 of [meadow], B
    held, last action at time 0) that differ only in the value of
    [Date.now()]: at 100 ms the cell in front of the player (row 23, column 34) stays AIR, at
    1000 ms it receives the selected block. *)
Lemma update_depends_on_clock :
  cellAt (world (stateAfter (meadowState 32)
            (update (Some screenCanvas) DEFAULT_BIOME 100 holdB
               (meadowState 32)))) 23 34 = Some (tileId AIR)
  ∧ cellAt (world (stateAfter (meadowState 32)
            (update (Some screenCanvas) DEFAULT_BIOME 1000 holdB
               (meadowState 32)))) 23 34 = Some (tileId DIRT).
Proof. vm_compute. split; reflexivity. Qed.

(** C1 (amended).  Two runs of [update] from the same world, player,
    last-action time and inputs whose clock readings fall on the same side
    of the 200 ms action cooldown (equal readings in particular) leave the
    same world grid and the same player state. *)
Theorem update_deterministic_up_to_cooldown cv biome inputs st now1 now2 :
  (now1 - lastActionTime st >? 200) = (now2 - lastActionTime st >? 200) →
  world (stateAfter st (update cv biome now1 inputs st))
  = world (stateAfter st (update cv biome now2 inputs st))
  ∧ player (stateAfter st (update cv biome now1 inputs st))
    = player (stateAfter st (update cv biome now2 inputs st)).
Proof.
  intros Hc. destruct cv as [cv|]; [|done].
  rewrite !update_stages. unfold pipeline.
  set (st1 := {| world := _ |}).
  pose proof (interactionStep_clock now1 now2 inputs st1 Hc) as H.
  destruct (interactionStep now1 inputs st1) as [[s1 l1]|],
           (interactionStep now2 inputs st1) as [[s2 l2]|];
    cbn; try done.
  by destruct H as (? & ? & _).
Qed.

Lemma update_deterministic_up_to_cooldown_witness :
  world (stateAfter (meadowState 32)
           (update (Some screenCanvas) DEFAULT_BIOME 300 holdB (meadowState 32)))
  = world (stateAfter (meadowState 32)
           (update (Some screenCanvas) DEFAULT_BIOME 1000 holdB (meadowState 32)))
  ∧ player (stateAfter (meadowState 32)
           (update (Some screenCanvas) DEFAULT_BIOME 300 holdB (meadowState 32)))
    = player (stateAfter (meadowState 32)
           (update (Some screenCanvas) DEFAULT_BIOME 1000 holdB (meadowState 32))).
Proof.
  apply (update_deterministic_up_to_cooldown (Some screenCanvas) DEFAULT_BIOME
           holdB (meadowState 32) 300 1000).
  reflexivity.
Defined.

Lemma camera_clamped_to_world_witness :
  ∃ camX camY : Q,
    camera screenCanvas
      (player (stateAfter (meadowState 32)
         (update (Some screenCanvas) DEFAULT_BIOME 0 noInput (meadowState 32))))
    = (camX, camY)
    ∧ (0 <= camX)%Q ∧ (camX <= inject_Z CHUNK_WIDTH * TILE_SIZE - 160)%Q
    ∧ (0 <= camY)%Q ∧ (camY <= inject_Z CHUNK_HEIGHT * TILE_SIZE - 120)%Q.
Proof.
  destruct (update (Some screenCanvas) DEFAULT_BIOME 0 noInput (meadowState 32))
    as [|s|s l o] eqn:E; [discriminate E | discriminate E |].
  destruct (camera_clamped_to_world DEFAULT_BIOME 0 noInput (meadowState 32)
              s l o E) as (cx & cy & Hc & _ & H).
  exists cx, cy. split; [exact Hc | exact H].
Defined.

(** ** Reads after writes *)

Lemma jsget_nat (row : Row) (i : nat) :
  jsget row (Z.of_nat i) = mjoin (row !! i).
Proof.
  unfold jsget. destruct (Z.ltb_spec (Z.of_nat i) 0); [lia|].
  rewrite Nat2Z.id. by destruct (row !! i).
Qed.

Lemma jsget_neg (row : Row) (j : Z) : j < 0 → jsget row j = None.
Proof. intros. unfold jsget. by destruct (Z.ltb_spec j 0); [|lia]. Qed.

Lemma jsget_jsset_eq (row : Row) (i : nat) (v : Z) :
  jsget (jsset row i v) (Z.of_nat i) = Some v.
Proof.
  rewrite jsget_nat. unfold jsset.
  destruct (Nat.ltb_spec i (length row)).
  - by rewrite list_lookup_insert_eq.
  - rewrite lookup_app_r by lia.
    rewrite lookup_app_r by (rewrite length_replicate; lia).
    rewrite length_replicate.
    replace (i - length row - (i - length row))%nat with 0%nat by lia.
    reflexivity.
Qed.

Lemma jsget_jsset_ne (row : Row) (i : nat) (v : Z) (j : Z) :
  j ≠ Z.of_nat i → jsget (jsset row i v) j = jsget row j.
Proof.
  intros Hne. destruct (Z.ltb_spec j 0) as [Hneg|Hpos].
  { by rewrite !jsget_neg. }
  rewrite <- (Z2Nat.id j) by lia. rewrite !jsget_nat.
  assert (Z.to_nat j ≠ i) as Hn by lia. clear Hne.
  unfold jsset. destruct (Nat.ltb_spec i (length row)).
  - by rewrite list_lookup_insert_ne.
  - destruct (Nat.lt_ge_cases (Z.to_nat j) (length row)).
    + by rewrite lookup_app_l.
    + rewrite lookup_app_r by lia.
      rewrite (lookup_ge_None_2 row) by lia.
      destruct (Nat.lt_ge_cases (Z.to_nat j - length row) (i - length row)).
      * rewrite lookup_app_l by (rewrite length_replicate; lia).
        by rewrite lookup_replicate_2.
      * rewrite lookup_app_r by (rewrite length_replicate; lia).
        rewrite length_replicate.
        destruct (Z.to_nat j - length row - (i - length row))%nat eqn:E;
          [lia | done].
Qed.

Lemma rowAt_insert_eq (w : World) (y : Z) (row row' : Row) :
  rowAt w y = Some row →
  rowAt (<[Z.to_nat y := row']> w) y = Some row'.
Proof.
  unfold rowAt. destruct (y <? 0); [done|]. intros H.
  apply list_lookup_insert_eq. by eapply lookup_lt_Some.
Qed.

Lemma rowAt_insert_ne (w : World) (y r : Z) (row' : Row) :
  0 ≤ y → r ≠ y → rowAt (<[Z.to_nat y := row']> w) r = rowAt w r.
Proof.
  intros Hy Hne. unfold rowAt. destruct (Z.ltb_spec r 0); [done|].
  apply list_lookup_insert_ne. lia.
Qed.

Lemma rowAt_nonneg (w : World) (y : Z) (row : Row) :
  rowAt w y = Some row → 0 ≤ y.
Proof. unfold rowAt. destruct (Z.ltb_spec y 0); [done | lia]. Qed.

Lemma cellAt_setCell_eq (w w' : World) (y x v : Z) :
  0 ≤ x → setCell w y x v = Some w' → cellAt w' y x = Some v.
Proof.
  unfold setCell, cellAt. intros Hx.
  destruct (rowAt w y) as [row|] eqn:Hrow; [|done].
  intros [= <-]. erewrite rowAt_insert_eq by eassumption.
  rewrite <- (Z2Nat.id x) at 2 by lia. apply jsget_jsset_eq.
Qed.

Lemma cellAt_setCell_ne (w w' : World) (y x v r c : Z) :
  0 ≤ x → setCell w y x v = Some w' → (r, c) ≠ (y, x) →
  cellAt w' r c = cellAt w r c.
Proof.
  unfold setCell, cellAt. intros Hx.
  destruct (rowAt w y) as [row|] eqn:Hrow; [|done].
  intros [= <-] Hne. pose proof (rowAt_nonneg _ _ _ Hrow).
  destruct (decide (r = y)) as [->|Hr].
  - erewrite rowAt_insert_eq by eassumption. rewrite Hrow.
    apply jsget_jsset_ne. intros ->. apply Hne. f_equal. lia.
  - by rewrite rowAt_insert_ne.
Qed.

Lemma setCell_is_Some (w : World) (y x v : Z) :
  is_Some (rowAt w y) → is_Some (setCell w y x v).
Proof. unfold setCell. intros [row ->]. eauto. Qed.

(** ** Reach of an action *)

Lemma inGrid_spec gy gx :
  inGrid gy gx = true ↔
  0 ≤ gx < CHUNK_WIDTH ∧ 0 ≤ gy < CHUNK_HEIGHT.
Proof. unfold inGrid. rewrite !andb_true_iff. lia. Qed.

(** What the interaction stage can do to the world: nothing, or one
    write into the target cell, in the grid. *)
Lemma interactionStep_world now inputs st st' log :
  interactionStep now inputs st = Some (st', log) →
  world st' = world st
  ∨ ∃ gy gx v, targetCell (player st) = (gy, gx) ∧ inGrid gy gx = true
      ∧ setCell (world st) gy gx v = Some (world st').
Proof.
  unfold interactionStep.
  destruct ((actionA inputs || actionB inputs) && _); [|intros [= <- _]; auto].
  destruct (targetCell (player st)) as [gy gx] eqn:Ht.
  destruct (inGrid gy gx) eqn:Hin; [|intros [= <- _]; auto].
  destruct (actionA inputs); [|destruct (actionB inputs)].
  - destruct (readCell _ _ _); cbn; [|done].
    case_bool_decide; [|intros [= <- _]; auto].
    destruct (setCell _ _ _ _) as [w'|] eqn:Hs; cbn; [|done].
    intros [= <- _]. right. exists gy, gx, (tileId AIR). auto.
  - destruct (readCell _ _ _); cbn; [|done].
    case_bool_decide; [|intros [= <- _]; auto].
    destruct (checkCollision _ _ _); cbn; [intros [= <- _]; auto|].
    destruct (setCell _ _ _ _) as [w'|] eqn:Hs; cbn; [|done].
    intros [= <- _]. right.
    exists gy, gx, (tileId (selectedBlock (player st))). auto.
  - intros [= <- _]; auto.
Qed.


(** ** Placing *)

Definition nextSelected (b : BlockType) : BlockType :=
  types !!! Z.to_nat (Z.rem (indexOf types b + 1) (Z.of_nat (length types))).



Lemma readCell_cellAt (w : World) (y x : Z) (c : option Z) :
  readCell w y x = Some c → cellAt w y x = c.
Proof.
  unfold readCell, cellAt. destruct (rowAt w y); [|done]. by intros [= <-].
Qed.

Lemma physicsStep_selected biome inputs w p :
  selectedBlock (physicsStep biome inputs w p) = selectedBlock p.
Proof. unfold physicsStep. by destruct (in_left inputs), (in_right inputs). Qed.



(** ** Collision: tiles under a box *)

(** The tile index of a pixel coordinate. *)
Definition tileOf (q : Q) : Z := Qfloor (q / TILE_SIZE).

Lemma tile_index_le (a b : Z) :
  (inject_Z a * 16 < inject_Z b * 16 + 16)%Q → a ≤ b.
Proof.
  intros H. apply Z.lt_succ_r. rewrite Zlt_Qlt.
  unfold Z.succ. rewrite inject_Z_plus. change (inject_Z 1) with 1%Q. lra.
Qed.

Lemma existsb_seqZ_false (f : Z → bool) (m n : Z) :
  existsb f (seqZ m n) = false ↔ ∀ k, m ≤ k < m + n → f k = false.
Proof.
  rewrite <- not_true_iff_false, existsb_exists. split.
  - intros H k Hk. apply not_true_iff_false. intros Hf. apply H.
    exists k. split; [|done]. apply list_elem_of_In, elem_of_seqZ. lia.
  - intros H (k & Hin & Hf). apply list_elem_of_In, elem_of_seqZ in Hin.
    rewrite H in Hf by lia. done.
Qed.

(** [checkCollision] is false exactly when the sampled columns and the
    bottom row are inside the world and either the head is above row 0
    or every sampled tile is not solid. *)
Lemma checkCollision_false (w : World) (cx cy : Q) :
  checkCollision w cx cy = false ↔
  let left := tileOf (cx - pW / 2) in
  let right := tileOf (cx + pW / 2 - 0.1) in
  let top := tileOf (cy - pH) in
  let bottom := tileOf (cy - 0.1) in
  0 ≤ left ∧ right < CHUNK_WIDTH ∧ bottom < CHUNK_HEIGHT
  ∧ (top < 0 ∨ ∀ r c, top ≤ r ≤ bottom → left ≤ c ≤ right →
                      solidAt w r c = false).
Proof.
  unfold checkCollision. fold (tileOf (cx - pW / 2)).
  fold (tileOf (cx + pW / 2 - 0.1)). fold (tileOf (cy - pH)).
  fold (tileOf (cy - 0.1)). cbv zeta.
  set (l := tileOf (cx - pW / 2)). set (r := tileOf (cx + pW / 2 - 0.1)).
  set (t := tileOf (cy - pH)). set (b := tileOf (cy - 0.1)).
  destruct (Z.ltb_spec l 0); cbn [orb]; [split; [done | lia]|].
  destruct (Z.geb_spec r CHUNK_WIDTH); cbn [orb]; [split; [done | lia]|].
  destruct (Z.geb_spec b CHUNK_HEIGHT); cbn [orb]; [split; [done | lia]|].
  destruct (Z.ltb_spec t 0); [split; [intros _|done]; repeat split; lia|].
  rewrite existsb_seqZ_false. split.
  - intros Hall. repeat split; try lia. right. intros y x Hy Hx.
    specialize (Hall y ltac:(lia)). rewrite existsb_seqZ_false in Hall.
    apply Hall. lia.
  - intros (_ & _ & _ & [Ht|Hall]); [lia|].
    intros y Hy. apply existsb_seqZ_false. intros x Hx. apply Hall; lia.
Qed.

Lemma inject_Z_succ (k : Z) : (inject_Z (k + 1) == inject_Z k + 1)%Q.
Proof. rewrite inject_Z_plus. reflexivity. Qed.

(** *** The player box as a rectangle

    The claim's reading of the box: the rectangle of width [pW] and
    height [pH] whose bottom edge is centred on the feet point, and the
    tiles it meets with positive area. *)
Definition boxMeetsTile (x y : Q) (r c : Z) : Prop :=
  (x - pW / 2 < inject_Z (c + 1) * TILE_SIZE)%Q
  ∧ (inject_Z c * TILE_SIZE < x + pW / 2)%Q
  ∧ (y - pH < inject_Z (r + 1) * TILE_SIZE)%Q
  ∧ (inject_Z r * TILE_SIZE < y)%Q.

Definition tileNotAir (w : World) (r c : Z) : Prop :=
  ∃ v, cellAt w r c = Some v ∧ v ≠ tileId AIR.

Definition boxOverlapsTiles (w : World) (p : PlayerState) : Prop :=
  ∃ r c, boxMeetsTile (pl_x p) (pl_y p) r c ∧ tileNotAir w r c.

Definition boxInsideSides (p : PlayerState) : Prop :=
  (0 <= pl_x p - pW / 2)%Q
  ∧ (pl_x p + pW / 2 <= inject_Z CHUNK_WIDTH * TILE_SIZE)%Q.

(** One frame on the screen's canvas, keeping the state. *)
Definition runFrame (biome : BiomeConfig) (now : Z) (inputs : InputState)
    (st : GameState) : GameState :=
  stateAfter st (update (Some screenCanvas) biome now inputs st).

(** The player under the leaves of the tree of [meadow], two frames after
    jumping off the grass of column 21: feet at 378.5, rising at 5.5. *)
Definition risingUnderLeaves : GameState :=
  runFrame DEFAULT_BIOME 0 holdUp
    (runFrame DEFAULT_BIOME 0 holdUp (meadowState 21)).

(** C2 (as the claim states it, refuted).  In [risingUnderLeaves] the
    player box meets no non-AIR tile, lies between the world's sides, and
    the collision test is false.  The next physics/collision step moves
    the head into the leaves of row 21; the "Hit head" branch puts the
    feet at 24 * 16 + 0.1, inside the grass of row 24: the box then meets
    a non-AIR tile and the collision test is true. *)
Lemma head_bump_sinks_into_ground :
  let p := player risingUnderLeaves in
  let p' := physicsStep DEFAULT_BIOME holdUp meadow p in
  world risingUnderLeaves = meadow
  ∧ (pl_x p == 344 ∧ pl_y p == 378.5 ∧ pl_vy p == -5.5)%Q
  ∧ ¬ boxOverlapsTiles meadow p
  ∧ boxInsideSides p
  ∧ checkCollision meadow (pl_x p) (pl_y p) = false
  ∧ (pl_x p' == 344 ∧ pl_y p' == 384.1)%Q
  ∧ boxMeetsTile (pl_x p') (pl_y p') 24 21
  ∧ cellAt meadow 24 21 = Some (tileId GRASS)
  ∧ boxOverlapsTiles meadow p'
  ∧ checkCollision meadow (pl_x p') (pl_y p') = true.
Proof.
  cbv zeta.
  assert (boxMeetsTile
            (pl_x (physicsStep DEFAULT_BIOME holdUp meadow
                     (player risingUnderLeaves)))
            (pl_y (physicsStep DEFAULT_BIOME holdUp meadow
                     (player risingUnderLeaves))) 24 21) as Hmeet
    by (by vm_compute).
  split; [by vm_compute|]. split; [by vm_compute|].
  split.
  { intros (r & c & (H1 & H2 & H3 & H4) & (v & Hc & Hv)).
    assert (pl_x (player risingUnderLeaves) == 344)%Q as Ex by (by vm_compute).
    assert (pl_y (player risingUnderLeaves) == 378.5)%Q as Ey by (by vm_compute).
    rewrite Ex, Ey in *. clear Ex Ey.
    unfold pW, pH, TILE_SIZE in *.
    rewrite inject_Z_succ in H1, H3.
    unfold Qdiv in H1, H2. change (/ 2)%Q with (1 # 2)%Q in H1, H2.
    assert (21 ≤ c ≤ 21) as Hcb.
    { split; apply tile_index_le; change (inject_Z 21) with 21%Q; lra. }
    assert (22 ≤ r ≤ 23) as Hrb.
    { split; apply tile_index_le;
        [change (inject_Z 22) with 22%Q | change (inject_Z 23) with 23%Q];
        lra. }
    assert (c = 21) as -> by lia.
    assert (r = 22 ∨ r = 23) as [-> | ->] by lia;
      vm_compute in Hc; injection Hc as <-; by apply Hv. }
  split; [by vm_compute|]. split; [by vm_compute|].
  split; [by vm_compute|]. split; [exact Hmeet|].
  split; [by vm_compute|].
  split; [|by vm_compute].
  exists 24, 21. split; [exact Hmeet|].
  exists (tileId GRASS). split; [by vm_compute | done].
Qed.

(** ** The shape of the grid *)

(** A cell holds the id of one of the 8 block types. *)
Definition isTile (c : option Z) : Prop := ∃ b : BlockType, c = Some (tileId b).

(** 48 rows of 64 cells. *)
Definition gridDims (w : World) : Prop :=
  length w = Z.to_nat CHUNK_HEIGHT
  ∧ ∀ y row, rowAt w y = Some row → length row = Z.to_nat CHUNK_WIDTH.

(** 48 rows of 64 cells, each the id of a block type. *)
Definition gridShaped (w : World) : Prop :=
  gridDims w
  ∧ ∀ y x, 0 ≤ y < CHUNK_HEIGHT → 0 ≤ x < CHUNK_WIDTH → isTile (cellAt w y x).

Lemma gridDims_row (w : World) (y : Z) :
  gridDims w → 0 ≤ y < CHUNK_HEIGHT → is_Some (rowAt w y).
Proof.
  intros [Hlen _] Hy. unfold rowAt.
  destruct (Z.ltb_spec y 0); [lia|].
  apply lookup_lt_is_Some. unfold CHUNK_HEIGHT in *. lia.
Qed.

Lemma rowAt_range (w : World) (y : Z) (row : Row) :
  gridDims w → rowAt w y = Some row → 0 ≤ y < CHUNK_HEIGHT.
Proof.
  intros [Hlen _] H. pose proof (rowAt_nonneg _ _ _ H).
  unfold rowAt in H. destruct (y <? 0); [done|].
  apply lookup_lt_Some in H. unfold CHUNK_HEIGHT in *. lia.
Qed.

Lemma length_jsset_inside (row : Row) (i : nat) (v : Z) :
  (i < length row)%nat → length (jsset row i v) = length row.
Proof.
  intros H. unfold jsset. destruct (Nat.ltb_spec i (length row)); [|lia].
  apply length_insert.
Qed.

Lemma setCell_gridDims (w w' : World) (y x v : Z) :
  gridDims w → 0 ≤ x < CHUNK_WIDTH →
  setCell w y x v = Some w' → gridDims w'.
Proof.
  intros [Hlen Hrows] Hx. unfold setCell.
  destruct (rowAt w y) as [row|] eqn:Hrow; [|done]. intros [= <-].
  pose proof (rowAt_nonneg _ _ _ Hrow) as Hy.
  split; [by rewrite length_insert|].
  intros r row' Hr. destruct (decide (r = y)) as [->|Hne].
  - erewrite rowAt_insert_eq in Hr by eassumption. injection Hr as <-.
    rewrite length_jsset_inside; [by eapply Hrows|].
    rewrite (Hrows _ _ Hrow). unfold CHUNK_WIDTH in *. lia.
  - rewrite rowAt_insert_ne in Hr by done. by eapply Hrows.
Qed.

Lemma setCell_defined (w : World) (y x v : Z) :
  gridDims w → 0 ≤ y < CHUNK_HEIGHT → is_Some (setCell w y x v).
Proof. intros Hd Hy. by apply setCell_is_Some, gridDims_row. Qed.

Lemma readCell_defined (w : World) (y x : Z) :
  gridDims w → 0 ≤ y < CHUNK_HEIGHT →
  readCell w y x = Some (cellAt w y x).
Proof.
  intros Hd Hy. unfold readCell, cellAt.
  by destruct (gridDims_row w y Hd Hy) as [row ->].
Qed.

(** One guarded write, read back through [cellAt]. *)
Lemma setCell_spec (w : World) (y x v : Z) :
  gridDims w → 0 ≤ y < CHUNK_HEIGHT → 0 ≤ x < CHUNK_WIDTH →
  ∃ w', setCell w y x v = Some w' ∧ gridDims w'
    ∧ cellAt w' y x = Some v
    ∧ ∀ r c, (r, c) ≠ (y, x) → cellAt w' r c = cellAt w r c.
Proof.
  intros Hd Hy Hx. destruct (setCell_defined w y x v Hd Hy) as [w' Hs].
  exists w'. split; [done|]. split; [by eapply setCell_gridDims|].
  split; [eapply cellAt_setCell_eq; [lia | done]|].
  intros r c Hne. eapply cellAt_setCell_ne; [|done..]. lia.
Qed.

Lemma setCell_gridShaped (w w' : World) (y x : Z) (b : BlockType) :
  gridShaped w → 0 ≤ y < CHUNK_HEIGHT → 0 ≤ x < CHUNK_WIDTH →
  setCell w y x (tileId b) = Some w' → gridShaped w'.
Proof.
  intros [Hd Ht] Hy Hx Hs.
  destruct (setCell_spec w y x (tileId b) Hd Hy Hx)
    as (w'' & Hs' & Hd' & Heq & Hne).
  rewrite Hs in Hs'. injection Hs' as <-. split; [done|].
  intros r c Hr Hc. destruct (decide ((r, c) = (y, x))) as [[= -> ->]|Hn].
  - rewrite Heq. by exists b.
  - rewrite Hne by done. by apply Ht.
Qed.

(** The loop-invariant rule for [foldM] over a range. *)
Lemma foldM_seqZ_ind {T : Type} (f : Z → T → option T) (P : Z → T → Prop)
    (m n : Z) (s : T) :
  0 ≤ n → P m s →
  (∀ i t, m ≤ i < m + n → P i t → ∃ t', f i t = Some t' ∧ P (i + 1) t') →
  ∃ s', foldM f (seqZ m n) s = Some s' ∧ P (m + n) s'.
Proof.
  intros Hn. rewrite <- (Z2Nat.id n) by done.
  generalize (Z.to_nat n) as k. clear n Hn. intros k.
  revert m s. induction k as [|k IH]; intros m s HP Hstep.
  - exists s. cbn. rewrite Z.add_0_r. done.
  - rewrite seqZ_cons by lia. cbn [foldM].
    destruct (Hstep m s ltac:(lia) HP) as (t & -> & Ht).
    replace (Z.pred (Z.of_nat (S k))) with (Z.of_nat k) by lia.
    destruct (IH (Z.succ m) t) as (s' & Hs' & HP').
    + by replace (Z.succ m) with (m + 1) by lia.
    + intros i u Hi. apply Hstep. lia.
    + exists s'. split; [done|].
      by replace (m + Z.of_nat (S k)) with (Z.succ m + Z.of_nat k) by lia.
Qed.

Lemma freshWorld_replicate :
  freshWorld = replicate 48 (replicate 64 (Some (tileId AIR))).
Proof. vm_compute. reflexivity. Qed.

Lemma freshWorld_cells (y x : Z) :
  0 ≤ y < CHUNK_HEIGHT → 0 ≤ x < CHUNK_WIDTH →
  cellAt freshWorld y x = Some (tileId AIR).
Proof.
  intros Hy Hx. unfold cellAt, rowAt, jsget, CHUNK_HEIGHT, CHUNK_WIDTH in *.
  rewrite freshWorld_replicate.
  destruct (Z.ltb_spec y 0); [lia|]. destruct (Z.ltb_spec x 0); [lia|].
  rewrite lookup_replicate_2 by lia. rewrite lookup_replicate_2 by lia.
  reflexivity.
Qed.

Lemma freshWorld_dims : gridDims freshWorld.
Proof.
  split; [by vm_compute|]. intros y row. unfold rowAt.
  destruct (y <? 0); [done|]. rewrite freshWorld_replicate.
  intros [-> _]%lookup_replicate. reflexivity.
Qed.

(** ** The generator, loop by loop *)

(** What "Fill blocks" leaves in row [y] of a column whose surface is
    [h]. *)
Definition terrainOK (h y : Z) (c : option Z) : Prop :=
  if decide (y = CHUNK_HEIGHT - 1) then c = Some (tileId BEDROCK)
  else if decide (y = h) then c = Some (tileId GRASS)
  else if decide (h + 5 < y)
       then c = Some (tileId STONE) ∨ c = Some (tileId ORE)
  else c = Some (tileId DIRT).

Section GeneratorLoops.
Variable biome : BiomeConfig.
Variable random : nat → Q.

Lemma fillCell_spec (h x y : Z) (w : World) (n : nat) :
  gridDims w → 0 ≤ y < CHUNK_HEIGHT → 0 ≤ x < CHUNK_WIDTH →
  ∃ w' n', fillCell random h x y (w, n) = Some (w', n') ∧ gridDims w'
    ∧ terrainOK h y (cellAt w' y x)
    ∧ ∀ r c, (r, c) ≠ (y, x) → cellAt w' r c = cellAt w r c.
Proof.
  intros Hd Hy Hx. unfold fillCell, terrainOK.
  destruct (Z.eqb_spec y (CHUNK_HEIGHT - 1)) as [E1|E1];
    [|destruct (Z.eqb_spec y h) as [E2|E2];
      [|destruct (Z.gtb_spec y (h + 5)) as [E3|E3]]];
    repeat case_decide; try lia;
    match goal with
    | |- context [setCell w y x ?v] =>
        destruct (setCell_spec w y x v Hd Hy Hx)
          as (w' & -> & Hd' & Heq & Hne)
    end; cbn; eexists _, _; (split; [reflexivity|]);
    (split; [done|]); (split; [|done]); rewrite Heq; try done.
  destruct (Qgtb _ _); auto.
Qed.

Lemma fillColumn_spec (h x : Z) (w : World) (n : nat) :
  gridDims w → 0 ≤ h < CHUNK_HEIGHT → 0 ≤ x < CHUNK_WIDTH →
  ∃ w' n', foldM (fillCell random h x) (seqZ h (CHUNK_HEIGHT - h)) (w, n)
           = Some (w', n')
    ∧ gridDims w'
    ∧ (∀ r, h ≤ r < CHUNK_HEIGHT → terrainOK h r (cellAt w' r x))
    ∧ (∀ r c, c ≠ x ∨ r < h → cellAt w' r c = cellAt w r c).
Proof.
  intros Hd Hh Hx.
  destruct (foldM_seqZ_ind (fillCell random h x)
    (fun y '(w', _) =>
       gridDims w'
       ∧ (∀ r, h ≤ r < y → terrainOK h r (cellAt w' r x))
       ∧ (∀ r c, c ≠ x ∨ r < h ∨ y ≤ r → cellAt w' r c = cellAt w r c))
    h (CHUNK_HEIGHT - h) (w, n)) as ([w' n'] & Hf & Hd' & Hin & Hout).
  - lia.
  - split; [done|]. split; [intros; lia | done].
  - intros y [w1 n1] Hy (Hd1 & Hin1 & Hout1).
    destruct (fillCell_spec h x y w1 n1 Hd1 ltac:(lia) Hx)
      as (w2 & n2 & -> & Hd2 & Hcell & Hne).
    exists (w2, n2). split; [done|]. split; [done|]. split.
    + intros r Hr. destruct (decide (r = y)) as [->|Hry]; [done|].
      rewrite Hne by congruence. apply Hin1. lia.
    + intros r c Hrc. rewrite Hne; [apply Hout1; lia|].
      intros [= -> ->]. lia.
  - exists w', n'. split; [done|]. split; [done|]. split.
    + intros r Hr. apply Hin. lia.
    + intros r c Hrc. apply Hout. lia.
Qed.

Lemma growTrunk_loop_spec (h x th : Z) (w : World) :
  gridDims w → 0 ≤ th → th ≤ h → h ≤ CHUNK_HEIGHT → 0 ≤ x < CHUNK_WIDTH →
  ∃ w', foldM (growTrunk h x) (seqZ 1 th) w = Some w' ∧ gridDims w'
    ∧ (∀ r, h - th ≤ r < h → cellAt w' r x = Some (tileId WOOD))
    ∧ (∀ r c, c ≠ x ∨ r < h - th ∨ h ≤ r → cellAt w' r c = cellAt w r c).
Proof.
  intros Hd Hth Hh Hh' Hx.
  destruct (foldM_seqZ_ind (growTrunk h x)
    (fun i w' =>
       gridDims w'
       ∧ (∀ r, h - i < r < h → cellAt w' r x = Some (tileId WOOD))
       ∧ (∀ r c, c ≠ x ∨ r ≤ h - i ∨ h ≤ r → cellAt w' r c = cellAt w r c))
    1 th w) as (w' & Hf & Hd' & Hin & Hout).
  - done.
  - split; [done|]. split; [intros; lia | done].
  - intros i w1 Hi (Hd1 & Hin1 & Hout1). unfold growTrunk.
    destruct (Z.geb_spec (h - i) 0); [|lia].
    destruct (setCell_spec w1 (h - i) x (tileId WOOD) Hd1 ltac:(lia) Hx)
      as (w2 & -> & Hd2 & Heq & Hne).
    exists w2. split; [done|]. split; [done|]. split.
    + intros r Hr. destruct (decide (r = h - i)) as [->|Hry]; [done|].
      rewrite Hne by congruence. apply Hin1. lia.
    + intros r c Hrc. rewrite Hne; [apply Hout1; lia|].
      intros [= -> ->]. lia.
  - exists w'. split; [done|]. split; [done|]. split.
    + intros r Hr. apply Hin. lia.
    + intros r c Hrc. apply Hout. lia.
Qed.

(** A leaf replaces AIR and nothing else. *)
Definition leafOver (c : option Z) : option Z :=
  if bool_decide (c = Some (tileId AIR)) then Some (tileId LEAVES) else c.

Lemma growLeaf_spec (lx ly : Z) (w : World) :
  gridDims w → 0 ≤ ly < CHUNK_HEIGHT → 0 ≤ lx < CHUNK_WIDTH →
  ∃ w', growLeaf lx ly w = Some w' ∧ gridDims w'
    ∧ cellAt w' ly lx = leafOver (cellAt w ly lx)
    ∧ ∀ r c, (r, c) ≠ (ly, lx) → cellAt w' r c = cellAt w r c.
Proof.
  intros Hd Hy Hx. unfold growLeaf, leafOver.
  destruct (Z.geb_spec lx 0); [|lia].
  destruct (Z.ltb_spec lx CHUNK_WIDTH); [|lia].
  destruct (Z.geb_spec ly 0); [|lia]. cbn [andb].
  rewrite readCell_defined by done. cbn [mbind option_bind].
  case_bool_decide.
  - destruct (setCell_spec w ly lx (tileId LEAVES) Hd Hy Hx)
      as (w' & -> & Hd' & Heq & Hne).
    exists w'. done.
  - exists w. done.
Qed.

Lemma growLeaves_spec (h x th : Z) (w : World) :
  gridDims w → 1 ≤ h - th - 1 → h - th < CHUNK_HEIGHT →
  1 ≤ x < CHUNK_WIDTH - 1 →
  ∃ w',
    foldM (fun lx w => foldM (growLeaf lx) (seqZ (h - th - 1) 2) w)
      (seqZ (x - 1) 3) w = Some w'
    ∧ gridDims w'
    ∧ ∀ r c, cellAt w' r c =
        if bool_decide (x - 1 ≤ c ≤ x + 1 ∧ h - th - 1 ≤ r ≤ h - th)
        then leafOver (cellAt w r c) else cellAt w r c.
Proof.
  intros Hd Hr1 Hr2 Hx.
  destruct (foldM_seqZ_ind
    (fun lx w => foldM (growLeaf lx) (seqZ (h - th - 1) 2) w)
    (fun i w' =>
       gridDims w'
       ∧ ∀ r c, cellAt w' r c =
           if bool_decide (x - 1 ≤ c < i ∧ h - th - 1 ≤ r ≤ h - th)
           then leafOver (cellAt w r c) else cellAt w r c)
    (x - 1) 3 w) as (w' & Hf & Hd' & Hcells).
  - done.
  - split; [done|]. intros r c. case_bool_decide; [lia | done].
  - intros lx w1 Hlx (Hd1 & Hc1).
    destruct (foldM_seqZ_ind (growLeaf lx)
      (fun j w' =>
         gridDims w'
         ∧ ∀ r c, cellAt w' r c =
             if bool_decide (c = lx ∧ h - th - 1 ≤ r < j)
             then leafOver (cellAt w1 r c) else cellAt w1 r c)
      (h - th - 1) 2 w1) as (w2 & Hf2 & Hd2 & Hc2).
    + done.
    + split; [done|]. intros r c. case_bool_decide; [lia | done].
    + intros ly w3 Hly (Hd3 & Hc3).
      destruct (growLeaf_spec lx ly w3 Hd3 ltac:(lia) ltac:(lia))
        as (w4 & -> & Hd4 & Heq & Hne).
      exists w4. split; [done|]. split; [done|]. intros r c.
      destruct (decide ((r, c) = (ly, lx))) as [[= -> ->]|Hn].
      * rewrite Heq, Hc3. rewrite bool_decide_eq_false_2 by lia.
        by rewrite bool_decide_eq_true_2 by lia.
      * rewrite Hne, Hc3 by done.
        repeat case_bool_decide; try done; exfalso;
          destruct (decide (c = lx)), (decide (r = ly)); try lia; congruence.
    + exists w2. split; [done|]. split; [done|]. intros r c.
      rewrite Hc2, !Hc1.
      repeat case_bool_decide; try done; try lia.
  - exists w'. split; [done|]. split; [done|]. intros r c.
    rewrite Hcells. repeat case_bool_decide; try done; lia.
Qed.
End GeneratorLoops.

(** ** The layout of a generated world *)

(** What the generator decided for a column: the surface row and, when a
    tree was grown, its height. *)
Record ColumnInfo := {
  surface : Z;
  tree : option Z;
}.

Definition columnAt (cols : list ColumnInfo) (x : Z) : option ColumnInfo :=
  if x <? 0 then None else cols !! Z.to_nat x.

(** Row [y] of column [x] is part of the trunk of the tree of column [x]. *)
Definition trunkAt (cols : list ColumnInfo) (x y : Z) : bool :=
  match columnAt cols x with
  | Some {| surface := h; tree := Some th |} => (h - th <=? y) && (y <? h)
  | _ => false
  end.

(** Row [y] is one of the two leaf rows of the tree of column [x]. *)
Definition canopyFrom (cols : list ColumnInfo) (x y : Z) : bool :=
  match columnAt cols x with
  | Some {| surface := h; tree := Some th |} =>
      (h - th - 1 <=? y) && (y <=? h - th)
  | _ => false
  end.

(** Leaf rows reach one column to each side of the tree. *)
Definition canopyAt (cols : list ColumnInfo) (x y : Z) : bool :=
  canopyFrom cols (x - 1) y || canopyFrom cols x y
  || canopyFrom cols (x + 1) y.

(** The content of a cell above the surface. *)
Definition skyTile (cols : list ColumnInfo) (x y : Z) : BlockType :=
  if trunkAt cols x y then WOOD
  else if canopyAt cols x y then LEAVES
  else AIR.

(** The content of cell ([y], [x]) given the decisions taken so far; a
    column without decision has no terrain yet. *)
Definition layoutOK (cols : list ColumnInfo) (y x : Z) (c : option Z)
  : Prop :=
  match columnAt cols x with
  | Some ci =>
      if decide (surface ci ≤ y) then terrainOK (surface ci) y c
      else c = Some (tileId (skyTile cols x y))
  | None => c = Some (tileId (skyTile cols x y))
  end.

(** The decisions are those of a clamped walk of step at most 1 from the
    start height, with trees of height 3 to 5 on columns 6 to 58 only. *)
Definition colsOK (start : Z) (cols : list ColumnInfo) : Prop :=
  ∀ x ci, columnAt cols x = Some ci →
    10 ≤ surface ci ≤ CHUNK_HEIGHT - 5
    ∧ (∀ th, tree ci = Some th → 3 ≤ th ≤ 5 ∧ 5 < x < CHUNK_WIDTH - 5)
    ∧ match columnAt cols (x - 1) with
      | Some cj => -1 ≤ surface ci - surface cj ≤ 1
      | None => -1 ≤ surface ci - start ≤ 1
      end.

Lemma columnAt_None (cols : list ColumnInfo) (x : Z) :
  x < 0 ∨ Z.of_nat (length cols) ≤ x → columnAt cols x = None.
Proof.
  intros H. unfold columnAt. destruct (Z.ltb_spec x 0); [done|].
  apply lookup_ge_None_2. lia.
Qed.

Lemma columnAt_Some_range (cols : list ColumnInfo) (x : Z) ci :
  columnAt cols x = Some ci → 0 ≤ x < Z.of_nat (length cols).
Proof.
  unfold columnAt. destruct (Z.ltb_spec x 0) as [Hneg|Hpos]; [done|].
  intros Hl%lookup_lt_Some. lia.
Qed.

Lemma columnAt_app (cols : list ColumnInfo) (ck : ColumnInfo) (x : Z) :
  columnAt (cols ++ [ck]) x =
    if decide (x = Z.of_nat (length cols)) then Some ck else columnAt cols x.
Proof.
  unfold columnAt. case_decide as Hx.
  - subst x. destruct (Z.ltb_spec (Z.of_nat (length cols)) 0); [lia|].
    rewrite Nat2Z.id. rewrite lookup_app_r by lia.
    by rewrite Nat.sub_diag.
  - destruct (Z.ltb_spec x 0); [done|].
    destruct (Nat.lt_ge_cases (Z.to_nat x) (length cols)).
    + by rewrite lookup_app_l.
    + rewrite !lookup_ge_None_2; [done | lia |].
      rewrite length_app. cbn. lia.
Qed.

Lemma trunkAt_app cols ck x y :
  trunkAt (cols ++ [ck]) x y =
    if decide (x = Z.of_nat (length cols)) then
      match tree ck with
      | Some th => (surface ck - th <=? y) && (y <? surface ck)
      | None => false
      end
    else trunkAt cols x y.
Proof.
  unfold trunkAt. rewrite columnAt_app. case_decide; [|done].
  by destruct ck as [h [th|]].
Qed.

Lemma canopyFrom_app cols ck x y :
  canopyFrom (cols ++ [ck]) x y =
    if decide (x = Z.of_nat (length cols)) then
      match tree ck with
      | Some th => (surface ck - th - 1 <=? y) && (y <=? surface ck - th)
      | None => false
      end
    else canopyFrom cols x y.
Proof.
  unfold canopyFrom. rewrite columnAt_app. case_decide; [|done].
  by destruct ck as [h [th|]].
Qed.

Lemma trunkAt_outside cols x y :
  x < 0 ∨ Z.of_nat (length cols) ≤ x → trunkAt cols x y = false.
Proof. intros H. unfold trunkAt. by rewrite columnAt_None. Qed.

Lemma canopyFrom_outside cols x y :
  x < 0 ∨ Z.of_nat (length cols) ≤ x → canopyFrom cols x y = false.
Proof. intros H. unfold canopyFrom. by rewrite columnAt_None. Qed.

(** Adding a column without tree changes no sky tile. *)
Lemma skyTile_app_bare cols h x y :
  skyTile (cols ++ [{| surface := h; tree := None |}]) x y
  = skyTile cols x y.
Proof.
  unfold skyTile, canopyAt. rewrite trunkAt_app, !canopyFrom_app. cbn.
  repeat case_decide;
    rewrite ?(trunkAt_outside cols x), ?(canopyFrom_outside cols x),
      ?(canopyFrom_outside cols (x + 1)), ?(canopyFrom_outside cols (x - 1))
      by lia; done.
Qed.

Lemma colsOK_app start cols ck :
  colsOK start cols →
  10 ≤ surface ck ≤ CHUNK_HEIGHT - 5 →
  (∀ th, tree ck = Some th →
     3 ≤ th ≤ 5 ∧ 5 < Z.of_nat (length cols) < CHUNK_WIDTH - 5) →
  match columnAt cols (Z.of_nat (length cols) - 1) with
  | Some cj => -1 ≤ surface ck - surface cj ≤ 1
  | None => -1 ≤ surface ck - start ≤ 1
  end →
  colsOK start (cols ++ [ck]).
Proof.
  intros Hok Hs Ht Hprev x ci. rewrite columnAt_app.
  case_decide as Hx.
  - intros [= <-]. subst x. split; [done|]. split; [done|].
    rewrite columnAt_app. by case_decide; [lia|].
  - intros Hci. pose proof (columnAt_Some_range _ _ _ Hci).
    rewrite columnAt_app. case_decide; [lia|]. by apply Hok.
Qed.

(** A column without tree: only its terrain is new. *)
Lemma layout_extend_bare (cols : list ColumnInfo) (k h' : Z) (w w1 : World) :
  Z.of_nat (length cols) = k →
  (∀ y x, 0 ≤ y < CHUNK_HEIGHT → 0 ≤ x < CHUNK_WIDTH →
          layoutOK cols y x (cellAt w y x)) →
  (∀ r, h' ≤ r < CHUNK_HEIGHT → terrainOK h' r (cellAt w1 r k)) →
  (∀ r c, c ≠ k ∨ r < h' → cellAt w1 r c = cellAt w r c) →
  ∀ y x, 0 ≤ y < CHUNK_HEIGHT → 0 ≤ x < CHUNK_WIDTH →
         layoutOK (cols ++ [{| surface := h'; tree := None |}]) y x
           (cellAt w1 y x).
Proof.
  intros Hk Hold Hterr Hsame y x Hy Hx.
  specialize (Hold y x Hy Hx). unfold layoutOK in *.
  rewrite skyTile_app_bare, columnAt_app. rewrite Hk.
  case_decide as Hxk.
  - subst x. cbn [surface]. case_decide.
    + apply Hterr. lia.
    + rewrite Hsame by lia.
      by rewrite (columnAt_None cols k) in Hold by lia.
  - by rewrite Hsame by auto.
Qed.

Lemma leafOver_sky (cols : list ColumnInfo) (x y : Z) :
  leafOver (Some (tileId (skyTile cols x y)))
  = Some (tileId (if trunkAt cols x y then WOOD else LEAVES)).
Proof.
  unfold skyTile. destruct (trunkAt cols x y); [done|].
  by destruct (canopyAt cols x y).
Qed.

(** A column with a tree of height [th]: its terrain, its trunk, and
    leaves over the AIR of the two rows at the top of the trunk, on the
    column and its two neighbours. *)
Lemma layout_extend_tree (cols : list ColumnInfo) (k h' th : Z)
    (w w1 w2 w3 : World) :
  Z.of_nat (length cols) = k → 3 ≤ th →
  (∀ cj, columnAt cols (k - 1) = Some cj → h' - 1 ≤ surface cj) →
  (∀ y x, 0 ≤ y < CHUNK_HEIGHT → 0 ≤ x < CHUNK_WIDTH →
          layoutOK cols y x (cellAt w y x)) →
  (∀ r, h' ≤ r < CHUNK_HEIGHT → terrainOK h' r (cellAt w1 r k)) →
  (∀ r c, c ≠ k ∨ r < h' → cellAt w1 r c = cellAt w r c) →
  (∀ r, h' - th ≤ r < h' → cellAt w2 r k = Some (tileId WOOD)) →
  (∀ r c, c ≠ k ∨ r < h' - th ∨ h' ≤ r → cellAt w2 r c = cellAt w1 r c) →
  (∀ r c, cellAt w3 r c =
     if bool_decide (k - 1 ≤ c ≤ k + 1 ∧ h' - th - 1 ≤ r ≤ h' - th)
     then leafOver (cellAt w2 r c) else cellAt w2 r c) →
  ∀ y x, 0 ≤ y < CHUNK_HEIGHT → 0 ≤ x < CHUNK_WIDTH →
         layoutOK (cols ++ [{| surface := h'; tree := Some th |}]) y x
           (cellAt w3 y x).
Proof.
  intros Hk Hth Hprev Hold Hterr H1 Htrunk H2 H3 y x Hy Hx.
  specialize (Hold y x Hy Hx). unfold layoutOK in *.
  rewrite columnAt_app, Hk. rewrite H3.
  assert (∀ q, skyTile (cols ++ [{| surface := h'; tree := Some th |}]) x q =
    if (if decide (x = k) then (h' - th <=? q) && (q <? h')
        else trunkAt cols x q) then WOOD
    else if (if decide (x - 1 = k)
             then (h' - th - 1 <=? q) && (q <=? h' - th)
             else canopyFrom cols (x - 1) q)
            || (if decide (x = k)
                then (h' - th - 1 <=? q) && (q <=? h' - th)
                else canopyFrom cols x q)
            || (if decide (x + 1 = k)
                then (h' - th - 1 <=? q) && (q <=? h' - th)
                else canopyFrom cols (x + 1) q)
         then LEAVES else AIR) as Hsky.
  { intros q. unfold skyTile, canopyAt.
    by rewrite trunkAt_app, !canopyFrom_app, Hk. }
  rewrite Hsky. clear Hsky.
  destruct (decide (x = k)) as [->|Hxk].
  - (* the new column *)
    rewrite (columnAt_None cols k) in Hold by lia.
    cbn [surface]. destruct (decide (k - 1 = k)); [lia|].
    destruct (decide (k + 1 = k)); [lia|].
    rewrite (canopyFrom_outside cols (k + 1)) by lia.
    case_decide as Hsurf.
    + rewrite bool_decide_eq_false_2 by lia.
      rewrite H2 by lia. apply Hterr. lia.
    + destruct (decide (h' - th ≤ y)) as [Htr|Htr].
      * rewrite Htrunk by lia.
        destruct (Z.leb_spec (h' - th) y); [|lia].
        destruct (Z.ltb_spec y h'); [|lia]. cbn.
        by case_bool_decide.
      * destruct (Z.leb_spec (h' - th) y); [lia|]. cbn [andb].
        rewrite H2, H1 by lia. rewrite Hold.
        case_bool_decide as Hrows.
        -- rewrite leafOver_sky, (trunkAt_outside cols k) by lia.
           destruct (Z.leb_spec (h' - th - 1) y); [|lia].
           destruct (Z.leb_spec y (h' - th)); [|lia]. cbn.
           by rewrite orb_true_r.
        -- destruct (Z.leb_spec (h' - th - 1) y); [lia|]. cbn [andb].
           unfold skyTile, canopyAt.
           rewrite (trunkAt_outside cols k), (canopyFrom_outside cols k),
             (canopyFrom_outside cols (k + 1)) by lia.
           by rewrite !orb_false_r.
  - rewrite H2, H1 by auto.
    destruct (decide (x + 1 = k)) as [Hl|Hl];
      [|destruct (decide (x - 1 = k)) as [Hr|Hr]].
    + (* the left neighbour *)
      destruct (decide (x - 1 = k)); [lia|].
      destruct (columnAt cols x) as [cj|] eqn:Hcj.
      2:{ exfalso. unfold columnAt in Hcj.
          destruct (Z.ltb_spec x 0); [lia|].
          apply lookup_ge_None_1 in Hcj. lia. }
      replace x with (k - 1) in Hcj by lia.
      pose proof (Hprev cj Hcj) as Hge.
      case_decide as Hsurf.
      * by rewrite bool_decide_eq_false_2 by lia.
      * rewrite Hold. case_bool_decide as Hrows.
        -- rewrite leafOver_sky.
           destruct (trunkAt cols x y); [done|].
           destruct (Z.leb_spec (h' - th - 1) y); [|lia].
           destruct (Z.leb_spec y (h' - th)); [|lia]. cbn.
           by rewrite orb_true_r.
        -- unfold skyTile, canopyAt.
           rewrite (canopyFrom_outside cols (x + 1)) by lia.
           destruct (trunkAt cols x y); [done|].
           assert ((h' - th - 1 <=? y) && (y <=? h' - th) = false) as ->;
             [|done].
           apply andb_false_iff.
           destruct (Z.leb_spec (h' - th - 1) y); [|auto].
           destruct (Z.leb_spec y (h' - th)); [lia | auto].
    + (* the right neighbour *)
      rewrite (columnAt_None cols x) in Hold |- * by lia.
      rewrite Hold.
      rewrite (trunkAt_outside cols x) by lia.
      rewrite (canopyFrom_outside cols x), (canopyFrom_outside cols (x + 1))
        by lia.
      unfold skyTile, canopyAt.
      rewrite (trunkAt_outside cols x), (canopyFrom_outside cols x),
        (canopyFrom_outside cols (x + 1)), (canopyFrom_outside cols (x - 1))
        by lia.
      cbn. case_bool_decide as Hrows.
      * destruct (Z.leb_spec (h' - th - 1) y); [|lia].
        destruct (Z.leb_spec y (h' - th)); [|lia]. done.
      * assert ((h' - th - 1 <=? y) && (y <=? h' - th) = false) as ->;
          [|done].
        apply andb_false_iff.
        destruct (Z.leb_spec (h' - th - 1) y); [|auto].
        destruct (Z.leb_spec y (h' - th)); [lia | auto].
    + (* any other column *)
      rewrite bool_decide_eq_false_2 by lia. exact Hold.
Qed.

(** ** The generator: one column, then all of them *)

(** [Math.random()] returns a value in [0, 1). *)
Definition unitDraws (random : nat → Q) : Prop :=
  ∀ n, (0 <= random n)%Q ∧ (random n < 1)%Q.

(** A roughness of 0 never moves the surface and a density of 0 never
    grows a tree. *)
Definition quietOK (biome : BiomeConfig) (cols : list ColumnInfo) : Prop :=
  ((terrainRoughness biome <= 0)%Q →
     ∀ x ci, columnAt cols x = Some ci → surface ci = 24)
  ∧ ((treeDensity biome <= 0)%Q →
     ∀ x ci, columnAt cols x = Some ci → tree ci = None).

(** The state of the column loop before column [k]: running height [h]
    and world [w]. *)
Definition columnInv (biome : BiomeConfig) (k h : Z) (w : World) : Prop :=
  ∃ cols,
    gridDims w ∧ Z.of_nat (length cols) = k
    ∧ colsOK 24 cols ∧ quietOK biome cols
    ∧ 10 ≤ h ≤ CHUNK_HEIGHT - 5
    ∧ match columnAt cols (k - 1) with
      | Some cj => surface cj = h
      | None => h = 24
      end
    ∧ ∀ y x, 0 ≤ y < CHUNK_HEIGHT → 0 ≤ x < CHUNK_WIDTH →
             layoutOK cols y x (cellAt w y x).

Lemma treeHeight_range (r : Q) :
  (0 <= r)%Q → (r < 1)%Q → 3 ≤ 3 + Qfloor (r * 3) ≤ 5.
Proof.
  intros H0 H1.
  assert (0 ≤ Qfloor (r * 3)).
  { rewrite <- (Qfloor_Z 0). apply Qfloor_resp_le.
    change (inject_Z 0) with 0%Q. lra. }
  assert (Qfloor (r * 3) < 3); [|lia].
  rewrite Zlt_Qlt. apply Qle_lt_trans with (r * 3)%Q; [apply Qfloor_le|].
  change (inject_Z 3) with 3%Q. lra.
Qed.

Lemma quietOK_app biome cols ck :
  quietOK biome cols →
  ((terrainRoughness biome <= 0)%Q → surface ck = 24) →
  ((treeDensity biome <= 0)%Q → tree ck = None) →
  quietOK biome (cols ++ [ck]).
Proof.
  intros [Hr Ht] Hs Hn. split; intros Hz x ci; rewrite columnAt_app;
    case_decide; try (intros [= <-]; auto); eauto.
Qed.

Section ColumnStep.
Variable biome : BiomeConfig.
Variable random : nat → Q.
Hypothesis random_unit : unitDraws random.

(** The body of the column loop once the walk has produced
    [height1]. *)
Lemma genColumn_after_walk (k h height1 : Z) (w : World) (n1 : nat) :
  0 ≤ k < CHUNK_WIDTH → columnInv biome k h w →
  -1 ≤ height1 - h ≤ 1 →
  ((terrainRoughness biome <= 0)%Q → height1 = h) →
  ∃ h' w' n',
    (let height := Z.max 10 (Z.min (CHUNK_HEIGHT - 5) height1) in
     '(w1, n2) ← foldM (fillCell random height k)
                   (seqZ height (CHUNK_HEIGHT - height)) (w, n1);
     if (k >? 5) && (k <? CHUNK_WIDTH - 5) then
       c ← readCell w1 height k;
       if bool_decide (c = Some (tileId GRASS)) then
         if Qltb (random n2) (treeDensity biome) then
           let treeHeight := 3 + Qfloor (random (S n2) * 3) in
           w2 ← foldM (growTrunk height k) (seqZ 1 treeHeight) w1;
           w3 ← foldM (fun lx w =>
                   foldM (growLeaf lx)
                     (seqZ (height - treeHeight - 1) 2) w)
                 (seqZ (k - 1) 3) w2;
           Some (height, w3, S (S n2))
         else Some (height, w1, S n2)
       else Some (height, w1, n2)
     else Some (height, w1, n2)) = Some (h', w', n')
    ∧ columnInv biome (k + 1) h' w'.
Proof.
  intros Hk (cols & Hd & Hlen & Hok & Hq & Hh & Hlast & Hlay) Hstep Hflat.
  cbv zeta.
  set (h' := Z.max 10 (Z.min (CHUNK_HEIGHT - 5) height1)).
  assert (10 ≤ h' ≤ CHUNK_HEIGHT - 5) as Hh'
    by (unfold CHUNK_HEIGHT in *; lia).
  assert (-1 ≤ h' - h ≤ 1) as Hstep'
    by (unfold CHUNK_HEIGHT in *; lia).
  assert ((terrainRoughness biome <= 0)%Q → h' = 24) as Hflat'.
  { intros Hz. specialize (Hflat Hz). subst height1.
    destruct Hq as [Hq _]. specialize (Hq Hz (k - 1)).
    destruct (columnAt cols (k - 1)) as [cj|].
    - rewrite <- Hlast, (Hq cj eq_refl) in *. unfold h', CHUNK_HEIGHT. lia.
    - subst h. unfold h', CHUNK_HEIGHT. lia. }
  assert (match columnAt cols (Z.of_nat (length cols) - 1) with
          | Some cj => -1 ≤ h' - surface cj ≤ 1
          | None => -1 ≤ h' - 24 ≤ 1
          end) as Hlink.
  { rewrite Hlen. destruct (columnAt cols (k - 1)); lia. }
  destruct (fillColumn_spec random h' k w n1 Hd
              ltac:(unfold CHUNK_HEIGHT in *; lia) Hk)
    as (w1 & n2 & -> & Hd1 & Hterr & Hsame).
  cbn [mbind option_bind].
  (* the column without tree *)
  assert (columnInv biome (k + 1) h' w1) as Hbare.
  { exists (cols ++ [{| surface := h'; tree := None |}]).
    split; [done|]. split; [rewrite length_app; cbn; lia|].
    split; [by apply colsOK_app|].
    split; [by apply quietOK_app|]. split; [done|]. split.
    - rewrite columnAt_app, <- Hlen.
      by replace (Z.of_nat (length cols) + 1 - 1)
        with (Z.of_nat (length cols)) by lia; rewrite decide_True.
    - by eapply layout_extend_bare. }
  destruct ((k >? 5) && (k <? CHUNK_WIDTH - 5)) eqn:Hcond;
    [|by eexists _, _, _].
  apply andb_true_iff in Hcond as [Hk5 Hk59].
  apply Z.gtb_lt in Hk5. apply Z.ltb_lt in Hk59.
  rewrite readCell_defined by (done || unfold CHUNK_HEIGHT in *; lia).
  cbn [mbind option_bind].
  case_bool_decide; [|by eexists _, _, _].
  destruct (Qltb (random n2) (treeDensity biome)) eqn:Htree;
    [|by eexists _, _, _].
  apply Qltb_lt in Htree.
  set (th := 3 + Qfloor (random (S n2) * 3)).
  destruct (random_unit (S n2)) as [Hr0 Hr1].
  pose proof (treeHeight_range _ Hr0 Hr1) as Hth. fold th in Hth.
  destruct (growTrunk_loop_spec h' k th w1 Hd1)
    as (w2 & -> & Hd2 & Htrunk & Hrest); try (unfold CHUNK_HEIGHT in *; lia).
  cbn [mbind option_bind].
  destruct (growLeaves_spec h' k th w2 Hd2)
    as (w3 & -> & Hd3 & Hleaves);
    try (unfold CHUNK_HEIGHT, CHUNK_WIDTH in *; lia).
  cbn [mbind option_bind]. eexists _, _, _. split; [reflexivity|].
  exists (cols ++ [{| surface := h'; tree := Some th |}]).
  split; [done|]. split; [rewrite length_app; cbn; lia|].
  split.
  { apply colsOK_app; try done. cbn. intros ? [= <-]. lia. }
  split.
  { apply quietOK_app; try done. cbn. intros Hz. exfalso.
    destruct (random_unit n2). lra. }
  split; [done|]. split.
  - rewrite columnAt_app, <- Hlen.
    by replace (Z.of_nat (length cols) + 1 - 1)
      with (Z.of_nat (length cols)) by lia; rewrite decide_True.
  - eapply (layout_extend_tree cols k h' th w w1 w2 w3); try done; [lia|].
    intros cj Hcj. rewrite Hcj in Hlast. lia.
Qed.

Lemma genColumn_step (k h : Z) (w : World) (n : nat) :
  0 ≤ k < CHUNK_WIDTH → columnInv biome k h w →
  ∃ h' w' n', genColumn biome random k (h, w, n) = Some (h', w', n')
    ∧ columnInv biome (k + 1) h' w'.
Proof.
  intros Hk Hinv. unfold genColumn.
  destruct (Qltb (random n) (terrainRoughness biome)) eqn:Hr.
  - apply Qltb_lt in Hr.
    apply (genColumn_after_walk k h); try done.
    + destruct (Qgtb _ _); lia.
    + intros Hz. exfalso. destruct (random_unit n). lra.
  - apply (genColumn_after_walk k h); try done; lia.
Qed.
End ColumnStep.

(** The player after "Reset player". *)
Definition resetPlayer (p : PlayerState) : PlayerState :=
  {| pl_x := inject_Z CHUNK_WIDTH * TILE_SIZE * 0.5;
     pl_y := 0; pl_vx := 0; pl_vy := 0;
     facingRight := facingRight p;
     selectedBlock := selectedBlock p |}.

Lemma columnInv_start biome : columnInv biome 0 24 freshWorld.
Proof.
  exists []. split; [apply freshWorld_dims|]. split; [done|].
  assert (∀ x ci, columnAt [] x = Some ci → False) as Hnil.
  { intros x ci H%columnAt_Some_range. cbn in H. lia. }
  split; [intros x ci H; destruct (Hnil x ci H)|].
  split; [split; intros _ x ci H; destruct (Hnil x ci H)|].
  split; [by unfold CHUNK_HEIGHT|]. split; [done|].
  intros y x Hy Hx. unfold layoutOK.
  rewrite (columnAt_None [] x) by (cbn; lia).
  rewrite freshWorld_cells by done. unfold skyTile, canopyAt.
  by rewrite trunkAt_outside, !canopyFrom_outside by (cbn; lia).
Qed.

Lemma generateWorld_columns biome random (p : PlayerState) :
  unitDraws random →
  ∃ w h, generateWorld biome random p = Some (w, resetPlayer p)
    ∧ columnInv biome CHUNK_WIDTH h w.
Proof.
  intros Hunit. unfold generateWorld.
  destruct (foldM_seqZ_ind (genColumn biome random)
    (fun k '(h, w, _) => columnInv biome k h w)
    0 CHUNK_WIDTH (Qfloor (inject_Z CHUNK_HEIGHT / 2), freshWorld, 0%nat))
    as ([[h w] n] & -> & Hinv).
  - done.
  - apply columnInv_start.
  - intros k [[h w] n] Hk Hinv.
    destruct (genColumn_step biome random Hunit k h w n ltac:(lia) Hinv)
      as (h' & w' & n' & -> & Hinv').
    by exists (h', w', n').
  - cbn [mbind option_bind]. by exists w, h.
Qed.

Lemma terrainOK_isTile h y c : terrainOK h y c → isTile c.
Proof.
  unfold terrainOK. repeat case_decide.
  - intros ->. by exists BEDROCK.
  - intros ->. by exists GRASS.
  - intros [-> | ->]; [by exists STONE | by exists ORE].
  - intros ->. by exists DIRT.
Qed.

Lemma layoutOK_isTile cols y x c : layoutOK cols y x c → isTile c.
Proof.
  unfold layoutOK. destruct (columnAt cols x) as [ci|].
  - case_decide; [apply terrainOK_isTile|]. intros ->. by eexists.
  - intros ->. by eexists.
Qed.

(** After the last column every column has its decision. *)
Lemma columnInv_full biome h w :
  columnInv biome CHUNK_WIDTH h w →
  ∃ cols, gridDims w ∧ length cols = Z.to_nat CHUNK_WIDTH
    ∧ colsOK 24 cols ∧ quietOK biome cols
    ∧ ∀ y x, 0 ≤ y < CHUNK_HEIGHT → 0 ≤ x < CHUNK_WIDTH →
        ∃ ci, columnAt cols x = Some ci
          ∧ if decide (surface ci ≤ y) then terrainOK (surface ci) y (cellAt w y x)
            else cellAt w y x = Some (tileId (skyTile cols x y)).
Proof.
  intros (cols & Hd & Hlen & Hok & Hq & _ & _ & Hlay).
  exists cols. split; [done|]. split; [lia|]. split; [done|]. split; [done|].
  intros y x Hy Hx. specialize (Hlay y x Hy Hx). unfold layoutOK in Hlay.
  destruct (columnAt cols x) as [ci|] eqn:Hci; [by exists ci|].
  exfalso. unfold columnAt in Hci. destruct (Z.ltb_spec x 0); [lia|].
  apply lookup_ge_None_1 in Hci. lia.
Qed.

Lemma calmDraws_unit : unitDraws calmDraws.
Proof. intros n. split; by vm_compute. Qed.

Lemma oneTreeDraws_unit : unitDraws oneTreeDraws.
Proof.
  intros n. unfold oneTreeDraws.
  destruct ((n =? 392) || (n =? 393))%nat; split; by vm_compute.
Qed.

(** A biome of roughness 0 and tree density 0. *)
Definition flatBiome : BiomeConfig :=
  {| biomeName := "Flat"; skyColor := skyColor DEFAULT_BIOME;
     blockColors := blockColors DEFAULT_BIOME;
     gravity := 0.5; terrainRoughness := 0; treeDensity := 0 |}.

(** With draws in [0, 1) the generator throws nothing and returns 48
    rows of 64 cells, each holding the id of a block type, together with
    the player reset to the middle of the top edge. *)
Theorem generateWorld_makes_grid biome random (p : PlayerState) :
  unitDraws random →
  ∃ w, generateWorld biome random p = Some (w, resetPlayer p)
       ∧ gridShaped w.
Proof.
  intros Hunit.
  destruct (generateWorld_columns biome random p Hunit) as (w & h & Hg & Hinv).
  exists w. split; [done|].
  destruct Hinv as (cols & Hd & _ & _ & _ & _ & _ & Hlay).
  split; [done|]. intros y x Hy Hx. eapply layoutOK_isTile. by apply Hlay.
Qed.

Lemma generateWorld_makes_grid_witness :
  unitDraws oneTreeDraws
  ∧ ∃ w, generateWorld DEFAULT_BIOME oneTreeDraws initialPlayer
         = Some (w, resetPlayer initialPlayer)
         ∧ gridShaped w.
Proof.
  split; [exact oneTreeDraws_unit|].
  exact (generateWorld_makes_grid DEFAULT_BIOME oneTreeDraws initialPlayer
           oneTreeDraws_unit).
Defined.

(** The layout of a generated world.  There is a surface row per column,
    between 10 and 43, that starts within one row of 24 and moves by at
    most one row from a column to the next; trees have height 3 to 5 and
    stand on columns 6 to 58.  In column [x] with surface [h]: GRASS on
    row [h]; DIRT on the rows below it, up to 5 of them, short of the
    bottom row; STONE or ORE from row [h + 6] to row 46; BEDROCK on row
    47; above the surface, the WOOD of the column's own trunk, else LEAVES
    on the two rows at the top of the trunk of a tree standing on the
    column or on a neighbour, else AIR. *)
Theorem generateWorld_layout biome random (p : PlayerState) :
  unitDraws random →
  ∃ w cols,
    generateWorld biome random p = Some (w, resetPlayer p)
    ∧ length cols = 64%nat
    ∧ colsOK 24 cols
    ∧ ∀ x, 0 ≤ x < 64 →
        ∃ ci, columnAt cols x = Some ci
          ∧ cellAt w (surface ci) x = Some (tileId GRASS)
          ∧ (∀ y, surface ci < y ≤ surface ci + 5 → y < 47 →
                  cellAt w y x = Some (tileId DIRT))
          ∧ (∀ y, surface ci + 5 < y < 47 →
                  cellAt w y x = Some (tileId STONE)
                  ∨ cellAt w y x = Some (tileId ORE))
          ∧ cellAt w 47 x = Some (tileId BEDROCK)
          ∧ (∀ y, 0 ≤ y < surface ci →
                  cellAt w y x = Some (tileId (skyTile cols x y))).
Proof.
  intros Hunit.
  destruct (generateWorld_columns biome random p Hunit) as (w & h & Hg & Hinv).
  destruct (columnInv_full biome h w Hinv)
    as (cols & Hd & Hlen & Hok & _ & Hlay).
  exists w, cols. split; [done|]. split; [done|]. split; [done|].
  intros x Hx. unfold CHUNK_WIDTH, CHUNK_HEIGHT in *.
  destruct (Hlay 0 x ltac:(lia) Hx) as (ci & Hci & _).
  destruct (Hok x ci Hci) as (Hs & _). unfold CHUNK_HEIGHT in Hs.
  assert (∀ y, 0 ≤ y < 48 →
    if decide (surface ci ≤ y) then terrainOK (surface ci) y (cellAt w y x)
    else cellAt w y x = Some (tileId (skyTile cols x y))) as Hcol.
  { intros y Hy. destruct (Hlay y x Hy Hx) as (ci' & Hci' & H).
    rewrite Hci in Hci'. by injection Hci' as <-. }
  exists ci. split; [done|].
  repeat split.
  - specialize (Hcol (surface ci) ltac:(lia)). unfold terrainOK in Hcol.
    unfold CHUNK_HEIGHT in Hcol. by repeat case_decide; try lia.
  - intros y Hy1 Hy2. specialize (Hcol y ltac:(lia)).
    unfold terrainOK, CHUNK_HEIGHT in Hcol. by repeat case_decide; try lia.
  - intros y Hy. specialize (Hcol y ltac:(lia)).
    unfold terrainOK, CHUNK_HEIGHT in Hcol. by repeat case_decide; try lia.
  - specialize (Hcol 47 ltac:(lia)).
    unfold terrainOK, CHUNK_HEIGHT in Hcol. by repeat case_decide; try lia.
  - intros y Hy. specialize (Hcol y ltac:(lia)).
    by repeat case_decide; try lia.
Qed.

Lemma generateWorld_layout_witness :
  unitDraws oneTreeDraws
  ∧ ∃ w cols,
      generateWorld DEFAULT_BIOME oneTreeDraws initialPlayer
      = Some (w, resetPlayer initialPlayer)
      ∧ length cols = 64%nat ∧ colsOK 24 cols
      ∧ ∀ x, 0 ≤ x < 64 →
          ∃ ci, columnAt cols x = Some ci
            ∧ cellAt w (surface ci) x = Some (tileId GRASS)
            ∧ cellAt w 47 x = Some (tileId BEDROCK).
Proof.
  split; [exact oneTreeDraws_unit|].
  destruct (generateWorld_layout DEFAULT_BIOME oneTreeDraws initialPlayer
              oneTreeDraws_unit) as (w & cols & Hg & Hlen & Hok & Hcols).
  exists w, cols. split; [exact Hg|]. split; [exact Hlen|].
  split; [exact Hok|].
  intros x Hx. destruct (Hcols x Hx) as (ci & Hci & Hgrass & _ & _ & Hbed & _).
  exists ci. split; [exact Hci|]. split; [exact Hgrass | exact Hbed].
Defined.

Lemma skyTile_cases cols x y :
  skyTile cols x y = WOOD ∨ skyTile cols x y = LEAVES
  ∨ skyTile cols x y = AIR.
Proof.
  unfold skyTile. destruct (trunkAt cols x y); [auto|].
  destruct (canopyAt cols x y); auto.
Qed.

Lemma terrainOK_cases h y c :
  terrainOK h y c →
  (y = CHUNK_HEIGHT - 1 ∧ c = Some (tileId BEDROCK))
  ∨ (y ≠ CHUNK_HEIGHT - 1 ∧ y = h ∧ c = Some (tileId GRASS))
  ∨ (y ≠ CHUNK_HEIGHT - 1 ∧ y ≠ h
     ∧ (c = Some (tileId STONE) ∨ c = Some (tileId ORE)
        ∨ c = Some (tileId DIRT))).
Proof. unfold terrainOK. repeat case_decide; intuition auto. Qed.

(** In a generated world BEDROCK is the bottom row and nothing else. *)
Theorem generateWorld_bedrock_is_bottom_row biome random (p : PlayerState) :
  unitDraws random →
  ∃ w, generateWorld biome random p = Some (w, resetPlayer p)
    ∧ ∀ y x, 0 ≤ y < CHUNK_HEIGHT → 0 ≤ x < CHUNK_WIDTH →
        (cellAt w y x = Some (tileId BEDROCK) ↔ y = CHUNK_HEIGHT - 1).
Proof.
  intros Hunit.
  destruct (generateWorld_columns biome random p Hunit) as (w & h & Hg & Hinv).
  destruct (columnInv_full biome h w Hinv)
    as (cols & Hd & Hlen & Hok & _ & Hlay).
  exists w. split; [done|]. intros y x Hy Hx.
  destruct (Hlay y x Hy Hx) as (ci & Hci & H).
  destruct (Hok x ci Hci) as (Hs & _).
  case_decide as Hsurf.
  - apply terrainOK_cases in H as [[-> ->]|[(? & ? & ->)|(? & ? & Hc)]];
      [done | split; [done | lia] |].
    split; [|lia]. intros Hb. rewrite Hb in Hc.
    by destruct Hc as [Hc|[Hc|Hc]].
  - split; [|lia]. rewrite H.
    by destruct (skyTile_cases cols x y) as [-> | [-> | ->]].
Qed.

Lemma generateWorld_bedrock_is_bottom_row_witness :
  unitDraws calmDraws
  ∧ ∃ w, generateWorld DEFAULT_BIOME calmDraws initialPlayer
         = Some (w, resetPlayer initialPlayer)
      ∧ cellAt w 47 0 = Some (tileId BEDROCK).
Proof.
  split; [exact calmDraws_unit|].
  destruct (generateWorld_bedrock_is_bottom_row DEFAULT_BIOME calmDraws
              initialPlayer calmDraws_unit) as (w & Hg & Hb).
  exists w. split; [exact Hg|].
  refine (proj2 (Hb 47 0 _ _) eq_refl); unfold CHUNK_HEIGHT, CHUNK_WIDTH; lia.
Defined.

(** The four top rows of a generated world are AIR: no surface is above
    row 10 and no tree reaches more than 6 rows above its surface. *)
Theorem generateWorld_top_rows_air biome random (p : PlayerState) :
  unitDraws random →
  ∃ w, generateWorld biome random p = Some (w, resetPlayer p)
    ∧ ∀ y x, 0 ≤ y < 4 → 0 ≤ x < CHUNK_WIDTH →
        cellAt w y x = Some (tileId AIR).
Proof.
  intros Hunit.
  destruct (generateWorld_columns biome random p Hunit) as (w & h & Hg & Hinv).
  destruct (columnInv_full biome h w Hinv)
    as (cols & Hd & Hlen & Hok & _ & Hlay).
  exists w. split; [done|]. intros y x Hy Hx.
  destruct (Hlay y x ltac:(unfold CHUNK_HEIGHT; lia) Hx) as (ci & Hci & H).
  destruct (Hok x ci Hci) as (Hs & Ht & _).
  case_decide; [lia|]. rewrite H. f_equal. f_equal.
  assert (∀ x', canopyFrom cols x' y = false) as Hcan.
  { intros x'. unfold canopyFrom.
    destruct (columnAt cols x') as [[h' [th'|]]|] eqn:Hc'; [|done..].
    destruct (Hok x' _ Hc') as (Hs' & Ht' & _). cbn in Hs', Ht'.
    destruct (Ht' th' eq_refl) as [? _].
    apply andb_false_iff. left. apply Z.leb_gt. lia. }
  unfold skyTile, canopyAt. rewrite !Hcan. unfold trunkAt. rewrite Hci.
  destruct ci as [hc [th|]]; [|done]. cbn in *.
  destruct (Ht th eq_refl) as [? _].
  destruct (Z.leb_spec (hc - th) y); [lia | done].
Qed.

Lemma generateWorld_top_rows_air_witness :
  unitDraws oneTreeDraws
  ∧ ∃ w, generateWorld DEFAULT_BIOME oneTreeDraws initialPlayer
         = Some (w, resetPlayer initialPlayer)
      ∧ cellAt w 3 20 = Some (tileId AIR).
Proof.
  split; [exact oneTreeDraws_unit|].
  destruct (generateWorld_top_rows_air DEFAULT_BIOME oneTreeDraws
              initialPlayer oneTreeDraws_unit) as (w & Hg & Ha).
  exists w. split; [exact Hg|].
  refine (Ha 3 20 _ _); unfold CHUNK_WIDTH; lia.
Defined.

(** Roughness 0 gives flat ground: GRASS is row 24 of every column and
    nothing else.  Tree density 0 gives no tree: no cell is WOOD or
    LEAVES. *)
Theorem generateWorld_flat_and_bare biome random (p : PlayerState) :
  unitDraws random →
  ∃ w, generateWorld biome random p = Some (w, resetPlayer p)
    ∧ ((terrainRoughness biome <= 0)%Q →
       ∀ y x, 0 ≤ y < CHUNK_HEIGHT → 0 ≤ x < CHUNK_WIDTH →
         (cellAt w y x = Some (tileId GRASS) ↔ y = 24))
    ∧ ((treeDensity biome <= 0)%Q →
       ∀ y x, 0 ≤ y < CHUNK_HEIGHT → 0 ≤ x < CHUNK_WIDTH →
         cellAt w y x ≠ Some (tileId WOOD)
         ∧ cellAt w y x ≠ Some (tileId LEAVES)).
Proof.
  intros Hunit.
  destruct (generateWorld_columns biome random p Hunit) as (w & h & Hg & Hinv).
  destruct (columnInv_full biome h w Hinv)
    as (cols & Hd & Hlen & Hok & [Hflat Hbare] & Hlay).
  exists w. split; [done|]. split.
  - intros Hz y x Hy Hx. destruct (Hlay y x Hy Hx) as (ci & Hci & H).
    rewrite (Hflat Hz x ci Hci) in H. unfold CHUNK_HEIGHT in *.
    case_decide.
    + apply terrainOK_cases in H as [[-> ->]|[(? & Hy24 & ->)|(? & ? & Hc)]];
        [done | done |].
      split; [|lia]. intros Hb. rewrite Hb in Hc.
      by destruct Hc as [Hc|[Hc|Hc]].
    + split; [|lia]. rewrite H.
      by destruct (skyTile_cases cols x y) as [-> | [-> | ->]].
  - intros Hz y x Hy Hx. destruct (Hlay y x Hy Hx) as (ci & Hci & H).
    case_decide.
    + apply terrainOK_cases in H
        as [[_ ->]|[(_ & _ & ->)|(_ & _ & [->|[->| ->]])]]; done.
    + rewrite H.
      assert (∀ x', canopyFrom cols x' y = false) as Hcan.
      { intros x'. unfold canopyFrom.
        destruct (columnAt cols x') as [[h' [th'|]]|] eqn:Hc'; [|done..].
        by specialize (Hbare Hz x' _ Hc'). }
      unfold skyTile, canopyAt, trunkAt. rewrite !Hcan, Hci.
      specialize (Hbare Hz x ci Hci). destruct ci as [hc [th|]]; done.
Qed.

Lemma generateWorld_flat_and_bare_witness :
  unitDraws calmDraws
  ∧ (terrainRoughness flatBiome <= 0)%Q ∧ (treeDensity flatBiome <= 0)%Q
  ∧ ∃ w, generateWorld flatBiome calmDraws initialPlayer
         = Some (w, resetPlayer initialPlayer)
      ∧ cellAt w 24 7 = Some (tileId GRASS)
      ∧ cellAt w 23 7 ≠ Some (tileId WOOD).
Proof.
  split; [exact calmDraws_unit|].
  assert (terrainRoughness flatBiome <= 0)%Q as Hr by (by vm_compute).
  assert (treeDensity flatBiome <= 0)%Q as Ht by (by vm_compute).
  split; [exact Hr|]. split; [exact Ht|].
  destruct (generateWorld_flat_and_bare flatBiome calmDraws initialPlayer
              calmDraws_unit) as (w & Hg & Hflat & Hbare).
  exists w. split; [exact Hg|]. split.
  - refine (proj2 (Hflat Hr 24 7 _ _) eq_refl);
      unfold CHUNK_HEIGHT, CHUNK_WIDTH; lia.
  - refine (proj1 (Hbare Ht 23 7 _ _));
      unfold CHUNK_HEIGHT, CHUNK_WIDTH; lia.
Defined.

(** ** Frames on a grid *)

Lemma interactionStep_defined now inputs st :
  gridDims (world st) → is_Some (interactionStep now inputs st).
Proof.
  intros Hd. unfold interactionStep.
  destruct ((actionA inputs || actionB inputs) && _); [|done].
  destruct (targetCell (player st)) as [gy gx].
  destruct (inGrid gy gx) eqn:Hin; [|done].
  apply inGrid_spec in Hin as [Hx Hy].
  rewrite !readCell_defined by done.
  destruct (setCell_defined (world st) gy gx (tileId AIR) Hd Hy) as [wa Ha].
  destruct (setCell_defined (world st) gy gx
              (tileId (selectedBlock (player st))) Hd Hy) as [wb Hb].
  destruct (actionA inputs); [|destruct (actionB inputs); [|done]];
    cbn [mbind option_bind]; repeat case_bool_decide;
    rewrite ?Ha, ?Hb; try done.
  destruct (checkCollision _ _ _); cbn; rewrite ?Hb; done.
Qed.

(** What the interaction stage does to the selection and to the clock. *)
Lemma interactionStep_selection now inputs st st' log :
  interactionStep now inputs st = Some (st', log) →
  (selectedBlock (player st') = selectedBlock (player st)
   ∨ (actionA inputs = false
      ∧ world st' = world st
      ∧ selectedBlock (player st') = nextSelected (selectedBlock (player st))))
  ∧ (lastActionTime st' = lastActionTime st ∨ lastActionTime st' = now)
  ∧ (world st' ≠ world st
     ∨ selectedBlock (player st') ≠ selectedBlock (player st) →
     lastActionTime st' = now).
Proof.
  unfold interactionStep.
  destruct ((actionA inputs || actionB inputs) && _);
    [|intros [= <- _]; intuition].
  destruct (targetCell (player st)) as [gy gx].
  destruct (inGrid gy gx); [|intros [= <- _]; intuition].
  destruct (actionA inputs); [|destruct (actionB inputs)].
  - destruct (readCell _ _ _); cbn; [|done].
    case_bool_decide; [|intros [= <- _]; intuition].
    destruct (setCell _ _ _ _); cbn; [|done].
    intros [= <- _]. cbn. intuition.
  - destruct (readCell _ _ _); cbn; [|done].
    case_bool_decide.
    + destruct (checkCollision _ _ _); cbn; [intros [= <- _]; intuition|].
      destruct (setCell _ _ _ _); cbn; [|done].
      intros [= <- _]. cbn. intuition.
    + intros [= <- _]. cbn. intuition.
  - intros [= <- _]; intuition.
Qed.

Lemma nextSelected_in_types (b : BlockType) : nextSelected b ∈ types.
Proof. destruct b; vm_compute; repeat constructor. Qed.

(** On 48 rows of 64 cells a frame on a mounted canvas never throws: it
    runs to the end and draws. *)
Theorem update_draws_on_grid cv biome now inputs st :
  gridDims (world st) →
  ∃ st' log ops, update (Some cv) biome now inputs st = Frame st' log ops.
Proof.
  intros Hd. rewrite update_stages. unfold pipeline.
  set (st1 := {| world := world st |}).
  destruct (interactionStep_defined now inputs st1 Hd) as [[st2 lg] ->].
  by eexists _, _, _.
Qed.

Lemma meadow_dims : gridDims meadow.
Proof.
  destruct (generateWorld_columns DEFAULT_BIOME oneTreeDraws initialPlayer
              oneTreeDraws_unit) as (w & h & Hg & (cols & Hd & _)).
  pose proof meadow_generated as Hm. rewrite Hg in Hm. cbn in Hm.
  by injection Hm as <-.
Qed.

Lemma update_draws_on_grid_witness :
  gridDims (world (meadowState 32))
  ∧ ∃ st' log ops,
      update (Some screenCanvas) DEFAULT_BIOME 1000 holdA (meadowState 32)
      = Frame st' log ops.
Proof.
  split; [exact meadow_dims|].
  exact (update_draws_on_grid screenCanvas DEFAULT_BIOME 1000 holdA
           (meadowState 32) meadow_dims).
Defined.

(** Without the row of the target cell (the empty array that [worldRef]
    holds before the first generation, for one) an action that fires on an
    in-grid target throws: the frame stops after the player has moved,
    nothing is drawn and no further frame is requested. *)
Theorem update_throws_without_row cv biome now inputs st :
  let p1 := physicsStep biome inputs (world st) (player st) in
  actionA inputs || actionB inputs = true →
  now - lastActionTime st > 200 →
  inGrid (fst (targetCell p1)) (snd (targetCell p1)) = true →
  rowAt (world st) (fst (targetCell p1)) = None →
  update (Some cv) biome now inputs st
  = Threw {| world := world st; player := p1;
             lastActionTime := lastActionTime st |}.
Proof.
  cbv zeta. intros Hact Hnow Hin Hrow.
  rewrite update_stages. unfold pipeline, interactionStep.
  cbn [world player lastActionTime]. rewrite Hact.
  destruct (Z.gtb_spec (now - lastActionTime st) 200); [|lia].
  cbn [andb]. destruct (targetCell _) as [gy gx]. cbn [fst snd] in *.
  rewrite Hin. unfold readCell. rewrite Hrow.
  by destruct (actionA inputs), (actionB inputs).
Qed.

(** An empty world, as [worldRef] holds it before the first generation,
    with a player 100 pixels below the top edge. *)
Definition ungenerated : GameState :=
  {| world := [];
     player := {| pl_x := 100; pl_y := 100; pl_vx := 0; pl_vy := 0;
                  facingRight := true; selectedBlock := DIRT |};
     lastActionTime := 0 |}.

Lemma update_throws_without_row_witness :
  update (Some screenCanvas) DEFAULT_BIOME 1000 holdA ungenerated
  = Threw {| world := [];
             player := physicsStep DEFAULT_BIOME holdA [] (player ungenerated);
             lastActionTime := 0 |}.
Proof.
  apply (update_throws_without_row screenCanvas DEFAULT_BIOME 1000 holdA
           ungenerated).
  - reflexivity.
  - reflexivity.
  - vm_compute. reflexivity.
  - vm_compute. reflexivity.
Defined.

(** ** What a frame keeps *)

(** The world after the interaction stage, cell by cell. *)
Lemma interactionStep_cells now inputs st st' log :
  interactionStep now inputs st = Some (st', log) →
  ∀ r c, cellAt (world st') r c = cellAt (world st) r c
       ∨ (cellAt (world st) r c ≠ Some (tileId BEDROCK)
          ∧ cellAt (world st') r c = Some (tileId AIR)
          ∧ inGrid r c = true)
       ∨ (actionA inputs = false
          ∧ cellAt (world st) r c = Some (tileId AIR)
          ∧ cellAt (world st') r c
            = Some (tileId (selectedBlock (player st)))
          ∧ inGrid r c = true).
Proof.
  unfold interactionStep.
  destruct ((actionA inputs || actionB inputs) && _);
    [|intros [= <- _]; auto].
  destruct (targetCell (player st)) as [gy gx].
  destruct (inGrid gy gx) eqn:Hin; [|intros [= <- _]; auto].
  apply inGrid_spec in Hin as Hgrid.
  destruct (actionA inputs); [|destruct (actionB inputs)];
    [| |intros [= <- _]; auto].
  - destruct (readCell _ _ _) as [c0|] eqn:Hread; cbn; [|done].
    apply readCell_cellAt in Hread.
    case_bool_decide as Hb; [|intros [= <- _]; auto].
    destruct (setCell _ _ _ _) as [w'|] eqn:Hs; cbn; [|done].
    intros [= <- _] r c. cbn.
    destruct (decide ((r, c) = (gy, gx))) as [[= -> ->]|Hne].
    + right. left. split; [congruence|]. split; [|done].
      eapply cellAt_setCell_eq; [|done]. lia.
    + left. eapply cellAt_setCell_ne; [|done..]. lia.
  - destruct (readCell _ _ _) as [c0|] eqn:Hread; cbn; [|done].
    apply readCell_cellAt in Hread.
    case_bool_decide as Hb; [|intros [= <- _]; auto].
    destruct (checkCollision _ _ _); cbn; [intros [= <- _]; auto|].
    destruct (setCell _ _ _ _) as [w'|] eqn:Hs; cbn; [|done].
    intros [= <- _] r c. cbn.
    destruct (decide ((r, c) = (gy, gx))) as [[= -> ->]|Hne].
    + right. right. split; [done|]. split; [congruence|]. split; [|done].
      eapply cellAt_setCell_eq; [|done]. lia.
    + left. eapply cellAt_setCell_ne; [|done..]. lia.
Qed.

Lemma interactionStep_dims now inputs st st' log :
  interactionStep now inputs st = Some (st', log) →
  gridDims (world st) → gridDims (world st').
Proof.
  intros Hi Hd.
  destruct (interactionStep_world _ _ _ _ _ Hi)
    as [->|(gy & gx & v & _ & Hin & Hset)]; [done|].
  apply inGrid_spec in Hin as [Hx Hy]. by eapply setCell_gridDims.
Qed.

(** The world, the player and the clock after any call of [update], seen
    through the stages. *)
Lemma stateAfter_update_cases cv biome now inputs st :
  let st1 := {| world := world st;
                player := physicsStep biome inputs (world st) (player st);
                lastActionTime := lastActionTime st |} in
  stateAfter st (update cv biome now inputs st) = st
  ∨ stateAfter st (update cv biome now inputs st) = st1
  ∨ ∃ log, interactionStep now inputs st1
           = Some (stateAfter st (update cv biome now inputs st), log).
Proof.
  cbv zeta. destruct cv as [cv|]; [|by left].
  rewrite update_stages. unfold pipeline.
  destruct (interactionStep _ _ _) as [[st2 lg]|] eqn:Hi; cbn.
  - right. right. by exists lg.
  - right. by left.
Qed.

(** A frame never removes BEDROCK: a cell that holds BEDROCK before any
    call of [update] holds it afterwards (mining skips it, placing writes
    into AIR only). *)
Theorem update_keeps_bedrock cv biome now inputs st (r c : Z) :
  cellAt (world st) r c = Some (tileId BEDROCK) →
  cellAt (world (stateAfter st (update cv biome now inputs st))) r c
  = Some (tileId BEDROCK).
Proof.
  intros Hb.
  destruct (stateAfter_update_cases cv biome now inputs st)
    as [-> | [-> | [lg Hi]]]; [done | done |].
  destruct (interactionStep_cells _ _ _ _ _ Hi r c)
    as [-> | [(Hn & _) | (_ & Ha & _)]]; cbn in *; [done | done |].
  rewrite Hb in Ha. done.
Qed.

Lemma update_keeps_bedrock_witness :
  cellAt (world (meadowState 32)) 47 34 = Some (tileId BEDROCK)
  ∧ cellAt (world (stateAfter (meadowState 32)
              (update (Some screenCanvas) DEFAULT_BIOME 1000 holdA
                 (meadowState 32)))) 47 34
    = Some (tileId BEDROCK).
Proof.
  assert (cellAt (world (meadowState 32)) 47 34 = Some (tileId BEDROCK))
    as H by (vm_compute; reflexivity).
  split; [exact H|].
  exact (update_keeps_bedrock (Some screenCanvas) DEFAULT_BIOME 1000 holdA
           (meadowState 32) 47 34 H).
Defined.

(** *** States the running game can be in *)

(** The world is generated at mount and again whenever the biome
    changes; between generations [update] runs frame after frame. *)
Inductive reachable : GameState → Prop :=
  | reach_mount biome random w p :
      unitDraws random →
      generateWorld biome random initialPlayer = Some (w, p) →
      reachable {| world := w; player := p; lastActionTime := 0 |}
  | reach_biome st biome random w p :
      reachable st → unitDraws random →
      generateWorld biome random (player st) = Some (w, p) →
      reachable {| world := w; player := p;
                   lastActionTime := lastActionTime st |}
  | reach_frame st cv biome now inputs :
      reachable st →
      reachable (stateAfter st (update cv biome now inputs st)).

(** The sampled columns of the player box are inside the world. *)
Definition insideSides (p : PlayerState) : Prop :=
  0 ≤ tileOf (pl_x p - pW / 2)
  ∧ tileOf (pl_x p + pW / 2 - 0.1) < CHUNK_WIDTH.

Definition bedrockFloor (w : World) : Prop :=
  ∀ y x, 0 ≤ y < CHUNK_HEIGHT → 0 ≤ x < CHUNK_WIDTH →
    (cellAt w y x = Some (tileId BEDROCK) ↔ y = CHUNK_HEIGHT - 1).

Record stateOK (st : GameState) : Prop := {
  ok_grid : gridShaped (world st);
  ok_floor : bedrockFloor (world st);
  ok_selected : selectedBlock (player st) ∈ types;
  ok_sides : insideSides (player st);
}.

Lemma physicsStep_insideSides biome inputs w p :
  insideSides p → insideSides (physicsStep biome inputs w p).
Proof.
  intros Hin. unfold insideSides, physicsStep.
  destruct (in_left inputs), (in_right inputs); cbn [pl_x];
    match goal with
    | |- context [if checkCollision w ?a ?b then _ else _] =>
        destruct (checkCollision w a b) eqn:HX; [exact Hin|];
        apply checkCollision_false in HX; cbv zeta in HX; tauto
    end.
Qed.

Lemma resetPlayer_insideSides p : insideSides (resetPlayer p).
Proof. split; by vm_compute. Qed.

Lemma stateOK_generated biome random p0 w p :
  unitDraws random → selectedBlock p0 ∈ types →
  generateWorld biome random p0 = Some (w, p) →
  stateOK {| world := w; player := p; lastActionTime := 0 |}
  ∧ p = resetPlayer p0.
Proof.
  intros Hunit Hsel Hg.
  destruct (generateWorld_columns biome random p0 Hunit)
    as (w' & h & Hg' & Hinv).
  rewrite Hg in Hg'. injection Hg' as <- ->. split; [|done].
  destruct (columnInv_full biome h w Hinv)
    as (cols & Hd & Hlen & Hok & _ & Hlay).
  split; cbn.
  - split; [done|]. intros y x Hy Hx.
    destruct (Hlay y x Hy Hx) as (ci & _ & H).
    case_decide; [by eapply terrainOK_isTile|]. rewrite H. by eexists.
  - intros y x Hy Hx. destruct (Hlay y x Hy Hx) as (ci & Hci & H).
    destruct (Hok x ci Hci) as (Hs & _).
    case_decide as Hsurf.
    + apply terrainOK_cases in H as [[-> ->]|[(? & ? & ->)|(? & ? & Hc)]];
        [done | split; [done | lia] |].
      split; [|lia]. intros Hb. rewrite Hb in Hc.
      by destruct Hc as [Hc|[Hc|Hc]].
    + split; [|lia]. rewrite H.
      by destruct (skyTile_cases cols x y) as [-> | [-> | ->]].
  - done.
  - apply resetPlayer_insideSides.
Qed.

Lemma stateOK_interaction now inputs st st' log :
  interactionStep now inputs st = Some (st', log) →
  stateOK st → stateOK st'.
Proof.
  intros Hi [[Hd Ht] Hf Hs Hside].
  pose proof (interactionStep_motion _ _ _ _ _ Hi) as (Hx & _).
  pose proof (interactionStep_cells _ _ _ _ _ Hi) as Hcells.
  assert (types_tiles : ∀ b, b ∈ types → tileId b ≠ tileId BEDROCK).
  { intros b Hb Heq. destruct b; try done. unfold types in Hb.
    repeat (apply elem_of_cons in Hb as [Hb|Hb]; [done|]).
    by apply elem_of_nil in Hb. }
  split.
  - split; [by eapply interactionStep_dims|]. intros y x Hy Hx'.
    destruct (Hcells y x) as [-> | [(_ & -> & _) | (_ & _ & -> & _)]];
      [by apply Ht | by exists AIR | by eexists].
  - intros y x Hy Hx'. specialize (Hf y x Hy Hx').
    destruct (Hcells y x) as [-> | [(Hn & -> & _) | (_ & Ha & -> & _)]];
      [done | |].
    + split; [done|]. intros Hy47. by apply Hf in Hy47.
    + split.
      * intros [= Hb]. by apply types_tiles in Hb.
      * intros Hy47. apply Hf in Hy47. by rewrite Hy47 in Ha.
  - destruct (interactionStep_selection _ _ _ _ _ Hi)
      as ([-> | (_ & _ & ->)] & _); [done | apply nextSelected_in_types].
  - unfold insideSides. by rewrite Hx.
Qed.

Lemma stateOK_update cv biome now inputs st :
  stateOK st → stateOK (stateAfter st (update cv biome now inputs st)).
Proof.
  intros Hok.
  assert (stateOK {| world := world st;
                     player := physicsStep biome inputs (world st) (player st);
                     lastActionTime := lastActionTime st |}) as Hok1.
  { destruct Hok as [Hg Hf Hs Hside]. split; cbn; try done.
    - by rewrite physicsStep_selected.
    - by apply physicsStep_insideSides. }
  destruct (stateAfter_update_cases cv biome now inputs st)
    as [-> | [-> | [lg Hi]]]; [done | done |].
  by eapply stateOK_interaction.
Qed.

Lemma stateOK_clock st t :
  stateOK st →
  stateOK {| world := world st; player := player st; lastActionTime := t |}.
Proof. by intros [? ? ? ?]. Qed.

Lemma reachable_stateOK st : reachable st → stateOK st.
Proof.
  induction 1 as [biome random w p Hunit Hg
                 |st biome random w p Hr IH Hunit Hg
                 |st cv biome now inputs Hr IH].
  - apply (stateOK_generated biome random initialPlayer w p Hunit); [|done].
    vm_compute. repeat constructor.
  - destruct (stateOK_generated biome random (player st) w p Hunit
                (ok_selected _ IH) Hg) as [Hok _].
    by apply (stateOK_clock _ (lastActionTime st)) in Hok.
  - by apply stateOK_update.
Qed.

(** The state right after the first generation of [meadow]. *)
Definition meadowSpawn : GameState :=
  {| world := meadow; player := resetPlayer initialPlayer;
     lastActionTime := 0 |}.

Lemma meadowSpawn_reachable : reachable meadowSpawn.
Proof.
  apply (reach_mount DEFAULT_BIOME oneTreeDraws); [exact oneTreeDraws_unit|].
  destruct (generateWorld_columns DEFAULT_BIOME oneTreeDraws initialPlayer
              oneTreeDraws_unit) as (w & h & Hg & _).
  pose proof meadow_generated as Hm. rewrite Hg in Hm |- *. cbn in Hm.
  by injection Hm as ->.
Qed.

(** In every state of the running game the world is 48 rows of 64 cells
    that hold ids of block types: generation, mining and placing keep the
    dimensions and write only such ids. *)
Theorem reachable_world_is_grid st : reachable st → gridShaped (world st).
Proof. intros H. exact (ok_grid _ (reachable_stateOK st H)). Qed.

Lemma reachable_world_is_grid_witness :
  reachable meadowSpawn ∧ gridShaped (world meadowSpawn).
Proof.
  split; [exact meadowSpawn_reachable|].
  exact (reachable_world_is_grid meadowSpawn meadowSpawn_reachable).
Defined.

(** In every state of the running game BEDROCK is the whole bottom row
    and nothing else: it cannot be mined, and it cannot be placed. *)
Theorem reachable_bedrock_floor st :
  reachable st →
  ∀ y x, 0 ≤ y < CHUNK_HEIGHT → 0 ≤ x < CHUNK_WIDTH →
    (cellAt (world st) y x = Some (tileId BEDROCK) ↔ y = CHUNK_HEIGHT - 1).
Proof. intros H. exact (ok_floor _ (reachable_stateOK st H)). Qed.

Lemma reachable_bedrock_floor_witness :
  reachable meadowSpawn
  ∧ cellAt (world meadowSpawn) 47 63 = Some (tileId BEDROCK).
Proof.
  split; [exact meadowSpawn_reachable|].
  refine (proj2 (reachable_bedrock_floor meadowSpawn meadowSpawn_reachable
                   47 63 _ _) eq_refl); unfold CHUNK_HEIGHT, CHUNK_WIDTH; lia.
Defined.

(** In every state of the running game the selected block is one of
    DIRT, STONE, WOOD, GRASS, LEAVES: the player never holds AIR, BEDROCK
    or ORE. *)
Theorem reachable_selection_in_cycle st :
  reachable st → selectedBlock (player st) ∈ types.
Proof. intros H. exact (ok_selected _ (reachable_stateOK st H)). Qed.

Lemma reachable_selection_in_cycle_witness :
  reachable meadowSpawn ∧ selectedBlock (player meadowSpawn) ∈ types.
Proof.
  split; [exact meadowSpawn_reachable|].
  exact (reachable_selection_in_cycle meadowSpawn meadowSpawn_reachable).
Defined.

(** In every state of the running game a frame on a mounted canvas runs
    to the end: the loop is never stopped by a TypeError. *)
Theorem reachable_frame_never_throws st cv biome now inputs :
  reachable st →
  ∃ st' log ops, update (Some cv) biome now inputs st = Frame st' log ops.
Proof.
  intros H. rewrite update_stages. unfold pipeline.
  set (st1 := {| world := world st |}).
  destruct (ok_grid _ (reachable_stateOK st H)) as [Hd _].
  destruct (interactionStep_defined now inputs st1 Hd) as [[st2 lg] ->].
  by eexists _, _, _.
Qed.

Lemma reachable_frame_never_throws_witness :
  reachable meadowSpawn
  ∧ ∃ st' log ops,
      update (Some screenCanvas) DEFAULT_BIOME 1000 holdB meadowSpawn
      = Frame st' log ops.
Proof.
  split; [exact meadowSpawn_reachable|].
  exact (reachable_frame_never_throws meadowSpawn screenCanvas DEFAULT_BIOME
           1000 holdB meadowSpawn_reachable).
Defined.

(** ** The action cooldown *)

Lemma update_in_cooldown cv biome now inputs st :
  now - lastActionTime st ≤ 200 →
  update (Some cv) biome now inputs st
  = Frame {| world := world st;
             player := physicsStep biome inputs (world st) (player st);
             lastActionTime := lastActionTime st |} []
      (renderStep cv biome (world st)
         (physicsStep biome inputs (world st) (player st))).
Proof.
  intros Hc. rewrite update_stages. unfold pipeline, interactionStep.
  cbn [world player lastActionTime].
  destruct (Z.gtb_spec (now - lastActionTime st) 200); [lia|].
  by rewrite andb_false_r.
Qed.

(** Within 200 ms of the last action a frame only moves the player: the
    world, the selected block and the clock of the last action are
    unchanged and nothing is logged, whatever buttons are held. *)
Theorem cooldown_blocks_actions cv biome now inputs st :
  now - lastActionTime st ≤ 200 →
  ∃ ops,
    update (Some cv) biome now inputs st
    = Frame {| world := world st;
               player := physicsStep biome inputs (world st) (player st);
               lastActionTime := lastActionTime st |} [] ops.
Proof. intros Hc. eexists. by apply update_in_cooldown. Qed.

Lemma cooldown_blocks_actions_witness :
  ∃ ops,
    update (Some screenCanvas) DEFAULT_BIOME 200 holdA (meadowState 32)
    = Frame {| world := meadow;
               player := physicsStep DEFAULT_BIOME holdA meadow
                           (standingAt 32);
               lastActionTime := 0 |} [] ops.
Proof.
  apply (cooldown_blocks_actions screenCanvas DEFAULT_BIOME 200 holdA
           (meadowState 32)).
  cbn. lia.
Defined.

(** A frame that changes the world or the selected block stamps the clock
    of the last action with its own time, so that the frames of the next
    200 ms change neither. *)
Theorem action_then_cooldown cv biome now inputs st cv' biome' now' inputs' :
  let st1 := stateAfter st (update cv biome now inputs st) in
  let st2 := stateAfter st1 (update cv' biome' now' inputs' st1) in
  world st1 ≠ world st
  ∨ selectedBlock (player st1) ≠ selectedBlock (player st) →
  now' - now ≤ 200 →
  lastActionTime st1 = now
  ∧ world st2 = world st1
  ∧ selectedBlock (player st2) = selectedBlock (player st1)
  ∧ lastActionTime st2 = now.
Proof.
  cbv zeta. intros Hchg Hc.
  assert (lastActionTime (stateAfter st (update cv biome now inputs st)) = now)
    as Hstamp.
  { destruct (stateAfter_update_cases cv biome now inputs st)
      as [E | [E | [lg Hi]]].
    - rewrite E in Hchg. by destruct Hchg.
    - rewrite E in Hchg. cbn in Hchg.
      rewrite physicsStep_selected in Hchg. by destruct Hchg.
    - destruct (interactionStep_selection _ _ _ _ _ Hi) as (_ & _ & Hs).
      cbn in Hs. rewrite physicsStep_selected in Hs. by apply Hs. }
  split; [done|].
  set (st1 := stateAfter st (update cv biome now inputs st)) in *.
  destruct cv' as [cv'|]; [|by cbn].
  rewrite (update_in_cooldown cv' biome' now' inputs' st1) by lia.
  cbn. by rewrite physicsStep_selected.
Qed.

Lemma action_then_cooldown_witness :
  let st1 := stateAfter (meadowState 32)
               (update (Some screenCanvas) DEFAULT_BIOME 1000 holdB
                  (meadowState 32)) in
  let st2 := stateAfter st1
               (update (Some screenCanvas) DEFAULT_BIOME 1100 holdA st1) in
  world st1 ≠ meadow
  ∧ lastActionTime st1 = 1000
  ∧ world st2 = world st1
  ∧ selectedBlock (player st2) = selectedBlock (player st1)
  ∧ lastActionTime st2 = 1000.
Proof.
  cbv zeta.
  assert (world (stateAfter (meadowState 32)
            (update (Some screenCanvas) DEFAULT_BIOME 1000 holdB
               (meadowState 32))) ≠ world (meadowState 32)) as Hne.
  { intros E. apply (f_equal (fun w => cellAt w 23 34)) in E.
    vm_compute in E. discriminate E. }
  split; [exact Hne|].
  apply (action_then_cooldown (Some screenCanvas) DEFAULT_BIOME 1000 holdB
           (meadowState 32) (Some screenCanvas) DEFAULT_BIOME 1100 holdA).
  - left. exact Hne.
  - lia.
Defined.

(** ** Mining *)

Lemma interactionStep_log now inputs st st' log :
  interactionStep now inputs st = Some (st', log) →
  log = [] ∨ actionA inputs = false.
Proof.
  unfold interactionStep. intros H.
  destruct (actionA inputs); [left|by right].
  repeat (case_match; simplify_option_eq); done.
Qed.


(** While A is held a frame never places and never cycles the selection,
    with B held or not: the selected block is unchanged, nothing is
    logged, and a cell either keeps its content or was not BEDROCK and
    becomes AIR. *)
Theorem mine_has_priority cv biome now inputs st st' log ops :
  update (Some cv) biome now inputs st = Frame st' log ops →
  actionA inputs = true →
  selectedBlock (player st') = selectedBlock (player st)
  ∧ log = []
  ∧ ∀ r c, cellAt (world st') r c = cellAt (world st) r c
         ∨ (cellAt (world st) r c ≠ Some (tileId BEDROCK)
            ∧ cellAt (world st') r c = Some (tileId AIR)).
Proof.
  rewrite update_stages. unfold pipeline.
  set (st1 := {| world := _ |}).
  destruct (interactionStep now inputs st1) as [[st2 lg]|] eqn:Hi; [|done].
  intros [= <- <- <-] HA. split; [|split].
  - destruct (interactionStep_selection _ _ _ _ _ Hi)
      as ([Hs | (HA' & _)] & _); [|congruence].
    rewrite Hs. apply physicsStep_selected.
  - destruct (interactionStep_log _ _ _ _ _ Hi); [done | congruence].
  - intros r c.
    destruct (interactionStep_cells _ _ _ _ _ Hi r c)
      as [E | [(Hn & E & _) | (HA' & _)]]; [by left | by right | congruence].
Qed.

Definition holdAB : InputState :=
  {| in_left := false; in_right := false; in_up := false; in_down := false;
     actionA := true; actionB := true |}.

Lemma mine_has_priority_witness :
  ∃ st' log ops,
    update (Some screenCanvas) DEFAULT_BIOME 1000 holdAB (meadowState 18)
    = Frame st' log ops
    ∧ selectedBlock (player st') = DIRT ∧ log = []
    ∧ cellAt (world st') 23 20 = Some (tileId AIR).
Proof.
  set (o := update (Some screenCanvas) DEFAULT_BIOME 1000 holdAB
              (meadowState 18)).
  assert (o = Frame (stateAfter (meadowState 18) o) (frameLog o) (frameOps o))
    as E by (vm_compute; reflexivity).
  exists (stateAfter (meadowState 18) o), (frameLog o), (frameOps o).
  split; [exact E|].
  destruct (mine_has_priority screenCanvas DEFAULT_BIOME 1000 holdAB
              (meadowState 18) _ _ _ E eq_refl) as (Hs & Hl & _).
  split; [exact Hs|]. split; [exact Hl|]. vm_compute. reflexivity.
Defined.



(** ** Rendering *)




Lemma length_concat_map_le {A B : Type} (f : A → list B) (n : nat)
    (l : list A) :
  (∀ a, length (f a) ≤ n)%nat →
  (length (concat (map f l)) ≤ n * length l)%nat.
Proof.
  intros Hf. induction l as [|a l IH]; cbn; [lia|].
  rewrite length_app. specialize (Hf a). lia.
Qed.

Lemma drawTile_length biome row y x : (length (drawTile biome row y x) ≤ 5)%nat.
Proof. unfold drawTile. case_bool_decide; cbn; lia. Qed.

Lemma camera_window (p : PlayerState) :
  0 ≤ Qfloor (fst (camera screenCanvas p) / TILE_SIZE) ≤ 54
  ∧ 0 ≤ Qfloor (snd (camera screenCanvas p) / TILE_SIZE) ≤ 40.
Proof.
  destruct (camera_bounds p) as [[Hx0 Hx1] [Hy0 Hy1]].
  set (cx := fst (camera screenCanvas p)) in *.
  set (cy := snd (camera screenCanvas p)) in *.
  assert (∀ (q : Q) (n : Z), (0 <= q)%Q → (q <= inject_Z n * 16 + 15)%Q →
            0 ≤ Qfloor (q / TILE_SIZE) ≤ n) as Hw.
  { intros q n H0 H1. unfold TILE_SIZE.
    assert (q / 16 == q * (1 # 16))%Q as E by (unfold Qdiv; reflexivity).
    split.
    - change 0 with (Qfloor 0). apply Qfloor_resp_le. rewrite E. lra.
    - apply Z.lt_succ_r. rewrite Zlt_Qlt.
      apply Qle_lt_trans with (q / 16)%Q; [apply Qfloor_le|].
      unfold Z.succ. rewrite inject_Z_plus, E.
      change (inject_Z 1) with 1%Q. lra. }
  split; apply Hw; try done.
  - change (inject_Z 54) with 54%Q. lra.
  - change (inject_Z 40) with 40%Q. lra.
Qed.

Lemma drawTile_square biome row r c (x y : Q) :
  FillRect x y TILE_SIZE TILE_SIZE ∈ drawTile biome row r c ↔
  jsget row c ≠ Some (tileId AIR)
  ∧ x = (inject_Z c * TILE_SIZE)%Q ∧ y = (inject_Z r * TILE_SIZE)%Q.
Proof.
  unfold drawTile. case_bool_decide as Hb.
  - rewrite !elem_of_cons, elem_of_nil. split.
    + intros [H|[H|[H|[H|[H|[]]]]]]; try discriminate H.
      by injection H as -> ->.
    + intros (_ & -> & ->). auto.
  - rewrite elem_of_nil. split; [done|]. by intros [? _].
Qed.

(** The renderer culls.  On the 320x240 canvas the tiles a frame draws
    are exactly the cells that are not AIR in the window of 9 rows and 11
    columns whose first row and column are the tile of the camera origin
    (a row that does not exist is skipped, a cell past the end of its row
    is drawn); that window starts inside the grid, and the frame makes at
    most 508 calls on the context, whatever the world holds. *)
Theorem render_is_culled biome (w : World) (p : PlayerState) :
  let ops := renderStep screenCanvas biome w p in
  let startCol := Qfloor (fst (camera screenCanvas p) / TILE_SIZE) in
  let startRow := Qfloor (snd (camera screenCanvas p) / TILE_SIZE) in
  (0 ≤ startCol ≤ 54 ∧ 0 ≤ startRow ≤ 40)
  ∧ (∀ x y : Q,
       FillRect x y TILE_SIZE TILE_SIZE ∈ ops ↔
       ∃ r c row,
         startRow ≤ r < startRow + 9 ∧ startCol ≤ c < startCol + 11
         ∧ rowAt w r = Some row ∧ jsget row c ≠ Some (tileId AIR)
         ∧ x = (inject_Z c * TILE_SIZE)%Q ∧ y = (inject_Z r * TILE_SIZE)%Q)
  ∧ (length ops ≤ 5 + 5 * (11 * 9) + 8)%nat.
Proof.
  cbv zeta. split; [apply camera_window|].
  unfold renderStep. destruct (camera screenCanvas p) as [cx cy].
  cbn [fst snd].
  change (Qceiling (canvasWidth screenCanvas / RENDER_SCALE / TILE_SIZE))
    with 10.
  change (Qceiling (canvasHeight screenCanvas / RENDER_SCALE / TILE_SIZE))
    with 8.
  set (sc := Qfloor (cx / TILE_SIZE)). set (sr := Qfloor (cy / TILE_SIZE)).
  replace (sc + 10 + 1 - sc) with 11 by lia.
  replace (sr + 8 + 1 - sr) with 9 by lia.
  set (tiles := concat (map _ (seqZ sr 9))).
  split.
  - intros x y. rewrite !elem_of_app.
    assert (FillRect x y TILE_SIZE TILE_SIZE ∈ tiles ↔
            ∃ r c row, sr ≤ r < sr + 9 ∧ sc ≤ c < sc + 11
              ∧ rowAt w r = Some row ∧ jsget row c ≠ Some (tileId AIR)
              ∧ x = (inject_Z c * TILE_SIZE)%Q
              ∧ y = (inject_Z r * TILE_SIZE)%Q) as Htiles.
    { subst tiles. rewrite list_elem_of_In, in_concat. split.
      - intros (l & Hl & Hin). apply in_map_iff in Hl as (r & <- & Hr).
        apply list_elem_of_In, elem_of_seqZ in Hr.
        destruct (rowAt w r) as [row|] eqn:Hrow; [|done].
        apply in_concat in Hin as (l & Hl & Hin).
        apply in_map_iff in Hl as (c & <- & Hc).
        apply list_elem_of_In, elem_of_seqZ in Hc.
        apply list_elem_of_In, drawTile_square in Hin as (Hb & -> & ->).
        exists r, c, row. repeat split; try done; lia.
      - intros (r & c & row & Hr & Hc & Hrow & Hb & -> & ->).
        exists (concat (map (drawTile biome row r) (seqZ sc 11))). split.
        + apply in_map_iff. exists r. rewrite Hrow. split; [done|].
          apply list_elem_of_In, elem_of_seqZ. lia.
        + apply in_concat. exists (drawTile biome row r c). split.
          * apply in_map_iff. exists c. split; [done|].
            apply list_elem_of_In, elem_of_seqZ. lia.
          * apply list_elem_of_In, drawTile_square. done. }
    rewrite Htiles. split; [|auto].
    intros [H|[H|H]]; [|exact H|].
    + rewrite !elem_of_cons, elem_of_nil in H.
      destruct H as [H|[H|[H|[H|[H|[]]]]]]; discriminate H.
    + rewrite !elem_of_cons, elem_of_nil in H.
      destruct H as [H|[H|[H|[H|[H|[H|[H|[H|[]]]]]]]]]; discriminate H.
  - rewrite !length_app. cbn [length].
    pose proof (length_concat_map_le
      (fun y => match rowAt w y with
                | Some row => concat (map (drawTile biome row y) (seqZ sc 11))
                | None => []
                end) (5 * 11) (seqZ sr 9)) as Hlen.
    rewrite length_seqZ in Hlen. fold tiles in Hlen.
    enough (∀ y, (length match rowAt w y with
                       | Some row =>
                           concat (map (drawTile biome row y) (seqZ sc 11))
                       | None => []
                       end ≤ 5 * 11)%nat) as Hrow
      by (specialize (Hlen Hrow); lia).
    intros y. destruct (rowAt w y) as [row|]; [|cbn; lia].
    pose proof (length_concat_map_le (drawTile biome row y) 5 (seqZ sc 11)
                  (drawTile_length biome row y)) as H.
    rewrite length_seqZ in H. lia.
Qed.

(** ** Keys that do nothing, buttons that do not move *)

Definition withDown (b : bool) (i : InputState) : InputState :=
  {| in_left := in_left i; in_right := in_right i; in_up := in_up i;
     in_down := b; actionA := actionA i; actionB := actionB i |}.

Definition withActions (a b : bool) (i : InputState) : InputState :=
  {| in_left := in_left i; in_right := in_right i; in_up := in_up i;
     in_down := in_down i; actionA := a; actionB := b |}.

(** [update] never reads [inputs.down]: holding or releasing Down changes
    nothing of what a frame does. *)
Theorem down_key_is_ignored cv biome now inputs st (b : bool) :
  update cv biome now (withDown b inputs) st = update cv biome now inputs st.
Proof. destruct cv as [cv|]; reflexivity. Qed.

(** The A and B buttons never move the player: position, velocity and
    facing after a frame are those of the physics step, which reads only
    left, right and up.  In particular A does not jump. *)
Theorem action_buttons_do_not_move cv biome now inputs st (a b : bool) :
  let p := player (stateAfter st (update (Some cv) biome now inputs st)) in
  let q := player (stateAfter st
             (update (Some cv) biome now (withActions a b inputs) st)) in
  pl_x q = pl_x p ∧ pl_y q = pl_y p ∧ pl_vx q = pl_vx p ∧ pl_vy q = pl_vy p
  ∧ facingRight q = facingRight p.
Proof.
  cbv zeta.
  destruct (stateAfter_update_motion cv biome now inputs st)
    as (-> & -> & -> & -> & ->).
  destruct (stateAfter_update_motion cv biome now (withActions a b inputs) st)
    as (-> & -> & -> & -> & ->).
  done.
Qed.

(** ** The console: keyboard and touch input (PocketConsole) *)

(** [keyof InputState] *)
Inductive InputKey := KLeft | KRight | KUp | KDown | KActionA | KActionB.

#[global] Instance InputKey_eq_dec : EqDecision InputKey.
Proof. solve_decision. Defined.

(** [inputState.current[key] = v] *)
Definition setInput (k : InputKey) (v : bool) (i : InputState) : InputState :=
  match k with
  | KLeft =>
      {| in_left := v; in_right := in_right i; in_up := in_up i;
         in_down := in_down i; actionA := actionA i; actionB := actionB i |}
  | KRight =>
      {| in_left := in_left i; in_right := v; in_up := in_up i;
         in_down := in_down i; actionA := actionA i; actionB := actionB i |}
  | KUp =>
      {| in_left := in_left i; in_right := in_right i; in_up := v;
         in_down := in_down i; actionA := actionA i; actionB := actionB i |}
  | KDown =>
      {| in_left := in_left i; in_right := in_right i; in_up := in_up i;
         in_down := v; actionA := actionA i; actionB := actionB i |}
  | KActionA =>
      {| in_left := in_left i; in_right := in_right i; in_up := in_up i;
         in_down := in_down i; actionA := v; actionB := actionB i |}
  | KActionB =>
      {| in_left := in_left i; in_right := in_right i; in_up := in_up i;
         in_down := in_down i; actionA := actionA i; actionB := v |}
  end.

Definition getInput (k : InputKey) (i : InputState) : bool :=
  match k with
  | KLeft => in_left i | KRight => in_right i | KUp => in_up i
  | KDown => in_down i | KActionA => actionA i | KActionB => actionB i
  end.

(** The [switch (e.key)] shared by both keyboard handlers: the field a key
    is bound to, if any. *)
Definition keyBinding (key : string) : option InputKey :=
  if decide (key = "ArrowLeft") then Some KLeft
  else if decide (key = "ArrowRight") then Some KRight
  else if decide (key = "ArrowUp") then Some KUp
  else if decide (key = "ArrowDown") then Some KDown
  else if decide (key = "z") then Some KActionA
  else if decide (key = "Z") then Some KActionA
  else if decide (key = "x") then Some KActionB
  else if decide (key = "X") then Some KActionB
  else None.

Definition handleKeyDown (key : string) (i : InputState) : InputState :=
  match keyBinding key with
  | Some k => setInput k true i
  | None => i
  end.

Definition handleKeyUp (key : string) (i : InputState) : InputState :=
  match keyBinding key with
  | Some k => setInput k false i
  | None => i
  end.

(** The handlers returned by [bindTouch(key)]. *)
Definition onMouseDown (k : InputKey) := setInput k true.
Definition onMouseUp (k : InputKey) := setInput k false.
Definition onMouseLeave (k : InputKey) := setInput k false.
Definition onTouchStart (k : InputKey) := setInput k true.
Definition onTouchEnd (k : InputKey) := setInput k false.

(** The input state created with the console. *)
Definition initialInput : InputState :=
  {| in_left := false; in_right := false; in_up := false; in_down := false;
     actionA := false; actionB := false |}.

Lemma getInput_setInput (k k' : InputKey) (v : bool) (i : InputState) :
  getInput k' (setInput k v i) = if decide (k' = k) then v else getInput k' i.
Proof. destruct k, k'; reflexivity. Qed.

(** A key that is pressed and released leaves the input state as a mere
    release would: its field is false and no other field changed, also
    when the letter changes case in between (z pressed, Z released), and
    a key without binding changes nothing. *)
Theorem key_release_clears_press (down up : string) (i : InputState) :
  (keyBinding down = keyBinding up →
     handleKeyUp up (handleKeyDown down i) = handleKeyUp up i)
  ∧ (keyBinding down = None → handleKeyDown down i = i)
  ∧ (keyBinding up = None → handleKeyUp up i = i)
  ∧ ∀ k, keyBinding up = Some k →
      getInput k (handleKeyUp up i) = false
      ∧ ∀ k', k' ≠ k → getInput k' (handleKeyUp up i) = getInput k' i.
Proof.
  unfold handleKeyUp, handleKeyDown. split; [|split; [|split]].
  - intros ->. destruct (keyBinding up) as [k|]; [|done].
    by destruct k, i.
  - by intros ->.
  - by intros ->.
  - intros k Hk. rewrite Hk. split.
    + rewrite getInput_setInput. by rewrite decide_True.
    + intros k' Hne. rewrite getInput_setInput. by rewrite decide_False.
Qed.

(** The keyboard and a touch button write the same boolean: releasing
    either one clears the input even while the other is still held. *)
Theorem touch_and_key_share_one_flag (key : string) (k : InputKey)
    (i : InputState) :
  keyBinding key = Some k →
  getInput k (onTouchEnd k (handleKeyDown key (onTouchStart k i))) = false
  ∧ getInput k (handleKeyUp key (onMouseDown k (handleKeyDown key i)))
    = false.
Proof.
  intros Hk. unfold handleKeyUp, handleKeyDown, onTouchEnd, onTouchStart,
    onMouseDown. rewrite Hk.
  rewrite !getInput_setInput. by rewrite !decide_True.
Qed.

Lemma touch_and_key_share_one_flag_witness :
  keyBinding "ArrowLeft" = Some KLeft
  ∧ getInput KLeft
      (onTouchEnd KLeft (handleKeyDown "ArrowLeft"
         (onTouchStart KLeft initialInput))) = false
  ∧ getInput KLeft
      (handleKeyUp "ArrowLeft" (onMouseDown KLeft
         (handleKeyDown "ArrowLeft" initialInput))) = false.
Proof.
  split; [reflexivity|].
  exact (touch_and_key_share_one_flag "ArrowLeft" KLeft initialInput eq_refl).
Defined.

(** ** The biome service (geminiService) *)

(** The object that [JSON.parse] returns, read through the fields that
    [generateBiome] looks at; a field that is absent, [null] or
    [undefined] is [None].  Strings and numbers are as the response schema
    types them. *)
Record ColorData := {
  c_dirt : option string;
  c_grass : option string;
  c_stone : option string;
  c_wood : option string;
  c_leaves : option string;
  c_ore : option string;
}.

Record BiomeData := {
  d_name : option string;
  d_skyColor : option string;
  d_blockColors : option ColorData;
  d_gravity : option Q;
  d_terrainRoughness : option Q;
  d_treeDensity : option Q;
}.

(** What happens inside the [try] block. *)
Inductive ApiReply :=
  | CallThrows              (* the request or [JSON.parse] throws *)
  | ParsedNull              (* the text parses to [null]: reading a field throws *)
  | Parsed (data : BiomeData).

(** [a || b] on strings: the empty string is falsy. *)
Definition orString (a : option string) (b : option string) : option string :=
  match a with
  | Some s => if decide (s = EmptyString) then b else Some s
  | None => b
  end.

(** [data.blockColors?.field] *)
Definition colorField (data : BiomeData) (f : ColorData → option string)
  : option string :=
  match d_blockColors data with
  | Some cd => f cd
  | None => None
  end.

(** A property of the object literal; an [undefined] value reads like an
    absent key. *)
Definition withColor (b : BlockType) (c : option string)
    (m : gmap Z string) : gmap Z string :=
  match c with
  | Some s => <[tileId b := s]> m
  | None => m
  end.

Definition defaultColor (b : BlockType) : option string :=
  blockColors DEFAULT_BIOME !! tileId b.

(** [generateBiome]: [apiKey] is [process.env.API_KEY || ''], [reply] is
    what the awaited call and the parse give. *)
Definition generateBiome (apiKey prompt : string) (reply : ApiReply)
  : BiomeConfig :=
  if decide (apiKey = EmptyString) then
    {| biomeName := "Mock: " +:+ prompt;
       skyColor := skyColor DEFAULT_BIOME;
       blockColors := blockColors DEFAULT_BIOME;
       gravity := gravity DEFAULT_BIOME;
       terrainRoughness := terrainRoughness DEFAULT_BIOME;
       treeDensity := treeDensity DEFAULT_BIOME |}
  else
    match reply with
    | CallThrows | ParsedNull => DEFAULT_BIOME
    | Parsed data =>
        {| biomeName :=
             default "Unknown Biome"
               (orString (d_name data) (Some "Unknown Biome"));
           skyColor :=
             default (skyColor DEFAULT_BIOME)
               (orString (d_skyColor data) (Some (skyColor DEFAULT_BIOME)));
           blockColors :=
             withColor DIRT
               (orString (colorField data c_dirt) (defaultColor DIRT))
             (withColor GRASS
               (orString (colorField data c_grass) (defaultColor GRASS))
             (withColor STONE
               (orString (colorField data c_stone) (defaultColor STONE))
             (withColor WOOD
               (orString (colorField data c_wood) (defaultColor WOOD))
             (withColor LEAVES
               (orString (colorField data c_leaves) (defaultColor LEAVES))
             (withColor ORE
               (orString (colorField data c_ore) (defaultColor ORE))
             (withColor BEDROCK (Some "#000000") ∅))))));
           gravity := default 0.5%Q (d_gravity data);
           terrainRoughness := default 0.5%Q (d_terrainRoughness data);
           treeDensity := default 0.1%Q (d_treeDensity data) |}
    end.

Lemma orString_default_nonempty (a : option string) (d : string) :
  d ≠ EmptyString →
  ∃ s, orString a (Some d) = Some s ∧ s ≠ EmptyString.
Proof.
  intros Hd. unfold orString. destruct a as [s|]; [|by exists d].
  case_decide; [by exists d | by exists s].
Qed.

Lemma tileColor_of_nonempty biome (v : Z) (c : string) :
  blockColors biome !! v = Some c → c ≠ EmptyString →
  tileColor biome (Some v) = c.
Proof. intros H Hc. unfold tileColor. rewrite H. by case_decide. Qed.

(** Whatever the service answers, with or without an API key, the biome
    it returns gives each of the seven non-AIR block types a non-empty
    colour, so that the renderer never falls back to magenta for a tile
    holding a block type. *)
Theorem generateBiome_colours_every_block (apiKey prompt : string)
    (reply : ApiReply) :
  let biome := generateBiome apiKey prompt reply in
  Forall (fun b =>
    ∃ c, blockColors biome !! tileId b = Some c ∧ c ≠ EmptyString
         ∧ tileColor biome (Some (tileId b)) = c)
    [DIRT; GRASS; STONE; WOOD; LEAVES; BEDROCK; ORE].
Proof.
  cbv zeta.
  assert (∀ biome b c, blockColors biome !! tileId b = Some c →
            c ≠ EmptyString →
            ∃ c, blockColors biome !! tileId b = Some c ∧ c ≠ EmptyString
                 ∧ tileColor biome (Some (tileId b)) = c) as Hex.
  { intros biome b c H Hc. exists c. split; [done|]. split; [done|].
    by apply tileColor_of_nonempty. }
  assert (Forall (fun b =>
    ∃ c, blockColors DEFAULT_BIOME !! tileId b = Some c ∧ c ≠ EmptyString
         ∧ tileColor DEFAULT_BIOME (Some (tileId b)) = c)
    [DIRT; GRASS; STONE; WOOD; LEAVES; BEDROCK; ORE]) as Hdef.
  { repeat constructor; (eapply Hex; [by vm_compute | done]). }
  unfold generateBiome. case_decide; [exact Hdef|].
  destruct reply as [| |data]; [exact Hdef | exact Hdef |].
  destruct (orString_default_nonempty (colorField data c_dirt) "#8B4513")
    as (s1 & E1 & N1); [done|].
  destruct (orString_default_nonempty (colorField data c_grass) "#32CD32")
    as (s2 & E2 & N2); [done|].
  destruct (orString_default_nonempty (colorField data c_stone) "#808080")
    as (s3 & E3 & N3); [done|].
  destruct (orString_default_nonempty (colorField data c_wood) "#A0522D")
    as (s4 & E4 & N4); [done|].
  destruct (orString_default_nonempty (colorField data c_leaves) "#228B22")
    as (s5 & E5 & N5); [done|].
  destruct (orString_default_nonempty (colorField data c_ore) "#FFD700")
    as (s6 & E6 & N6); [done|].
  assert (defaultColor DIRT = Some "#8B4513") as -> by (by vm_compute).
  assert (defaultColor GRASS = Some "#32CD32") as -> by (by vm_compute).
  assert (defaultColor STONE = Some "#808080") as -> by (by vm_compute).
  assert (defaultColor WOOD = Some "#A0522D") as -> by (by vm_compute).
  assert (defaultColor LEAVES = Some "#228B22") as -> by (by vm_compute).
  assert (defaultColor ORE = Some "#FFD700") as -> by (by vm_compute).
  rewrite E1, E2, E3, E4, E5, E6. unfold withColor.
  repeat (constructor;
    [eapply Hex; [cbn [blockColors tileId]; by simplify_map_eq
                 |eassumption || done]|]).
  constructor.
Qed.

(** * The frame in the arithmetic of the source

    [update] once more, with the arithmetic of JavaScript numbers as a
    parameter: what holds of [updateN] holds whatever the operators do, in
    particular when they round to the nearest IEEE double as the source's
    do.  Two instances follow: [binary64], the doubles themselves, and
    [rationals], the exact rationals, at which [updateN] is [update]. *)

(** ** Numbers and their operators *)

(** The operators the frame applies to numbers.  [lit] is a numeric
    literal of the source (or a number read from the biome or the canvas)
    and [toIndex] reads an integer-valued number as an array index. *)
Class Arithmetic (num : Type) := {
  lit : Q → num;
  num_add : num → num → num;
  num_sub : num → num → num;
  num_mul : num → num → num;
  num_div : num → num → num;
  num_neg : num → num;
  num_ltb : num → num → bool;
  num_leb : num → num → bool;
  Math_min : num → num → num;
  Math_max : num → num → num;
  Math_floor : num → num;
  Math_ceil : num → num;
  toIndex : num → Z;
}.

Arguments lit {num _} _%_Q.

Declare Scope num_scope.
Delimit Scope num_scope with num.
Infix "+" := num_add : num_scope.
Infix "-" := num_sub : num_scope.
Infix "*" := num_mul : num_scope.
Infix "/" := num_div : num_scope.
Notation "- a" := (num_neg a) : num_scope.
Infix "<?" := num_ltb : num_scope.
Infix "<=?" := num_leb : num_scope.
Notation "a >? b" := (num_ltb b a) (only parsing) : num_scope.
Notation "a >=? b" := (num_leb b a) (only parsing) : num_scope.

(** [playerRef.current] *)
Record PlayerN (num : Type) := {
  nx : num;
  ny : num;
  nvx : num;
  nvy : num;
  nfacingRight : bool;
  nselectedBlock : BlockType;
}.

Arguments nx {num} _.
Arguments ny {num} _.
Arguments nvx {num} _.
Arguments nvy {num} _.
Arguments nfacingRight {num} _.
Arguments nselectedBlock {num} _.
Arguments Build_PlayerN {num} _ _ _ _ _ _.

(** The three refs. *)
Record GameN (num : Type) := {
  nworld : World;
  nplayer : PlayerN num;
  nlastActionTime : Z;
}.

Arguments nworld {num} _.
Arguments nplayer {num} _.
Arguments nlastActionTime {num} _.
Arguments Build_GameN {num} _ _ _.

(** Calls made on the 2D context. *)
Inductive CanvasOpN (num : Type) :=
  | SetFillStyleN (style : string)
  | FillRectN (x y w h : num)
  | SaveN
  | ScaleN (sx sy : num)
  | TranslateN (dx dy : num)
  | SetStrokeStyleN (style : string)
  | SetLineWidthN (w : num)
  | StrokeRectN (x y w h : num)
  | RestoreN.

Arguments SetFillStyleN {num} _.
Arguments FillRectN {num} _ _ _ _.
Arguments SaveN {num}.
Arguments ScaleN {num} _ _.
Arguments TranslateN {num} _ _.
Arguments SetStrokeStyleN {num} _.
Arguments SetLineWidthN {num} _.
Arguments StrokeRectN {num} _ _ _ _.
Arguments RestoreN {num}.

Inductive OutcomeN (num : Type) :=
  | NoCanvasN
  | ThrewN (st : GameN num)
  | FrameN (st : GameN num) (log : list string) (ops : list (CanvasOpN num)).

Arguments NoCanvasN {num}.
Arguments ThrewN {num} _.
Arguments FrameN {num} _ _ _.

Definition stateAfterN {num : Type} (st : GameN num) (o : OutcomeN num)
  : GameN num :=
  match o with
  | NoCanvasN => st
  | ThrewN st' => st'
  | FrameN st' _ _ => st'
  end.

Definition frameLogN {num : Type} (o : OutcomeN num) : list string :=
  match o with
  | FrameN _ log _ => log
  | _ => []
  end.

Definition frameOpsN {num : Type} (o : OutcomeN num) : list (CanvasOpN num) :=
  match o with
  | FrameN _ _ ops => ops
  | _ => []
  end.

Section Arithmetic.
Context {num : Type} {A : Arithmetic num}.

(** ** Constants *)

Definition TILE_SIZE_N : num := lit TILE_SIZE.
Definition CHUNK_WIDTH_N : num := lit (inject_Z CHUNK_WIDTH).
Definition CHUNK_HEIGHT_N : num := lit (inject_Z CHUNK_HEIGHT).
Definition RENDER_SCALE_N : num := lit RENDER_SCALE.

Definition pWN : num := (TILE_SIZE_N * lit 0.6)%num.
Definition pHN : num := (TILE_SIZE_N * lit 1.6)%num.

(** ** Counting loops *)

(** The values of [i] in [for (let i = a; i <= b; i++)], as indices. *)
Definition fromTo (a b : num) : list Z :=
  if (a <=? b)%num then seqZ (toIndex a) (toIndex b - toIndex a + 1) else [].

(** The values of [i] in [for (let i = a; i < b; i++)], as indices. *)
Definition fromBelow (a b : num) : list Z :=
  if (a <? b)%num then seqZ (toIndex a) (toIndex b - toIndex a) else [].

(** ** Collision test *)

Definition checkCollisionN (world : World) (checkX checkY : num) : bool :=
  let left := Math_floor ((checkX - pWN / lit 2) / TILE_SIZE_N)%num in
  let right :=
    Math_floor ((checkX + pWN / lit 2 - lit 0.1) / TILE_SIZE_N)%num in
  let top := Math_floor ((checkY - pHN) / TILE_SIZE_N)%num in
  let bottom := Math_floor ((checkY - lit 0.1) / TILE_SIZE_N)%num in
  if (left <? lit 0)%num || (right >=? CHUNK_WIDTH_N)%num
     || (bottom >=? CHUNK_HEIGHT_N)%num
  then true
  else if (top <? lit 0)%num then false
  else
    existsb (fun y => existsb (fun x => solidAt world y x) (fromTo left right))
      (fromTo top bottom).

(** ** The three stages *)

(** Region "Physics" with "Collision Detection (AABB)" and "Handle Jump
    Input". *)
Definition physicsStepN (biome : BiomeConfig) (inputs : InputState)
    (world : World) (p : PlayerN num) : PlayerN num :=
  let '(vx1, facing1) :=
    if in_left inputs then (lit (-2), false)
    else if in_right inputs then (lit 2, true)
    else ((nvx p * lit 0.8)%num, nfacingRight p) in
  let vy1 := Math_min (nvy p + lit (gravity biome))%num (lit 8) in
  let newX := (nx p + vx1)%num in
  let newY := (ny p + vy1)%num in
  let hitY := checkCollisionN world (nx p) newY in
  let onGround := hitY && (vy1 >? lit 0)%num in
  let newY' :=
    if hitY then
      if (vy1 >? lit 0)%num
      then (Math_floor (newY / TILE_SIZE_N) * TILE_SIZE_N)%num
      else (Math_ceil (newY / TILE_SIZE_N) * TILE_SIZE_N + lit 0.1)%num
    else newY in
  let vy2 := if hitY then lit 0 else vy1 in
  let hitX := checkCollisionN world newX newY' in
  {| nx := if hitX then nx p else newX;
     ny := newY';
     nvx := if hitX then lit 0 else vx1;
     nvy := if in_up inputs && onGround then lit (-6) else vy2;
     nfacingRight := facing1;
     nselectedBlock := nselectedBlock p |}.

(** The target of an action, as numbers and as the indices of a cell. *)
Definition targetXN (p : PlayerN num) : num :=
  let reach := (TILE_SIZE_N * lit 1.5)%num in
  (nx p + (if nfacingRight p then reach else - reach))%num.

Definition targetYN (p : PlayerN num) : num := (ny p - pHN * lit 0.5)%num.

Definition inGridN (gy gx : num) : bool :=
  (gx >=? lit 0)%num && (gx <? CHUNK_WIDTH_N)%num
  && (gy >=? lit 0)%num && (gy <? CHUNK_HEIGHT_N)%num.

(** Region "Actions (Mine/Place)". *)
Definition interactionStepN (now : Z) (inputs : InputState) (st : GameN num)
  : option (GameN num * list string) :=
  let p := nplayer st in
  if (actionA inputs || actionB inputs) && (now - nlastActionTime st >? 200)
  then
    let gx := Math_floor (targetXN p / TILE_SIZE_N)%num in
    let gy := Math_floor (targetYN p / TILE_SIZE_N)%num in
    if inGridN gy gx then
      if actionA inputs then
        c ← readCell (nworld st) (toIndex gy) (toIndex gx);
        if bool_decide (c ≠ Some (tileId BEDROCK)) then
          w' ← setCell (nworld st) (toIndex gy) (toIndex gx) (tileId AIR);
          Some ({| nworld := w'; nplayer := p; nlastActionTime := now |}, [])
        else Some (st, [])
      else if actionB inputs then
        c ← readCell (nworld st) (toIndex gy) (toIndex gx);
        if bool_decide (c = Some (tileId AIR)) then
          if negb (checkCollisionN (nworld st) (targetXN p) (targetYN p)) then
            w' ← setCell (nworld st) (toIndex gy) (toIndex gx)
                   (tileId (nselectedBlock p));
            Some ({| nworld := w'; nplayer := p; nlastActionTime := now |}, [])
          else Some (st, [])
        else
          let idx := indexOf types (nselectedBlock p) in
          let next :=
            types !!! Z.to_nat (Z.rem (idx + 1) (Z.of_nat (length types))) in
          let p' :=
            {| nx := nx p; ny := ny p; nvx := nvx p; nvy := nvy p;
               nfacingRight := nfacingRight p; nselectedBlock := next |} in
          Some ({| nworld := nworld st; nplayer := p';
                   nlastActionTime := now |},
                [("Equipped: " +:+ blockName next)%string])
      else Some (st, [])
    else Some (st, [])
  else Some (st, []).

(** Body of the loops "Draw World" for one cell of an existing row. *)
Definition drawTileN (biome : BiomeConfig) (row : Row) (y x : Z)
  : list (CanvasOpN num) :=
  let block := jsget row x in
  if bool_decide (block ≠ Some (tileId AIR)) then
    let tx := (lit (inject_Z x) * TILE_SIZE_N)%num in
    let ty := (lit (inject_Z y) * TILE_SIZE_N)%num in
    [ SetFillStyleN (tileColor biome block);
      FillRectN tx ty TILE_SIZE_N TILE_SIZE_N;
      SetFillStyleN "rgba(0,0,0,0.1)";
      FillRectN tx (ty + TILE_SIZE_N - lit 2)%num TILE_SIZE_N (lit 2);
      FillRectN (tx + TILE_SIZE_N - lit 2)%num ty (lit 2) TILE_SIZE_N ]
  else [].

(** Region "Rendering". *)
Definition renderStepN (cv : Canvas) (biome : BiomeConfig) (w : World)
    (p : PlayerN num) : list (CanvasOpN num) :=
  let width := lit (canvasWidth cv) in
  let height := lit (canvasHeight cv) in
  let camX := Math_floor (nx p - (width / RENDER_SCALE_N) / lit 2)%num in
  let camY := Math_floor (ny p - (height / RENDER_SCALE_N) / lit 2)%num in
  let maxCamX := (CHUNK_WIDTH_N * TILE_SIZE_N - width / RENDER_SCALE_N)%num in
  let maxCamY :=
    (CHUNK_HEIGHT_N * TILE_SIZE_N - height / RENDER_SCALE_N)%num in
  let clampedCamX := Math_max (lit 0) (Math_min camX maxCamX) in
  let clampedCamY := Math_max (lit 0) (Math_min camY maxCamY) in
  let startCol := Math_floor (clampedCamX / TILE_SIZE_N)%num in
  let endCol :=
    (startCol + Math_ceil (width / RENDER_SCALE_N / TILE_SIZE_N) + lit 1)%num in
  let startRow := Math_floor (clampedCamY / TILE_SIZE_N)%num in
  let endRow :=
    (startRow + Math_ceil (height / RENDER_SCALE_N / TILE_SIZE_N)
     + lit 1)%num in
  let cursorX := (Math_floor (targetXN p / TILE_SIZE_N) * TILE_SIZE_N)%num in
  let cursorY := (Math_floor (targetYN p / TILE_SIZE_N) * TILE_SIZE_N)%num in
  [ SetFillStyleN (skyColor biome);
    FillRectN (lit 0) (lit 0) width height;
    SaveN;
    ScaleN RENDER_SCALE_N RENDER_SCALE_N;
    TranslateN (- clampedCamX)%num (- clampedCamY)%num ]
  ++ concat (map (fun y =>
       match rowAt w y with
       | None => []
       | Some row =>
           concat (map (drawTileN biome row y) (fromBelow startCol endCol))
       end) (fromBelow startRow endRow))
  ++ [ SetFillStyleN "#FF0000";
       FillRectN (nx p - pWN / lit 2)%num (ny p - pHN)%num pWN pHN;
       SetFillStyleN "#FFCCAA";
       FillRectN (nx p - pWN / lit 2)%num (ny p - pHN)%num pWN
         (pHN * lit 0.4)%num;
       SetStrokeStyleN "#FFFFFF";
       SetLineWidthN (lit 1);
       StrokeRectN cursorX cursorY TILE_SIZE_N TILE_SIZE_N;
       RestoreN ].

(** ** [update], statement by statement

    The text of [update] with each operator on numbers replaced by the
    operator of the arithmetic. *)
Definition updateN (canvas : option Canvas) (biome : BiomeConfig) (now : Z)
    (inputs : InputState) (st : GameN num) : OutcomeN num :=
  match canvas with
  | None => NoCanvasN
  | Some cv =>
    let p := nplayer st in
    let w := nworld st in
    (* --- Physics --- horizontal *)
    let vx :=
      if in_left inputs then lit (-2)
      else if in_right inputs then lit 2
      else (nvx p * lit 0.8)%num in
    let facing :=
      if in_left inputs then false
      else if in_right inputs then true
      else nfacingRight p in
    (* gravity, terminal velocity *)
    let vy := (nvy p + lit (gravity biome))%num in
    let vy' := Math_min vy (lit 8) in
    (* potential new position *)
    let newX := (nx p + vx)%num in
    let newY := (ny p + vy')%num in
    let onGround := false in
    (* Y collision *)
    let '(onGround', newY', vy'') :=
      if checkCollisionN w (nx p) newY then
        if (vy' >? lit 0)%num
        then (true, (Math_floor (newY / TILE_SIZE_N) * TILE_SIZE_N)%num,
              lit 0)
        else (onGround,
              (Math_ceil (newY / TILE_SIZE_N) * TILE_SIZE_N + lit 0.1)%num,
              lit 0)
      else (onGround, newY, vy') in
    let y := newY' in
    (* X collision *)
    let '(newX', vx') :=
      if checkCollisionN w newX y then (nx p, lit 0) else (newX, vx) in
    let x := newX' in
    (* jump *)
    let vy''' := if in_up inputs && onGround' then lit (-6) else vy'' in
    (* --- Actions (Mine/Place) --- *)
    let acted : option (World * BlockType * Z * list string) :=
      if (actionA inputs || actionB inputs)
         && (now - nlastActionTime st >? 200)
      then
        let reach := (TILE_SIZE_N * lit 1.5)%num in
        let tX := (x + (if facing then reach else - reach))%num in
        let tY := (y - pHN * lit 0.5)%num in
        let gx := Math_floor (tX / TILE_SIZE_N)%num in
        let gy := Math_floor (tY / TILE_SIZE_N)%num in
        if (gx >=? lit 0)%num && (gx <? CHUNK_WIDTH_N)%num
           && (gy >=? lit 0)%num && (gy <? CHUNK_HEIGHT_N)%num
        then
          if actionA inputs then
            match rowAt w (toIndex gy) with
            | None => None
            | Some row =>
                if bool_decide
                     (jsget row (toIndex gx) ≠ Some (tileId BEDROCK)) then
                  Some (<[Z.to_nat (toIndex gy) :=
                            jsset row (Z.to_nat (toIndex gx)) (tileId AIR)]> w,
                        nselectedBlock p, now, [])
                else Some (w, nselectedBlock p, nlastActionTime st, [])
            end
          else if actionB inputs then
            match rowAt w (toIndex gy) with
            | None => None
            | Some row =>
                if bool_decide (jsget row (toIndex gx) = Some (tileId AIR))
                then
                  let blockToPlace := nselectedBlock p in
                  if negb (checkCollisionN w tX tY) then
                    Some (<[Z.to_nat (toIndex gy) :=
                              jsset row (Z.to_nat (toIndex gx))
                                (tileId blockToPlace)]> w,
                          nselectedBlock p, now, [])
                  else Some (w, nselectedBlock p, nlastActionTime st, [])
                else
                  let idx := indexOf types (nselectedBlock p) in
                  let sel :=
                    types !!! Z.to_nat
                      (Z.rem (idx + 1) (Z.of_nat (length types))) in
                  Some (w, sel, now,
                        [("Equipped: " +:+ blockName sel)%string])
            end
          else Some (w, nselectedBlock p, nlastActionTime st, [])
        else Some (w, nselectedBlock p, nlastActionTime st, [])
      else Some (w, nselectedBlock p, nlastActionTime st, []) in
    match acted with
    | None =>
        ThrewN {| nworld := w;
                  nplayer := {| nx := x; ny := y; nvx := vx'; nvy := vy''';
                                nfacingRight := facing;
                                nselectedBlock := nselectedBlock p |};
                  nlastActionTime := nlastActionTime st |}
    | Some (w', sel, last, log) =>
        let p' := {| nx := x; ny := y; nvx := vx'; nvy := vy''';
                     nfacingRight := facing; nselectedBlock := sel |} in
        (* --- Rendering --- *)
        let width := lit (canvasWidth cv) in
        let height := lit (canvasHeight cv) in
        let camX := Math_floor (x - (width / RENDER_SCALE_N) / lit 2)%num in
        let camY := Math_floor (y - (height / RENDER_SCALE_N) / lit 2)%num in
        let maxCamX :=
          (CHUNK_WIDTH_N * TILE_SIZE_N - width / RENDER_SCALE_N)%num in
        let maxCamY :=
          (CHUNK_HEIGHT_N * TILE_SIZE_N - height / RENDER_SCALE_N)%num in
        let clampedCamX := Math_max (lit 0) (Math_min camX maxCamX) in
        let clampedCamY := Math_max (lit 0) (Math_min camY maxCamY) in
        let startCol := Math_floor (clampedCamX / TILE_SIZE_N)%num in
        let endCol :=
          (startCol + Math_ceil (width / RENDER_SCALE_N / TILE_SIZE_N)
           + lit 1)%num in
        let startRow := Math_floor (clampedCamY / TILE_SIZE_N)%num in
        let endRow :=
          (startRow + Math_ceil (height / RENDER_SCALE_N / TILE_SIZE_N)
           + lit 1)%num in
        let reach := (TILE_SIZE_N * lit 1.5)%num in
        let tX := (x + (if facing then reach else - reach))%num in
        let tY := (y - pHN * lit 0.5)%num in
        let cursorX := (Math_floor (tX / TILE_SIZE_N) * TILE_SIZE_N)%num in
        let cursorY := (Math_floor (tY / TILE_SIZE_N) * TILE_SIZE_N)%num in
        FrameN {| nworld := w'; nplayer := p'; nlastActionTime := last |} log
          ([ SetFillStyleN (skyColor biome);
             FillRectN (lit 0) (lit 0) width height;
             SaveN;
             ScaleN RENDER_SCALE_N RENDER_SCALE_N;
             TranslateN (- clampedCamX)%num (- clampedCamY)%num ]
           ++ concat (map (fun ry =>
                match rowAt w' ry with
                | None => []
                | Some row =>
                    concat (map (drawTileN biome row ry)
                                (fromBelow startCol endCol))
                end) (fromBelow startRow endRow))
           ++ [ SetFillStyleN "#FF0000";
                FillRectN (x - pWN / lit 2)%num (y - pHN)%num pWN pHN;
                SetFillStyleN "#FFCCAA";
                FillRectN (x - pWN / lit 2)%num (y - pHN)%num pWN
                  (pHN * lit 0.4)%num;
                SetStrokeStyleN "#FFFFFF";
                SetLineWidthN (lit 1);
                StrokeRectN cursorX cursorY TILE_SIZE_N TILE_SIZE_N;
                RestoreN ])
    end
  end.

(** The stages in sequence. *)
Definition pipelineN (cv : Canvas) (biome : BiomeConfig) (now : Z)
    (inputs : InputState) (st : GameN num) : OutcomeN num :=
  let st1 :=
    {| nworld := nworld st;
       nplayer := physicsStepN biome inputs (nworld st) (nplayer st);
       nlastActionTime := nlastActionTime st |} in
  match interactionStepN now inputs st1 with
  | None => ThrewN st1
  | Some (st2, log) =>
      FrameN st2 log (renderStepN cv biome (nworld st2) (nplayer st2))
  end.

Lemma updateN_stages cv biome now inputs st :
  updateN (Some cv) biome now inputs st = pipelineN cv biome now inputs st.
Proof.
  destruct st as [w p last], inputs as [l r u d a b].
  unfold updateN, pipelineN, physicsStepN, interactionStepN, renderStepN,
    readCell, setCell, targetXN, targetYN, inGridN.
  cbn [nworld nplayer nlastActionTime in_left in_right in_up in_down
       actionA actionB nx ny nvx nvy nfacingRight nselectedBlock].
  set (vx1 := if l then _ else _).
  set (f1 := if l then false else _).
  assert (Hpair : (if l then (lit (-2), false)
                   else if r then (lit 2, true)
                   else ((nvx p * lit 0.8)%num, nfacingRight p)) = (vx1, f1))
    by (subst vx1 f1; destruct l, r; reflexivity).
  rewrite Hpair; clear Hpair.
  generalize vx1 f1; clear vx1 f1; intros vx1 f1.
  set (vy1 := Math_min _ (lit 8)).
  destruct (checkCollisionN w (nx p) (ny p + vy1)%num) eqn:HY;
    [destruct (vy1 >? lit 0)%num eqn:Hv|];
    cbn [andb orb fst snd];
    (destruct (checkCollisionN w (nx p + vx1)%num _) eqn:HX;
     cbn [nx ny nvx nvy nfacingRight nselectedBlock];
     (destruct ((a || b) && (now - last >? 200)) eqn:Hact; [|reflexivity]);
     (match goal with
      | |- context [?c1 && ?c2 && ?c3 && ?c4] =>
          destruct (c1 && c2 && c3 && c4) eqn:Hin; [|reflexivity]
      end);
     (destruct a; [|destruct b; [|reflexivity]]);
     (match goal with
      | |- context [rowAt w ?gy] =>
          destruct (rowAt w gy) eqn:Hrow; cbn; [|reflexivity]
      end);
     repeat case_bool_decide; try reflexivity; try contradiction;
     match goal with
     | |- context [checkCollisionN w ?a ?b] =>
         destruct (checkCollisionN w a b); reflexivity
     end).
Qed.

(** ** What the stages change *)

Lemma interactionStepN_motion now inputs st st' log :
  interactionStepN now inputs st = Some (st', log) →
  nx (nplayer st') = nx (nplayer st) ∧ ny (nplayer st') = ny (nplayer st)
  ∧ nvx (nplayer st') = nvx (nplayer st)
  ∧ nvy (nplayer st') = nvy (nplayer st)
  ∧ nfacingRight (nplayer st') = nfacingRight (nplayer st).
Proof.
  unfold interactionStepN. intros H.
  repeat (case_match; simplify_option_eq); auto.
Qed.

Lemma stateAfterN_updateN_motion cv biome now inputs st :
  let p1 := physicsStepN biome inputs (nworld st) (nplayer st) in
  let p' := nplayer (stateAfterN st (updateN (Some cv) biome now inputs st)) in
  nx p' = nx p1 ∧ ny p' = ny p1 ∧ nvx p' = nvx p1
  ∧ nvy p' = nvy p1 ∧ nfacingRight p' = nfacingRight p1.
Proof.
  cbv zeta. rewrite updateN_stages. unfold pipelineN.
  destruct (interactionStepN _ _ _) as [[st2 log]|] eqn:Hi; cbn; [|done].
  apply interactionStepN_motion in Hi. exact Hi.
Qed.

(** The interaction stage leaves the world as it is or writes one cell:
    the cell indexed by the floors of the target coordinates, which passed
    the bounds test. *)
Lemma interactionStepN_world now inputs st st' log :
  interactionStepN now inputs st = Some (st', log) →
  nworld st' = nworld st
  ∨ ∃ gy gx v,
      gy = Math_floor (targetYN (nplayer st) / TILE_SIZE_N)%num
      ∧ gx = Math_floor (targetXN (nplayer st) / TILE_SIZE_N)%num
      ∧ inGridN gy gx = true
      ∧ setCell (nworld st) (toIndex gy) (toIndex gx) v = Some (nworld st').
Proof.
  unfold interactionStepN.
  destruct ((actionA inputs || actionB inputs) && _); [|intros [= <- _]; auto].
  set (gx := Math_floor (targetXN _ / _)%num).
  set (gy := Math_floor (targetYN _ / _)%num).
  destruct (inGridN gy gx) eqn:Hin; [|intros [= <- _]; auto].
  destruct (actionA inputs); [|destruct (actionB inputs)].
  - destruct (readCell _ _ _); cbn; [|done].
    case_bool_decide; [|intros [= <- _]; auto].
    destruct (setCell _ _ _ _) as [w'|] eqn:Hs; cbn; [|done].
    intros [= <- _]. right. exists gy, gx, (tileId AIR). auto.
  - destruct (readCell _ _ _); cbn; [|done].
    case_bool_decide; [|intros [= <- _]; auto].
    destruct (checkCollisionN _ _ _); cbn; [intros [= <- _]; auto|].
    destruct (setCell _ _ _ _) as [w'|] eqn:Hs; cbn; [|done].
    intros [= <- _]. right.
    exists gy, gx, (tileId (nselectedBlock (nplayer st))). auto.
  - intros [= <- _]; auto.
Qed.

(** In an arithmetic where a number that passes the bounds test of the
    action indexes inside the grid, a frame changes no cell but the one
    indexed by the floors of the target coordinates, taken at the player's
    position after the move. *)
Lemma updateN_reach cv biome now inputs st st' log ops :
  (∀ gy gx, inGridN gy gx = true →
     0 ≤ toIndex gx < CHUNK_WIDTH ∧ 0 ≤ toIndex gy < CHUNK_HEIGHT) →
  updateN (Some cv) biome now inputs st = FrameN st' log ops →
  ∀ r c, cellAt (nworld st') r c ≠ cellAt (nworld st) r c →
    r = toIndex (Math_floor (targetYN (nplayer st') / TILE_SIZE_N)%num)
    ∧ c = toIndex (Math_floor (targetXN (nplayer st') / TILE_SIZE_N)%num)
    ∧ 0 ≤ c < CHUNK_WIDTH ∧ 0 ≤ r < CHUNK_HEIGHT.
Proof.
  intros Hidx. rewrite updateN_stages. unfold pipelineN.
  set (st1 := {| nworld := _ |}).
  destruct (interactionStepN now inputs st1) as [[st2 lg]|] eqn:Hi; [|done].
  intros [= <- <- <-] r c Hch.
  destruct (interactionStepN_motion _ _ _ _ _ Hi) as (Hx & Hy & _ & _ & Hf).
  destruct (interactionStepN_world _ _ _ _ _ Hi)
    as [Hw|(gy & gx & v & Hgy & Hgx & Hin & Hset)].
  { rewrite Hw in Hch. done. }
  destruct (Hidx _ _ Hin) as [Hc Hr].
  destruct (decide ((r, c) = (toIndex gy, toIndex gx))) as [[= -> ->]|Hne].
  2:{ exfalso. apply Hch.
      eapply cellAt_setCell_ne; [|exact Hset|exact Hne]. lia. }
  unfold targetXN, targetYN. rewrite Hx, Hy, Hf.
  subst gy gx. auto.
Qed.

(** In every arithmetic the velocity and the position that a frame leaves
    are those of the physics stage, written out: the expressions of the
    source, with the collision answers by name. *)
Lemma updateN_velocities cv biome now inputs st :
  let p := nplayer st in
  let p' := nplayer (stateAfterN st (updateN (Some cv) biome now inputs st)) in
  let vx1 :=
    if in_left inputs then lit (-2)
    else if in_right inputs then lit 2 else (nvx p * lit 0.8)%num in
  let vy1 := Math_min (nvy p + lit (gravity biome))%num (lit 8) in
  let hitY := checkCollisionN (nworld st) (nx p) (ny p + vy1)%num in
  let onGround := hitY && (vy1 >? lit 0)%num in
  let hitX := checkCollisionN (nworld st) (nx p + vx1)%num (ny p') in
  nvx p' = (if hitX then lit 0 else vx1)
  ∧ nvy p' = (if in_up inputs && onGround then lit (-6)
              else if hitY then lit 0 else vy1)
  ∧ nx p' = (if hitX then nx p else (nx p + vx1)%num)
  ∧ ny p' =
      (if hitY then
         if (vy1 >? lit 0)%num
         then (Math_floor ((ny p + vy1) / TILE_SIZE_N) * TILE_SIZE_N)%num
         else (Math_ceil ((ny p + vy1) / TILE_SIZE_N) * TILE_SIZE_N
               + lit 0.1)%num
       else (ny p + vy1)%num).
Proof.
  cbv zeta.
  destruct (stateAfterN_updateN_motion cv biome now inputs st)
    as (Hx & Hy & Hvx & Hvy & _).
  rewrite Hx, Hy, Hvx, Hvy. clear.
  unfold physicsStepN.
  destruct (in_left inputs), (in_right inputs); cbn;
    destruct (checkCollisionN (nworld st) (nx (nplayer st)) _); cbn;
    repeat split; reflexivity.
Qed.

(** ** Positions the frame accepts *)

(** The two columns that the collision test samples under a box with the
    feet at [x] are columns of the world, as the test itself decides
    it. *)
Definition betweenSides (x : num) : bool :=
  let left := Math_floor ((x - pWN / lit 2) / TILE_SIZE_N)%num in
  let right :=
    Math_floor ((x + pWN / lit 2 - lit 0.1) / TILE_SIZE_N)%num in
  negb (left <? lit 0)%num && negb (right >=? CHUNK_WIDTH_N)%num.

(** Frames in sequence on one canvas, each with the biome, the clock
    value and the keys it sees. *)
Definition framesN (canvas : option Canvas)
    (frames : list (BiomeConfig * Z * InputState)) (st : GameN num)
  : GameN num :=
  foldl (fun st '(biome, now, inputs) =>
           stateAfterN st (updateN canvas biome now inputs st))
        st frames.

Lemma checkCollisionN_false_sides w x y :
  checkCollisionN w x y = false → betweenSides x = true.
Proof.
  unfold checkCollisionN, betweenSides.
  destruct (_ <? lit 0)%num; [done|].
  destruct (_ >=? CHUNK_WIDTH_N)%num; [done|]. done.
Qed.

Lemma physicsStepN_sides biome inputs w p :
  betweenSides (nx p) = true →
  betweenSides (nx (physicsStepN biome inputs w p)) = true.
Proof.
  intros Hp. unfold physicsStepN.
  destruct (if in_left inputs then _ else _) as [vx1 f1].
  cbn [nx].
  match goal with |- context [if checkCollisionN w ?a ?b then _ else _] =>
    destruct (checkCollisionN w a b) eqn:HX end; [exact Hp|].
  by apply checkCollisionN_false_sides in HX.
Qed.

Lemma updateN_sides canvas biome now inputs st :
  betweenSides (nx (nplayer st)) = true →
  betweenSides
    (nx (nplayer (stateAfterN st (updateN canvas biome now inputs st))))
  = true.
Proof.
  intros Hp. destruct canvas as [cv|]; [|exact Hp].
  destruct (stateAfterN_updateN_motion cv biome now inputs st) as [-> _].
  by apply physicsStepN_sides.
Qed.

(** The sides of the world stop the player, in every arithmetic: when the
    columns sampled under the player are columns of the world before a
    sequence of frames, they are after it, whatever the keys, the clock
    and the biomes. *)
Theorem frames_keep_player_between_sides canvas frames st :
  betweenSides (nx (nplayer st)) = true →
  betweenSides (nx (nplayer (framesN canvas frames st))) = true.
Proof.
  unfold framesN. revert st.
  induction frames as [|[[biome now] inputs] frames IH]; intros st Hp;
    [exact Hp|].
  cbn [foldl]. apply IH. by apply updateN_sides.
Qed.

(** A frame moves the player only to a position that its collision test
    accepts, unless both moves collide: when the vertical move or the
    horizontal move is free, the test is false at the new position, in
    the world as it is before the action of the frame.  (When both
    collide the player keeps x and takes the snapped y.) *)
Theorem free_move_ends_free cv biome now inputs st :
  let p := nplayer st in
  let p' := nplayer (stateAfterN st (updateN (Some cv) biome now inputs st)) in
  let vx1 :=
    if in_left inputs then lit (-2)
    else if in_right inputs then lit 2 else (nvx p * lit 0.8)%num in
  let vy1 := Math_min (nvy p + lit (gravity biome))%num (lit 8) in
  let hitY := checkCollisionN (nworld st) (nx p) (ny p + vy1)%num in
  let hitX := checkCollisionN (nworld st) (nx p + vx1)%num (ny p') in
  hitY && hitX = false →
  checkCollisionN (nworld st) (nx p') (ny p') = false.
Proof.
  cbv zeta.
  destruct (updateN_velocities cv biome now inputs st) as (_ & _ & Hx & Hy).
  cbv zeta in Hx, Hy. rewrite Hx.
  set (p' := nplayer (stateAfterN st _)) in *.
  set (vx1 := if in_left inputs then _ else _) in *.
  set (vy1 := Math_min _ _) in *.
  destruct (checkCollisionN (nworld st) (nx (nplayer st) + vx1)%num (ny p'))
    eqn:HX; [|intros _; exact HX].
  rewrite andb_true_r. intros HY. rewrite Hy, HY. exact HY.
Qed.

End Arithmetic.

(** ** IEEE doubles

    JavaScript numbers are IEEE 754 binary64 values, and so are the
    kernel's primitive floats: sum, difference, product and quotient round
    to nearest, ties to even. *)

(** An integer below 2^63 in magnitude as a double (exact below 2^53). *)
Definition binary64_ofZ (k : Z) : PrimFloat.float :=
  if k <? 0 then PrimFloat.opp (PrimFloat.of_uint63 (Uint63.of_Z (- k)))
  else PrimFloat.of_uint63 (Uint63.of_Z k).

(** A decimal literal: the double nearest to it (numerator and
    denominator are exact doubles, so the quotient rounds once). *)
Definition binary64_lit (q : Q) : PrimFloat.float :=
  PrimFloat.div (binary64_ofZ (Qnum q)) (binary64_ofZ (Z.pos (Qden q))).

(** The integer part, rounded down, of a finite double given by sign,
    mantissa and exponent; 0 for the others. *)
Definition SFfloor (f : SpecFloat.spec_float) : Z :=
  match f with
  | SpecFloat.S754_finite s m e =>
      let v := if s then Z.neg m else Z.pos m in
      if 0 <=? e then Z.shiftl v e else Z.shiftr v (- e)
  | _ => 0
  end.

(** The rational a double stands for; 0 for infinities and NaN. *)
Definition binary64_toQ (x : PrimFloat.float) : Q :=
  match FloatOps.Prim2SF x with
  | SpecFloat.S754_finite s m e =>
      let v := if s then Z.neg m else Z.pos m in
      if 0 <=? e then inject_Z (Z.shiftl v e)
      else (v # Pos.pow 2 (Z.to_pos (- e)))%Q
  | _ => 0%Q
  end.

(** An integer-valued double as an index. *)
Definition binary64_toIndex (x : PrimFloat.float) : Z :=
  SFfloor (FloatOps.Prim2SF x).

(** [Math.floor]: zeros, infinities, NaN and the doubles without a
    fraction are returned as they are. *)
Definition binary64_floor (x : PrimFloat.float) : PrimFloat.float :=
  match FloatOps.Prim2SF x with
  | SpecFloat.S754_finite _ _ e =>
      if e <? 0 then binary64_ofZ (binary64_toIndex x) else x
  | _ => x
  end.

(** [Math.ceil(x)] is [-Math.floor(-x)], also in the sign of a zero. *)
Definition binary64_ceil (x : PrimFloat.float) : PrimFloat.float :=
  PrimFloat.opp (binary64_floor (PrimFloat.opp x)).

(** [Math.min] and [Math.max]: NaN when an argument is NaN, and -0 below
    +0. *)
Definition binary64_min (x y : PrimFloat.float) : PrimFloat.float :=
  if PrimFloat.is_nan x then x
  else if PrimFloat.is_nan y then y
  else if PrimFloat.ltb x y then x
  else if PrimFloat.ltb y x then y
  else if PrimFloat.get_sign x then x else y.

Definition binary64_max (x y : PrimFloat.float) : PrimFloat.float :=
  if PrimFloat.is_nan x then x
  else if PrimFloat.is_nan y then y
  else if PrimFloat.ltb x y then y
  else if PrimFloat.ltb y x then x
  else if PrimFloat.get_sign x then y else x.

#[global] Instance binary64 : Arithmetic PrimFloat.float := {|
  lit := binary64_lit;
  num_add := PrimFloat.add;
  num_sub := PrimFloat.sub;
  num_mul := PrimFloat.mul;
  num_div := PrimFloat.div;
  num_neg := PrimFloat.opp;
  num_ltb := PrimFloat.ltb;
  num_leb := PrimFloat.leb;
  Math_min := binary64_min;
  Math_max := binary64_max;
  Math_floor := binary64_floor;
  Math_ceil := binary64_ceil;
  toIndex := binary64_toIndex;
|}.

Lemma binary64_floor_ceil_examples :
  Math_floor (binary64_lit (-0.5)) = binary64_lit (-1)
  ∧ Math_floor (binary64_lit 23.99) = binary64_lit 23
  ∧ Math_floor (binary64_lit 24) = binary64_lit 24
  ∧ Math_ceil (binary64_lit 23.01) = binary64_lit 24
  ∧ Math_ceil (binary64_lit (-0.5)) = PrimFloat.opp (binary64_lit 0)
  ∧ Math_min (binary64_lit 8.5) (binary64_lit 8) = binary64_lit 8
  ∧ toIndex (binary64_lit 33) = 33.
Proof. vm_compute. repeat split. Qed.

(** *** A double inside the bounds indexes inside the grid *)

Lemma digits2_pos_bound (m : positive) :
  Z.pos m < 2 ^ Z.pos (SpecFloat.digits2_pos m).
Proof.
  induction m as [m IH|m IH|]; cbn [SpecFloat.digits2_pos];
    rewrite ?Pos2Z.inj_succ, ?Z.pow_succ_r by lia; lia.
Qed.

Lemma valid_mantissa_bound s m e :
  SpecFloat.valid_binary FloatOps.prec FloatOps.emax
    (SpecFloat.S754_finite s m e) = true →
  Z.pos m < 2 ^ 53.
Proof.
  unfold SpecFloat.valid_binary, SpecFloat.bounded,
    SpecFloat.canonical_mantissa, SpecFloat.fexp, FloatOps.prec.
  intros [Hc _]%andb_true_iff. apply Z.eqb_eq in Hc.
  pose proof (Z.le_max_l (Z.pos (SpecFloat.digits2_pos m) + e - 53)
                (SpecFloat.emin 53 FloatOps.emax)) as Hl.
  rewrite Hc in Hl. clear Hc.
  eapply Z.lt_le_trans; [apply digits2_pos_bound|].
  apply Z.pow_le_mono_r; lia.
Qed.

(** A valid finite double at or above zero and below the double of an
    integer [n] (of mantissa [mb], at least 2^52, and negative exponent
    [eb]) has its integer part in [0, n). *)
Lemma SFfloor_below f n mb eb :
  SpecFloat.valid_binary FloatOps.prec FloatOps.emax f = true →
  eb < 0 → 2 ^ 52 ≤ Z.pos mb → Z.pos mb = n * 2 ^ (- eb) →
  SpecFloat.SFleb (SpecFloat.S754_zero false) f = true →
  SpecFloat.SFltb f (SpecFloat.S754_finite false mb eb) = true →
  0 ≤ SFfloor f < n.
Proof.
  intros Hv Heb Hmb Hn Hle Hlt.
  assert (0 < n) as Hn0.
  { assert (0 < 2 ^ (- eb)) by (apply Z.pow_pos_nonneg; lia). nia. }
  destruct f as [s|s| |s m e]; cbn in Hle, Hlt |- *.
  - lia.
  - destruct s; discriminate.
  - discriminate.
  - destruct s; [discriminate|].
    pose proof (valid_mantissa_bound _ _ _ Hv) as Hm.
    unfold SpecFloat.SFltb, SpecFloat.SFcompare in Hlt.
    destruct (0 <=? e) eqn:He.
    { apply Z.leb_le in He.
      destruct (e ?= eb) eqn:Hc; try discriminate.
      - apply Z.compare_eq in Hc. exfalso. clear -Hc He Heb. lia.
      - apply (proj1 (Z.compare_lt_iff _ _)) in Hc. exfalso. clear -Hc He Heb. lia. }
    apply Z.leb_gt in He. rewrite Z.shiftr_div_pow2 by lia.
    assert (0 < 2 ^ (- e)) as Hp by (apply Z.pow_pos_nonneg; lia).
    split; [apply Z.div_pos; lia|].
    apply Z.div_lt_upper_bound; [exact Hp|].
    destruct (e ?= eb) eqn:Hc; try discriminate.
    + apply Z.compare_eq in Hc. subst e.
      change (PosDef.Pos.compare_cont Eq m mb) with (m ?= mb)%positive in Hlt.
      destruct (m ?= mb)%positive eqn:Hm'; try discriminate.
      apply (proj1 (Pos.compare_lt_iff _ _)) in Hm'. lia.
    + apply (proj1 (Z.compare_lt_iff _ _)) in Hc.
      replace (- e) with ((eb - e) + (- eb)) by lia.
      rewrite Z.pow_add_r by lia.
      assert (2 ^ 1 ≤ 2 ^ (eb - e)) by (apply Z.pow_le_mono_r; lia).
      change (2 ^ 1) with 2 in *. change (2 ^ 53) with (2 * 2 ^ 52) in Hm.
      assert (0 < 2 ^ (- eb)) by (apply Z.pow_pos_nonneg; lia).
      nia.
Qed.

Lemma binary64_index_below (a : PrimFloat.float) (n : Z) (mb : positive)
    (eb : Z) :
  FloatOps.Prim2SF (binary64_lit (inject_Z n))
  = SpecFloat.S754_finite false mb eb →
  eb < 0 → 2 ^ 52 ≤ Z.pos mb → Z.pos mb = n * 2 ^ (- eb) →
  PrimFloat.leb (binary64_lit 0) a = true →
  PrimFloat.ltb a (binary64_lit (inject_Z n)) = true →
  0 ≤ binary64_toIndex a < n.
Proof.
  intros Hb Heb Hmb Hn. rewrite FloatAxioms.leb_spec, FloatAxioms.ltb_spec, Hb.
  change (FloatOps.Prim2SF (binary64_lit 0)) with (SpecFloat.S754_zero false).
  apply SFfloor_below; auto. apply FloatAxioms.Prim2SF_valid.
Qed.

Lemma binary64_inGrid (gy gx : PrimFloat.float) :
  inGridN gy gx = true →
  0 ≤ toIndex gx < CHUNK_WIDTH ∧ 0 ≤ toIndex gy < CHUNK_HEIGHT.
Proof.
  unfold inGridN. rewrite !andb_true_iff. intros [[[Hx0 Hx1] Hy0] Hy1].
  split.
  - eapply (binary64_index_below gx CHUNK_WIDTH); [| | | |exact Hx0|exact Hx1];
      [vm_compute; reflexivity|lia|vm_compute; discriminate|reflexivity].
  - eapply (binary64_index_below gy CHUNK_HEIGHT); [| | | |exact Hy0|exact Hy1];
      [vm_compute; reflexivity|lia|vm_compute; discriminate|reflexivity].
Qed.

(** *** Order of doubles *)

Lemma SFcompare_antisym (f g : SpecFloat.spec_float) :
  SpecFloat.SFcompare g f = option_map CompOpp (SpecFloat.SFcompare f g).
Proof.
  destruct f as [s|s| |s m e], g as [s'|s'| |s' m' e']; cbn;
    try reflexivity; try (by destruct s); try (by destruct s, s');
    try (by destruct s').
  rewrite (Z.compare_antisym e e'), (ZC4 m' m).
  destruct s, s', (e ?= e'), (PosDef.Pos.compare_cont Eq m m'); reflexivity.
Qed.

Lemma binary64_ltb_asym (x y : PrimFloat.float) :
  PrimFloat.ltb x y = true → PrimFloat.ltb y x = false.
Proof.
  rewrite !FloatAxioms.ltb_spec. unfold SpecFloat.SFltb.
  rewrite (SFcompare_antisym (FloatOps.Prim2SF x) (FloatOps.Prim2SF y)).
  by destruct (SpecFloat.SFcompare _ _) as [[]|].
Qed.

Lemma binary64_nan_not_above (x y : PrimFloat.float) :
  PrimFloat.is_nan x = true → PrimFloat.ltb y x = false.
Proof.
  unfold PrimFloat.is_nan.
  rewrite FloatAxioms.eqb_spec, FloatAxioms.ltb_spec.
  unfold SpecFloat.SFeqb, SpecFloat.SFltb.
  destruct (FloatOps.Prim2SF x) as [s|s| |s m e]; cbn.
  - discriminate.
  - by destruct s.
  - intros _. by destruct (FloatOps.Prim2SF y).
  - rewrite Z.compare_refl, Pcompare_refl. by destruct s.
Qed.

(** [Math.min(x, 8)] is never above 8. *)
Lemma binary64_min_cap (x : PrimFloat.float) :
  PrimFloat.ltb (binary64_lit 8) (binary64_min x (binary64_lit 8)) = false.
Proof.
  unfold binary64_min.
  destruct (PrimFloat.is_nan x) eqn:Hn; [by apply binary64_nan_not_above|].
  change (PrimFloat.is_nan (binary64_lit 8)) with false. cbv iota.
  destruct (PrimFloat.ltb x (binary64_lit 8)) eqn:Hlt;
    [by apply binary64_ltb_asym|].
  destruct (PrimFloat.ltb (binary64_lit 8) x) eqn:Hgt; [by vm_compute|].
  destruct (PrimFloat.get_sign x); [exact Hgt | by vm_compute].
Qed.

(** ** Velocities in doubles *)

(** C5. After a frame computed in doubles the player's velocity is:
    horizontally, -2 when left is held, else +2 when right is held, else
    the old one times 0.8, and 0 when the horizontal move collides;
    vertically, the old one plus [biome.gravity] capped by [Math.min] at
    8 (never above 8), reset to 0 by a vertical collision, and -6 when up
    is held and the vertical collision happened while moving down (on
    ground).  The position is the old one plus these velocities, with the
    snap of a vertical collision and without the horizontal move when it
    collides. *)
Theorem physics_velocity_rules cv biome now inputs
    (st : GameN PrimFloat.float) :
  let p := nplayer st in
  let p' := nplayer (stateAfterN st (updateN (Some cv) biome now inputs st)) in
  let vx1 :=
    if in_left inputs then lit (-2)
    else if in_right inputs then lit 2 else (nvx p * lit 0.8)%num in
  let vy1 := Math_min (nvy p + lit (gravity biome))%num (lit 8) in
  let hitY := checkCollisionN (nworld st) (nx p) (ny p + vy1)%num in
  let onGround := hitY && (vy1 >? lit 0)%num in
  let hitX := checkCollisionN (nworld st) (nx p + vx1)%num (ny p') in
  (vy1 >? lit 8)%num = false
  ∧ nvx p' = (if hitX then lit 0 else vx1)
  ∧ nvy p' = (if in_up inputs && onGround then lit (-6)
              else if hitY then lit 0 else vy1)
  ∧ nx p' = (if hitX then nx p else (nx p + vx1)%num)
  ∧ ny p' =
      (if hitY then
         if (vy1 >? lit 0)%num
         then (Math_floor ((ny p + vy1) / TILE_SIZE_N) * TILE_SIZE_N)%num
         else (Math_ceil ((ny p + vy1) / TILE_SIZE_N) * TILE_SIZE_N
               + lit 0.1)%num
       else (ny p + vy1)%num).
Proof.
  cbv zeta. split; [apply binary64_min_cap|].
  apply (updateN_velocities cv biome now inputs st).
Qed.

(** ** The reach of an action in doubles *)

(** Standing on the grass of [meadow] with the feet at [x], facing
    right. *)
Definition standingN {num : Type} {A : Arithmetic num} (x : Q) : GameN num :=
  {| nworld := meadow;
     nplayer := {| nx := lit x; ny := lit 384; nvx := lit 0; nvy := lit 0;
                   nfacingRight := true; nselectedBlock := DIRT |};
     nlastActionTime := 0 |}.

(** Frames on the mounted canvas under [DEFAULT_BIOME], one per entry of
    [keys], all read at the clock value [now]. *)
Definition runN {num : Type} {A : Arithmetic num} (now : Z)
    (keys : list InputState) (st : GameN num) : GameN num :=
  foldl (fun st inputs =>
           stateAfterN st
             (updateN (Some screenCanvas) DEFAULT_BIOME now inputs st))
        st keys.

Definition holdLeft : InputState :=
  {| in_left := true; in_right := false; in_up := false; in_down := false;
     actionA := false; actionB := false |}.

Definition holdRight : InputState :=
  {| in_left := false; in_right := true; in_up := false; in_down := false;
     actionA := false; actionB := false |}.

Definition holdRightB : InputState :=
  {| in_left := false; in_right := true; in_up := false; in_down := false;
     actionA := false; actionB := true |}.

(** Nineteen frames of walking from x = 512 on [meadow]: left three
    times, right once, six frames without a key, left three times, six
    frames without a key.  In doubles the player stops at
    x = 502 - 2^-44. *)
Definition nearTileEdge : GameN PrimFloat.float :=
  runN 0
    ([holdLeft; holdLeft; holdLeft; holdRight] ++ replicate 6 noInput
     ++ [holdLeft; holdLeft; holdLeft] ++ replicate 6 noInput)
    (standingN 512).

Lemma nearTileEdge_position :
  (binary64_toQ (nx (nplayer nearTileEdge)) == 502 - 1 / 2 ^ 44)%Q
  ∧ (binary64_toQ (ny (nplayer nearTileEdge)) == 384)%Q
  ∧ nworld nearTileEdge = meadow.
Proof. vm_compute. repeat split. Qed.

(** The constants of the target point in doubles: the reach is 24 and
    half the player height is the double nearest to 12.8. *)
Lemma binary64_target_constants :
  (TILE_SIZE_N * lit 1.5)%num = binary64_lit 24
  ∧ (- (TILE_SIZE_N * lit 1.5))%num = binary64_lit (-24)
  ∧ (pHN * lit 0.5)%num = binary64_lit 12.8
  ∧ TILE_SIZE_N = binary64_lit 16.
Proof. vm_compute. repeat split. Qed.

(** Rounding at a tile edge.  From [nearTileEdge], a frame with right and
    B held at time 1000 moves the player to x = 504 - 2^-44 and places the
    selected block in row 23, column 33: the sum x + 24 rounds to the
    double 528.  The rational point x + 24 = 528 - 2^-44 lies on the other
    side of the tile edge, in column 32, which stays AIR. *)
Lemma target_cell_off_by_rounding :
  ∃ st' log ops,
    updateN (Some screenCanvas) DEFAULT_BIOME 1000 holdRightB nearTileEdge
    = FrameN st' log ops
    ∧ cellAt (nworld nearTileEdge) 23 33 = Some (tileId AIR)
    ∧ cellAt (nworld st') 23 33 = Some (tileId DIRT)
    ∧ cellAt (nworld st') 23 32 = Some (tileId AIR)
    ∧ nfacingRight (nplayer st') = true
    ∧ (binary64_toQ (nx (nplayer st')) == 504 - 1 / 2 ^ 44)%Q
    ∧ Qfloor ((binary64_toQ (nx (nplayer st')) + 24) / 16) = 32
    ∧ Qfloor ((binary64_toQ (ny (nplayer st')) - 12.8) / 16) = 23.
Proof.
  set (o := updateN (Some screenCanvas) DEFAULT_BIOME 1000 holdRightB
              nearTileEdge).
  exists (stateAfterN nearTileEdge o), (frameLogN o), (frameOpsN o).
  vm_compute. repeat split.
Qed.

(** C4.  In a frame computed in doubles, a cell whose content
    differs before and after is the cell indexed by the floors of
    targetX / 16 and targetY / 16, where targetX is the double sum of the
    player's x and 24 (or -24, facing left) and targetY the double
    difference of the player's y and 12.8, at the player's position after
    the frame's move; that cell lies inside the 64x48 grid.  Hence no
    other cell changes and two changed cells are the same cell. *)
Theorem action_reach_limited cv biome now inputs
    (st st' : GameN PrimFloat.float) log ops :
  updateN (Some cv) biome now inputs st = FrameN st' log ops →
  let p' := nplayer st' in
  let targetX :=
    (nx p' + (if nfacingRight p' then lit 24 else lit (-24)))%num in
  let targetY := (ny p' - lit 12.8)%num in
  let gx := toIndex (Math_floor (targetX / lit 16)%num) in
  let gy := toIndex (Math_floor (targetY / lit 16)%num) in
  (∀ r c, cellAt (nworld st') r c ≠ cellAt (nworld st) r c →
          r = gy ∧ c = gx ∧ 0 ≤ gx < 64 ∧ 0 ≤ gy < 48)
  ∧ (∀ r1 c1 r2 c2,
        cellAt (nworld st') r1 c1 ≠ cellAt (nworld st) r1 c1 →
        cellAt (nworld st') r2 c2 ≠ cellAt (nworld st) r2 c2 →
        (r1, c1) = (r2, c2)).
Proof.
  intros Hu. cbv zeta.
  pose proof (updateN_reach _ _ _ _ _ _ _ _ binary64_inGrid Hu) as Hone.
  unfold targetXN, targetYN in Hone.
  destruct binary64_target_constants as (Hr & Hl & Hh & Ht).
  rewrite Hl, Hr, Hh, Ht in Hone.
  unfold CHUNK_WIDTH, CHUNK_HEIGHT in Hone.
  split.
  - intros r c Hch. destruct (Hone r c Hch) as (-> & -> & ? & ?). auto.
  - intros r1 c1 r2 c2 H1 H2.
    destruct (Hone r1 c1 H1) as (-> & -> & _), (Hone r2 c2 H2) as (-> & -> & _).
    reflexivity.
Qed.

Lemma action_reach_limited_witness :
  ∃ st' log ops,
    updateN (Some screenCanvas) DEFAULT_BIOME 1000 holdB
      (standingN (A := binary64) 520)
    = FrameN st' log ops
    ∧ cellAt (nworld st') 23 34 ≠ cellAt meadow 23 34
    ∧ (∀ r c, cellAt (nworld st') r c ≠ cellAt meadow r c →
              r = 23 ∧ c = 34).
Proof.
  set (o := updateN (Some screenCanvas) DEFAULT_BIOME 1000 holdB
              (standingN (A := binary64) 520)).
  assert (o = FrameN (stateAfterN (standingN 520) o) (frameLogN o)
                (frameOpsN o))
    as E by (vm_compute; reflexivity).
  exists (stateAfterN (standingN 520) o), (frameLogN o), (frameOpsN o).
  split; [exact E|].
  pose proof (action_reach_limited screenCanvas DEFAULT_BIOME 1000 holdB
                (standingN 520) _ _ _ E) as H.
  cbv zeta in H. destruct H as [H _].
  split; [vm_compute; discriminate|].
  intros r c Hch. destruct (H r c Hch) as (Hr & Hc & _).
  split; [rewrite Hr | rewrite Hc]; vm_compute; reflexivity.
Defined.

(** ** The sides of the world in doubles *)

(** The world generated from draws that never move the surface: flat
    ground on row 24, no tree. *)
Definition plain : World :=
  Eval vm_compute in
    default [] (fst <$> generateWorld DEFAULT_BIOME calmDraws initialPlayer).

(** Standing on the grass of [plain] with the feet at [x]. *)
Definition onPlain {num : Type} {A : Arithmetic num} (x : Q) : GameN num :=
  {| nworld := plain;
     nplayer := {| nx := lit x; ny := lit 384; nvx := lit 0; nvy := lit 0;
                   nfacingRight := true; nselectedBlock := DIRT |};
     nlastActionTime := 0 |}.

(** Walking into the left side: 252 frames with left held, then ten
    frames of short moves. *)
Definition toLeftSide : list (BiomeConfig * Z * InputState) :=
  (fun keys => (DEFAULT_BIOME, 0, keys))
  <$> (replicate 252 holdLeft
       ++ [noInput; holdRight; holdLeft; noInput; holdRight;
           noInput; noInput; holdLeft; noInput; noInput]).

(** In doubles the walk ends at the double of 4.8, which is below 24/5:
    the rational quotient (x - 4.8) / 16 is negative there, while the
    test of the source computes column 0 and accepts the position. *)
Lemma frames_keep_player_between_sides_witness :
  let st := framesN (Some screenCanvas) toLeftSide
              (onPlain (A := binary64) 512) in
  betweenSides (A := binary64) (lit 512) = true
  ∧ nx (nplayer st) = binary64_lit 4.8
  ∧ Qfloor ((binary64_toQ (nx (nplayer st)) - 4.8) / 16) = -1
  ∧ betweenSides (nx (nplayer st)) = true.
Proof.
  cbv zeta.
  assert (betweenSides (A := binary64) (lit 512) = true) as H0
    by (vm_compute; reflexivity).
  split; [exact H0|]. split; [vm_compute; reflexivity|].
  split; [vm_compute; reflexivity|].
  exact (frames_keep_player_between_sides (Some screenCanvas) toLeftSide
           (onPlain 512) H0).
Defined.

Lemma free_move_ends_free_witness :
  let st := standingN (A := binary64) 520 in
  let p' := nplayer (stateAfterN st
              (updateN (Some screenCanvas) DEFAULT_BIOME 0 holdRight st)) in
  nx p' = binary64_lit 522
  ∧ checkCollisionN meadow (nx p') (ny p') = false.
Proof.
  cbv zeta. split; [vm_compute; reflexivity|].
  apply (free_move_ends_free screenCanvas DEFAULT_BIOME 0 holdRight
           (standingN 520)).
  vm_compute. reflexivity.
Defined.

(** ** Exact rationals

    With the rationals for numbers and their exact operators, [updateN]
    is the [update] of the first part. *)

#[global] Instance rationals : Arithmetic Q := {|
  lit q := q;
  num_add := Qplus;
  num_sub := Qminus;
  num_mul := Qmult;
  num_div := Qdiv;
  num_neg := Qopp;
  num_ltb := Qltb;
  num_leb a b := negb (Qltb b a);
  Math_min := Qmin;
  Math_max := Qmax;
  Math_floor q := inject_Z (Qfloor q);
  Math_ceil q := inject_Z (Qceiling q);
  toIndex := Qfloor;
|}.

Definition toPlayerState (p : PlayerN Q) : PlayerState :=
  {| pl_x := nx p; pl_y := ny p; pl_vx := nvx p; pl_vy := nvy p;
     facingRight := nfacingRight p; selectedBlock := nselectedBlock p |}.

Definition toGameState (st : GameN Q) : GameState :=
  {| world := nworld st; player := toPlayerState (nplayer st);
     lastActionTime := nlastActionTime st |}.

Definition toCanvasOp (op : CanvasOpN Q) : CanvasOp :=
  match op with
  | SetFillStyleN s => SetFillStyle s
  | FillRectN x y w h => FillRect x y w h
  | SaveN => Save
  | ScaleN sx sy => Scale sx sy
  | TranslateN dx dy => Translate dx dy
  | SetStrokeStyleN s => SetStrokeStyle s
  | SetLineWidthN w => SetLineWidth w
  | StrokeRectN x y w h => StrokeRect x y w h
  | RestoreN => Restore
  end.

Definition toOutcome (o : OutcomeN Q) : Outcome :=
  match o with
  | NoCanvasN => NoCanvas
  | ThrewN st => Threw (toGameState st)
  | FrameN st log ops => Frame (toGameState st) log (map toCanvasOp ops)
  end.

Lemma Qltb_inject_Z (a b : Z) : Qltb (inject_Z a) (inject_Z b) = (a <? b).
Proof.
  unfold Qltb, Qcompare, Z.ltb. cbn. by rewrite !Z.mul_1_r.
Qed.

Lemma Qgeb_inject_Z (a b : Z) :
  negb (Qltb (inject_Z a) (inject_Z b)) = (a >=? b).
Proof.
  rewrite Qltb_inject_Z. unfold Z.ltb, Z.geb. by destruct (a ?= b).
Qed.

Lemma fromTo_exact (a b : Z) :
  fromTo (A := rationals) (inject_Z a) (inject_Z b) = seqZ a (b - a + 1).
Proof.
  unfold fromTo. cbn [num_leb toIndex rationals]. rewrite !Qfloor_Z.
  rewrite Qgeb_inject_Z.
  destruct (b >=? a) eqn:H; [done|].
  symmetry. apply seqZ_nil. lia.
Qed.

Lemma checkCollisionN_exact w x y :
  checkCollisionN (A := rationals) w x y = checkCollision w x y.
Proof.
  unfold checkCollisionN, checkCollision.
  cbn [Math_floor rationals num_ltb num_leb].
  change (@lit Q rationals 0) with (inject_Z 0).
  change (@CHUNK_WIDTH_N Q rationals) with (inject_Z CHUNK_WIDTH).
  change (@CHUNK_HEIGHT_N Q rationals) with (inject_Z CHUNK_HEIGHT).
  rewrite !Qgeb_inject_Z, !Qltb_inject_Z, !fromTo_exact.
  reflexivity.
Qed.

Lemma physicsStepN_exact biome inputs w (p : PlayerN Q) :
  toPlayerState (physicsStepN biome inputs w p)
  = physicsStep biome inputs w (toPlayerState p).
Proof.
  unfold physicsStepN, physicsStep.
  destruct p as [x y vx vy f sel], inputs as [l r u d a b].
  cbn [toPlayerState nx ny nvx nvy nfacingRight nselectedBlock
       pl_x pl_y pl_vx pl_vy facingRight selectedBlock
       in_left in_right in_up].
  destruct l; [|destruct r]; rewrite !checkCollisionN_exact; reflexivity.
Qed.

Lemma inGridN_exact (gy gx : Z) :
  inGridN (A := rationals) (inject_Z gy) (inject_Z gx) = inGrid gy gx.
Proof.
  unfold inGridN, inGrid. cbn [num_ltb num_leb rationals].
  change (@lit Q rationals 0) with (inject_Z 0).
  change (@CHUNK_WIDTH_N Q rationals) with (inject_Z CHUNK_WIDTH).
  change (@CHUNK_HEIGHT_N Q rationals) with (inject_Z CHUNK_HEIGHT).
  by rewrite !Qgeb_inject_Z, !Qltb_inject_Z.
Qed.

Lemma interactionStepN_exact now inputs (st : GameN Q) :
  prod_map toGameState id <$> interactionStepN now inputs st
  = interactionStep now inputs (toGameState st).
Proof.
  unfold interactionStepN, interactionStep, targetCell.
  cbn [Math_floor toIndex rationals]. rewrite !Qfloor_Z, inGridN_exact.
  rewrite checkCollisionN_exact.
  destruct st as [w [x y vx vy f sel] last], inputs as [l r u d a b].
  cbn [toGameState toPlayerState nworld nplayer nlastActionTime
       world player lastActionTime actionA actionB
       nx ny nvx nvy nfacingRight nselectedBlock
       pl_x pl_y pl_vx pl_vy facingRight selectedBlock].
  unfold targetXN, targetYN, targetX, targetY, pHN, pH, TILE_SIZE_N.
  cbn [lit num_add num_sub num_mul num_div num_neg rationals toPlayerState
       nx ny nfacingRight pl_x pl_y facingRight].
  destruct ((a || b) && (now - last >? 200)); [|reflexivity].
  match goal with |- context [inGrid ?gy ?gx] =>
    destruct (inGrid gy gx); [|reflexivity] end.
  destruct a; [|destruct b; [|reflexivity]].
  - destruct (readCell _ _ _); [|reflexivity]. cbn.
    case_bool_decide; [|reflexivity].
    by destruct (setCell _ _ _ _).
  - destruct (readCell _ _ _); [|reflexivity]. cbn.
    case_bool_decide; [|reflexivity].
    destruct (checkCollision _ _ _); [reflexivity|]. cbn.
    by destruct (setCell _ _ _ _).
Qed.

Lemma fromBelow_exact (s c : Z) :
  fromBelow (A := rationals) (inject_Z s) (inject_Z s + inject_Z c + 1)%Q
  = seqZ s (s + c + 1 - s).
Proof.
  unfold fromBelow. cbn [num_ltb toIndex rationals].
  assert (inject_Z s + inject_Z c + 1 == inject_Z (s + c + 1))%Q as Heq
    by (rewrite !inject_Z_plus; reflexivity).
  rewrite (Qfloor_comp _ _ Heq), !Qfloor_Z.
  destruct (Qltb _ _) eqn:H; [done|].
  symmetry. apply seqZ_nil.
  apply Qltb_ge in H. rewrite Heq, <- Zle_Qle in H. lia.
Qed.

Lemma drawTileN_exact biome row y x :
  map toCanvasOp (drawTileN biome row y x) = drawTile biome row y x.
Proof. unfold drawTileN, drawTile. by case_bool_decide. Qed.

Lemma renderStepN_exact cv biome w (p : PlayerN Q) :
  map toCanvasOp (renderStepN cv biome w p)
  = renderStep cv biome w (toPlayerState p).
Proof.
  unfold renderStepN, renderStep, camera.
  cbn [Math_floor Math_ceil rationals].
  change (@lit Q rationals 1) with 1%Q.
  rewrite !fromBelow_exact.
  rewrite !map_app, !concat_map, !map_map.
  f_equal. f_equal.
  f_equal. apply map_ext. intros ry.
  destruct (rowAt w ry) as [row|]; [|reflexivity].
  rewrite concat_map, map_map. f_equal. apply map_ext. intros x.
  apply drawTileN_exact.
Qed.

(** At the exact rationals [updateN] is [update]. *)
Lemma updateN_exact canvas biome now inputs (st : GameN Q) :
  toOutcome (updateN canvas biome now inputs st)
  = update canvas biome now inputs (toGameState st).
Proof.
  destruct canvas as [cv|]; [|reflexivity].
  rewrite updateN_stages, update_stages. unfold pipelineN, pipeline.
  set (st1 := {| nworld := _ |}).
  assert (toGameState st1
          = {| world := world (toGameState st);
               player := physicsStep biome inputs (world (toGameState st))
                           (player (toGameState st));
               lastActionTime := lastActionTime (toGameState st) |}) as Hst1
    by (unfold st1, toGameState; cbn; by rewrite physicsStepN_exact).
  rewrite <- Hst1, <- interactionStepN_exact.
  destruct (interactionStepN now inputs st1) as [[st2 log]|];
    cbn [fmap option_fmap option_map prod_map fst snd id toOutcome].
  - rewrite renderStepN_exact. reflexivity.
  - reflexivity.
Qed.

(** ** Doubles and rationals side by side *)

(** Products and sums round: 1.6 * 0.8 is above the double of 1.28, and
    64 + 0.1 - 0.1 is below 64. *)
Lemma binary64_rounds :
  PrimFloat.ltb (binary64_lit 1.28) (lit 1.6 * lit 0.8)%num = true
  ∧ PrimFloat.ltb (lit 64 + lit 0.1 - lit 0.1)%num (binary64_lit 64) = true.
Proof. vm_compute. split; reflexivity. Qed.

(** [meadow] with a step: the ground of columns 0..32 is one row higher
    (GRASS on row 23). *)
Definition ledge : World :=
  Eval vm_compute in
    default meadow
      (foldM (fun c w => setCell w 23 c (tileId GRASS)) (seqZ 0 33) meadow).

(** Falling beside the step with the feet at ([x], 371), moving left at 2
    and down at 1.5. *)
Definition besideLedge {num : Type} (x : num) {A : Arithmetic num}
  : GameN num :=
  {| nworld := ledge;
     nplayer := {| nx := x; ny := lit 371; nvx := lit (-2); nvy := lit 1.5;
                   nfacingRight := false; nselectedBlock := DIRT |};
     nlastActionTime := 0 |}.

(** One frame without a key from the double 534.4.  In doubles
    532.8 - 4.8 is 528, the left edge of the box is in column 33 and the
    player moves on to x = 532.8 with velocity -1.6.  With the same
    numbers taken as rationals the left edge is just inside column 32,
    the move collides with the step and the player stays, with velocity
    0. *)
Lemma rounding_steps_past_tile_edge :
  let x0 := binary64_lit 534.4 in
  let p := nplayer (stateAfterN (besideLedge x0)
             (updateN (Some screenCanvas) DEFAULT_BIOME 0 noInput
                (besideLedge x0))) in
  let q := nplayer (stateAfterN (besideLedge (binary64_toQ x0))
             (updateN (Some screenCanvas) DEFAULT_BIOME 0 noInput
                (besideLedge (binary64_toQ x0)))) in
  nx p = binary64_lit 532.8 ∧ nvx p = binary64_lit (-1.6)
  ∧ nx q = binary64_toQ x0 ∧ nvx q = 0%Q.
Proof. vm_compute. repeat split. Qed.
